(** * quadplay loader: a shallow embedding of [console/quadplay-load.js]

    The development follows the source file top to bottom:

    - [JS]        the JavaScript value conventions shared by all parts
                  (strings as UTF-16 code units, 32-bit integer operators,
                  numbers as IEEE doubles, [for] loops, thrown exceptions);
    - [Hex]       [parseHex] and [parseHexColor];
    - [Manifest]  the head of the manifest callback of [afterLoadGame]
                  (screen size, scripts, modes);
    - [Image]     [getImageData4Bit] and [getImageData4BitAndFlip];
    - [Sprites]   the image callback of [loadSpritesheet];
    - [TileMap]   the layer decoder of [loadMap];
    - [Parser]    [regexIndexOf] and [_parse];
    - [Url]       [urlDir], [urlFile], [makeURLAbsolute], [urlFilename] and
                  the game URL that [afterLoadGame] derives;
    - [Constants] [nullToUndefined] and [evalJSONGameConstant];
    - [Assets]    the loader that the manifest callback chooses for an
                  asset.

    The modules after these hold the vocabulary of the properties; the
    properties follow in the second part, one module of facts for each
    module of definitions. *)

From Stdlib Require Import ZArith List Floats Lia Bool Ascii String.
From stdpp Require Import gmap list strings.

Open Scope Z_scope.
Set Warnings "-register-all".

(* ===================================================================== *)
(** ** JavaScript conventions *)
(* ===================================================================== *)

Module JS.

(** A JavaScript string is a sequence of UTF-16 code units. *)
Abbreviation jsstring := (list Z).

(** The code units of an ASCII literal. *)
Definition js (s : string) : jsstring :=
  (λ a, Z.of_N (N_of_ascii a)) <$> list_ascii_of_string s.
Arguments js s%_string.

(** [s.substring(a, b)] for [a <= b]. *)
Definition substring (a b : nat) (s : jsstring) : jsstring :=
  take (b - a) (drop a s).

(** [s[i]] as a string: one code unit, or [undefined] out of range. *)
Definition charAt (s : jsstring) (i : nat) : option jsstring :=
  (λ c, [c]) <$> s !! i.

(** Outcome of a computation that may [throw]. *)
Inductive result (E A : Type) : Type :=
| Ok (a : A)
| Throw (e : E).
Arguments Ok {E A} a.
Arguments Throw {E A} e.

#[global] Instance result_ret {E} : MRet (result E) := λ A a, Ok a.
#[global] Instance result_bind {E} : MBind (result E) :=
  λ A B f m, match m with Ok a => f a | Throw e => Throw e end.
#[global] Instance result_fmap {E} : FMap (result E) :=
  λ A B f m, match m with Ok a => Ok (f a) | Throw e => Throw e end.

(** The integer conversions behind the bitwise operators. *)
Definition ToInt32 (z : Z) : Z := (z + 2 ^ 31) mod 2 ^ 32 - 2 ^ 31.
Definition ToUint32 (z : Z) : Z := z mod 2 ^ 32.

(** [a >> n], [a >>> n], [a << n], [a & b], [a | b]. *)
Definition sar (a n : Z) : Z := Z.shiftr (ToInt32 a) (ToUint32 n mod 32).
Definition shr (a n : Z) : Z := Z.shiftr (ToUint32 a) (ToUint32 n mod 32).
Definition shl (a n : Z) : Z := ToInt32 (Z.shiftl (ToInt32 a) (ToUint32 n mod 32)).
Definition and (a b : Z) : Z := Z.land (ToInt32 a) (ToInt32 b).
Definition or (a b : Z) : Z := Z.lor (ToInt32 a) (ToInt32 b).

(** The Number value of an integer: the nearest double, ties to even. *)
Definition Number_of_Z (z : Z) : float :=
  SF2Prim (binary_normalize prec emax z 0 false).

(** [for (let i = lo; i < hi; ++i) body], threading the state [s]. *)
Definition for_lt {S : Type} (lo hi : nat) (body : nat → S → S) (s : S) : S :=
  foldl (λ s i, body i s) s (seq lo (hi - lo)).

(** The same loop over integers, and with an inclusive bound
    [for (let i = lo; i <= hi; ++i) body]. *)
Definition for_ltZ {S : Type} (lo hi : Z) (body : Z → S → S) (s : S) : S :=
  foldl (λ s i, body i s) s (seqZ lo (hi - lo)).

(** A loop whose body may throw: the first exception leaves the loop. *)
Fixpoint for_each {E S A : Type} (body : A → S → result E S)
    (l : list A) (s : S) : result E S :=
  match l with
  | [] => Ok s
  | i :: l' => s' ← body i s; for_each body l' s'
  end.

End JS.
Import JS.

(* ===================================================================== *)
(** ** Hexadecimal colours: [parseHex], [parseHexColor] *)
(* ===================================================================== *)

Module Hex.

Inductive exn :=
| IllegalHexColor (str : jsstring).
  (* Error: Illegal hexadecimal color specification: '#[str]' *)

(** White space skipped by [parseInt] before the digits. *)
Definition isStrWhiteSpace (c : Z) : bool :=
  bool_decide (c ∈ [9; 10; 11; 12; 13; 32; 160; 5760; 8232; 8233; 8239; 8287;
                    12288; 65279])
  || ((8192 <=? c) && (c <=? 8202)).

Definition hexDigit (c : Z) : option Z :=
  if (48 <=? c) && (c <=? 57) then Some (c - 48)
  else if (97 <=? c) && (c <=? 102) then Some (c - 87)
  else if (65 <=? c) && (c <=? 70) then Some (c - 55)
  else None.

Fixpoint leadingDigits (s : jsstring) : list Z :=
  match s with
  | c :: s' =>
      match hexDigit c with
      | Some d => d :: leadingDigits s'
      | None => []
      end
  | [] => []
  end.

Fixpoint skipWhiteSpace (s : jsstring) : jsstring :=
  match s with
  | c :: s' => if isStrWhiteSpace c then skipWhiteSpace s' else s
  | [] => []
  end.

(** [parseInt(str, 16)]: skip white space, read a sign and an optional
    [0x], then the longest run of hexadecimal digits; [NaN] without one. *)
Definition parseInt16 (str : jsstring) : float :=
  let s := skipWhiteSpace str in
  let '(negative, s) :=
    match s with
    | 45 :: s' => (true, s')
    | 43 :: s' => (false, s')
    | _ => (false, s)
    end in
  let s :=
    match s with
    | 48 :: 120 :: s' => s'
    | 48 :: 88 :: s' => s'
    | _ => s
    end in
  match leadingDigits s with
  | [] => nan
  | ds =>
      let n := Number_of_Z (foldl (λ acc d, 16 * acc + d) 0 ds) in
      if negative then (- n)%float else n
  end.

(** [str.replace(/^0*/, '')] *)
Fixpoint removeLeadingZeros (str : jsstring) : jsstring :=
  match str with
  | 48 :: str' => removeLeadingZeros str'
  | _ => str
  end.

Definition parseHex (str : jsstring) : float :=
  let div := if (length str =? 2)%nat then 255%float else 15%float in
  let str := removeLeadingZeros str in
  if (length str =? 0)%nat then 0%float
  else (parseInt16 str / div)%float.

Record Color := { r : float; g : float; b : float; a : float }.

(** The [switch] on [str.length]; cases 8 and 4 fall through into 6 and 3
    after reading alpha. *)
Definition parseHexColor (str : jsstring) : result exn Color :=
  let digit i := default [] (charAt str i) in
  match length str with
  | 8%nat =>
      Ok {| r := parseHex (substring 0 2 str);
            g := parseHex (substring 2 4 str);
            b := parseHex (substring 4 6 str);
            a := parseHex (substring 6 8 str) |}
  | 6%nat =>
      Ok {| r := parseHex (substring 0 2 str);
            g := parseHex (substring 2 4 str);
            b := parseHex (substring 4 6 str);
            a := 1%float |}
  | 4%nat =>
      Ok {| r := parseHex (digit 0%nat);
            g := parseHex (digit 1%nat);
            b := parseHex (digit 2%nat);
            a := parseHex (digit 3%nat) |}
  | 3%nat =>
      Ok {| r := parseHex (digit 0%nat);
            g := parseHex (digit 1%nat);
            b := parseHex (digit 2%nat);
            a := 1%float |}
  | 2%nat | 1%nat =>
      let y := parseHex str in
      Ok {| r := y; g := y; b := y; a := 1%float |}
  | _ => Throw (IllegalHexColor str)
  end.

End Hex.

(* ===================================================================== *)
(** ** The manifest callback of [afterLoadGame]: screen size, scripts, modes *)
(* ===================================================================== *)

Module Manifest.

(** Parsed JSON. Objects are finite maps from property names. *)
Inductive Json :=
| JNull
| JBool (b : bool)
| JNum (n : float)
| JStr (s : jsstring)
| JArr (l : list Json)
| JObj (o : gmap jsstring Json).

Inductive exn :=
| UnsupportedScreenSize (x y : option Json)
  (* Error(`${x} x ${y} is not a supported screen size.`) *)
| ScriptsNotArray (gameURL : jsstring)
  (* Error('The scripts parameter is not an array in ' + gameURL) *)
| ScriptNotUrl (i : nat)
  (* Error('Script ' + i + ' is not a url.') *)
| ModesNotArray
  (* Error('The modes parameter is not an array') *)
| NoStartingMode
  (* Error: No starting mode (noted with a star) *)
| TooManyStartingModes
  (* Error: Too many starting modes (noted with a star) *)
| TypeError.
  (* a property read on null, or a string method called on a non-string *)

(** [v.k] for a property [k] that is no built-in of strings or arrays
    ([x], [y] below): reading it from [null] throws, from any value that
    is not an object it gives [undefined]. *)
Definition member (v : Json) (k : jsstring) : result exn (option Json) :=
  match v with
  | JNull => Throw TypeError
  | JObj o => Ok (o !! k)
  | _ => Ok None
  end.

(** [a === v] for a number [a]. *)
Definition strictEqNum (a : float) (v : option Json) : bool :=
  match v with
  | Some (JNum n) => PrimFloat.eqb a n
  | _ => false
  end.

(** [if (v)]: [undefined], [null], [false], [0], [NaN] and [''] are falsy. *)
Definition truthy (v : option Json) : bool :=
  match v with
  | None | Some JNull => false
  | Some (JBool b) => b
  | Some (JNum n) => negb (PrimFloat.eqb n 0 || negb (PrimFloat.eqb n n))
  | Some (JStr s) => negb (bool_decide (s = []))
  | Some (JArr _) | Some (JObj _) => true
  end.

Definition defaultScreenSize : Json :=
  JObj (<[js "x" := JNum 384]> (<[js "y" := JNum 224]> ∅)).

Definition allowedScreenSizes : list (float * float) :=
  [(384, 224); (192, 112); (128, 128); (64, 64)]%float.

(** [(allowed.x === screenSize.x) && (allowed.y === screenSize.y)] *)
Definition screenSizeMatches (allowed : float * float) (screenSize : Json)
  : result exn bool :=
  x ← member screenSize (js "x");
  if strictEqNum allowed.1 x then
    y ← member screenSize (js "y");
    mret (strictEqNum allowed.2 y)
  else mret false.

(** Lines 137-155: default the screen size, then accept it only when it
    is one of the four allowed sizes. Returns [gameJSON] as mutated. *)
Definition checkScreenSize (gameJSON : gmap jsstring Json)
  : result exn (gmap jsstring Json) :=
  let gameJSON :=
    match gameJSON !! js "screenSize" with
    | None => <[js "screenSize" := defaultScreenSize]> gameJSON
    | Some _ => gameJSON
    end in
  let screenSize := default JNull (gameJSON !! js "screenSize") in
  ok ← for_each (λ allowed ok,
                   m ← screenSizeMatches allowed screenSize;
                   mret (if m : bool then true else ok))
                allowedScreenSizes false;
  if ok : bool then Ok gameJSON
  else
    x ← member screenSize (js "x");
    y ← member screenSize (js "y");
    Throw (UnsupportedScreenSize x y).

Inductive FetchKind := FetchJson | FetchText | FetchImage | FetchArrayBuffer.

Record Mode := { name : jsstring; url : jsstring }.

(** What the callback has written so far: [gameSource.scripts],
    [gameSource.modes], and the requests handed to [loadManager.fetch]. *)
Record LoadState := {
  scripts : list jsstring;
  modes : list Mode;
  fetches : list (jsstring * FetchKind)
}.

Definition push_script (u : jsstring) (st : LoadState) : LoadState :=
  {| scripts := scripts st ++ [u]; modes := modes st;
     fetches := fetches st ++ [(u, FetchText)] |}.

Definition push_mode (m : Mode) (st : LoadState) : LoadState :=
  {| scripts := scripts st; modes := modes st ++ [m];
     fetches := fetches st ++ [(url m, FetchText)] |}.

(** [s.replace('*', '')]: the first star is removed. *)
Fixpoint removeFirstStar (s : jsstring) : jsstring :=
  match s with
  | [] => []
  | c :: s' => if c =? 42 then s' else c :: removeFirstStar s'
  end.

(** [s.indexOf('*') !== -1] *)
Definition hasStar (s : jsstring) : bool := bool_decide (42 ∈ s).

Section callback.

(** [makeURLAbsolute(parentURL, childURL)] resolves against
    [location.href]; the stages below only record its result. *)
Variable makeURLAbsolute : jsstring → jsstring → jsstring.
Variable gameURL : jsstring.

(** Lines 158-179. *)
Definition loadScripts (gameJSON : gmap jsstring Json) (st : LoadState)
  : result exn LoadState :=
  if truthy (gameJSON !! js "scripts") then
    match gameJSON !! js "scripts" with
    | Some (JArr l) =>
        for_each (λ '(i, script) st,
                    match script with
                    | JStr s => Ok (push_script (makeURLAbsolute gameURL s) st)
                    | _ => Throw (ScriptNotUrl i)
                    end)
                 (imap (λ i script, (i, script)) l) st
    | _ => Throw (ScriptsNotArray gameURL)
    end
  else Ok st.

(** One turn of the loop of lines 189-203; the state carries
    [numStartModes]. *)
Definition modeStep (mode : Json) (acc : Z * LoadState)
  : result exn (Z * LoadState) :=
  let '(numStartModes, st) := acc in
  match mode with
  | JStr s =>
      let modeURL := makeURLAbsolute gameURL (removeFirstStar s ++ js ".pyxl") in
      let numStartModes :=
        if hasStar s then numStartModes + 1 else numStartModes in
      Ok (numStartModes, push_mode {| name := s; url := modeURL |} st)
  | _ => Throw TypeError
  end.

(** Lines 182-210. *)
Definition loadModes (gameJSON : gmap jsstring Json) (st : LoadState)
  : result exn LoadState :=
  match gameJSON !! js "modes" with
  | Some (JArr l) =>
      '(numStartModes, st) ← for_each modeStep l (0, st);
      if numStartModes =? 0 then Throw NoStartingMode
      else if 1 <? numStartModes then Throw TooManyStartingModes
      else Ok st
  | _ => Throw ModesNotArray
  end.

(** The number of mode names that carry the star, and the record the
    loop pushes for a name. *)
Definition startModes (names : list jsstring) : nat :=
  length (filter (λ s, hasStar s = true) names).

Definition modeOf (s : jsstring) : Mode :=
  {| name := s;
     url := makeURLAbsolute gameURL (removeFirstStar s ++ js ".pyxl") |}.

(** The callback up to the end of the modes block (lines 136-210); the
    constants and assets blocks follow it in the source. *)
Definition afterLoadGame (gameJSON : gmap jsstring Json)
  : result exn (gmap jsstring Json * LoadState) :=
  gameJSON ← checkScreenSize gameJSON;
  st ← loadScripts gameJSON {| scripts := []; modes := []; fetches := [] |};
  st ← loadModes gameJSON st;
  mret (gameJSON, st).

End callback.

End Manifest.

(* ===================================================================== *)
(** ** Pixel buffers: [getImageData4Bit], [getImageData4BitAndFlip] *)
(* ===================================================================== *)

Module Image.

(** What [getImageData(image)] hands over: the image size and its pixels
    viewed as 32-bit words [0xAABBGGRR], one per pixel, row by row. *)
Record Image := {
  image_width : nat;
  image_height : nat;
  image_words : list Z
}.

(** A [Uint32Array] with the [width] and [height] the source attaches. *)
Record Uint32Array := {
  data : list Z;
  width : nat;
  height : nat
}.

(** Element read [a[i]] used as a number: [undefined] out of range,
    which every integer operator and every store into a [Uint32Array]
    turns into zero. *)
Definition get (a : list Z) (i : nat) : Z := default 0 (a !! i).

(** Lines 457-458:
    [c = (data[i] >> 4) & 0x0F0F0F0F; data[i] = (c << 4) | c]
    with the store wrapping to an unsigned word. *)
Definition quantize (p : Z) : Z :=
  let c := JS.and (sar p 4) 0x0F0F0F0F in
  ToUint32 (JS.or (shl c 4) c).

Definition getImageData4Bit (image : Image) : Uint32Array :=
  let data := image_words image in
  let N := length data in
  {| data := for_lt 0 N (λ i data, <[i := quantize (get data i)]> data) data;
     width := image_width image;
     height := image_height image |}.

(** Lines 424-439. [flipped] starts as [data.length] zeros; a store
    outside the array is ignored. *)
Definition getImageData4BitAndFlip (image : Image)
  : Uint32Array * Uint32Array :=
  let data := getImageData4Bit image in
  let w := width data in
  let flipped := replicate (length (Image.data data)) 0 in
  let flipped :=
    for_lt 0 (height data) (λ y flipped,
      for_lt 0 w (λ x flipped,
        let i := (x + y * w)%nat in
        let j := ((w - 1 - x) + y * w)%nat in
        <[i := get (Image.data data) j]> flipped) flipped) flipped in
  (data, {| data := flipped; width := w; height := height data |}).

(** One 8-bit channel of a pixel word: [k] is 0 for red up to 3 for
    alpha. *)
Definition channel (k : Z) (p : Z) : Z := Z.land (Z.shiftr p (8 * k)) 255.

(** The bit of a pixel word that quantization copies to bit [n]: bit
    [n mod 4] of the high nibble of the byte that holds [n]. *)
Definition source_bit (n : Z) : Z := 8 * (n / 8) + 4 + n mod 4.

(** The two loops of [getImageData4BitAndFlip] on their own, after [n]
    pixels of row [y] and after [m] rows, reading from [src]. *)
Section flip.

Variable src : list Z.
Variable w : nat.

Definition mirror (x y : nat) : Z := get src ((w - 1 - x) + y * w)%nat.

Definition flipRow (y : nat) (n : nat) (fl : list Z) : list Z :=
  for_lt 0 n (λ x fl, <[(x + y * w)%nat := mirror x y]> fl) fl.

Definition flipRows (m : nat) (fl : list Z) : list Z :=
  for_lt 0 m (λ y fl, flipRow y w fl) fl.

End flip.

End Image.

(* ===================================================================== *)
(** ** Sprite sheets: the image callback of [loadSpritesheet] *)
(* ===================================================================== *)

Module Sprites.

(** Sprites are JavaScript objects that point at each other, so they live
    in a store: a location names an object, an object maps property names
    to values. *)
Abbreviation loc := nat.

Inductive Value :=
| Num (z : Z)
| Bool (b : bool)
| XY (x y : Z)        (* a frozen [{x, y}] record *)
| Hypot (x y : Z)     (* the number [Math.hypot(x, y)] *)
| SheetRef            (* the sprite sheet under construction *)
| Ref (l : loc).      (* another object of the store *)

Abbreviation Obj := (gmap string Value).

Record Store := {
  heap : gmap loc Obj;
  next : loc;             (* the first unused location *)
  lastSpriteID : Z        (* the global counter of that name *)
}.

Inductive exn :=
| AnimationFormError (anim : jsstring)
  (* Error: Animation data for [anim] must have either x and y fields or
     a start field, but not both *)
| AnimationLineError (anim : jsstring)
  (* Error: Animation frames must be in a horizontal or vertical line for
     animation [anim] *)
| AnimationBoundsError (u v : Z) (anim : jsstring)
  (* Error: Index xy([u], [v]) in animation [anim] is out of bounds. *)
| NeverReturns
  (* a loop bound is [Infinity] *)
| TypeError.
  (* a property read or set through something that is not an object, or
     an assignment that strict mode refuses *)

(** State and exceptions together. *)
Definition M (A : Type) : Type := Store → result exn (A * Store).

#[global] Instance M_ret : MRet M := λ A a st, Ok (a, st).
#[global] Instance M_bind : MBind M :=
  λ A B f m st, match m st with
                | Ok (a, st') => f a st'
                | Throw e => Throw e
                end.

(** An exception raised by a step that leaves the store alone. *)
Definition lift {A} (r : result exn A) : M A :=
  λ st, match r with
        | Ok a => Ok (a, st)
        | Throw e => Throw e
        end.

(** [++lastSpriteID] *)
Definition incrementLastSpriteID : M Z :=
  λ st, let n := lastSpriteID st + 1 in
        Ok (n, {| heap := heap st; next := next st; lastSpriteID := n |}).

(** A new object, from a literal or from [Object.assign]. *)
Definition alloc (o : Obj) : M loc :=
  λ st, Ok (next st,
            {| heap := <[next st := o]> (heap st);
               next := S (next st);
               lastSpriteID := lastSpriteID st |}).

(** The current properties of the object at [l]. *)
Definition read (l : loc) : M Obj :=
  λ st, match heap st !! l with
        | Some o => Ok (o, st)
        | None => Throw TypeError
        end.

(** [l.k] when it must be an object. *)
Definition deref (l : loc) (k : string) : M loc :=
  λ st, match heap st !! l with
        | Some o =>
            match o !! k with
            | Some (Ref l') => Ok (l', st)
            | _ => Throw TypeError
            end
        | None => Throw TypeError
        end.

(** [l.k = v] *)
Definition write (l : loc) (k : string) (v : Value) : M unit :=
  λ st, Ok (tt, {| heap := alter (<[k := v]>) l (heap st);
                   next := next st;
                   lastSpriteID := lastSpriteID st |}).

(** [Object.assign(target, source)]: the properties of [source] are
    copied over those of [target]. *)
Definition Object_assign (target source : Obj) : Obj := source ∪ target.

(** The descriptor [json] of a sprite sheet. *)
Record Cell := { cx : option Z; cy : option Z }.

Record AnimJson := {
  anim_x : option Z;
  anim_y : option Z;
  anim_start : option Cell;
  anim_end : option Cell;
  anim_extrapolate : option jsstring
}.

(** The entries of [names] stand in the order in which the [for]-[in]
    loop of line 577 visits them. *)
Record SpriteJson := {
  spriteSize_x : Z;
  spriteSize_y : Z;
  spriteSize_gutter : option Z;
  transpose : bool;
  names : option (list (jsstring * AnimJson))
}.

Definition PP : Value := XY 1 1.
Definition NP : Value := XY (-1) 1.
Definition PN : Value := XY 1 (-1).
Definition NN : Value := XY (-1) (-1).

Section sheet.

Variable json : SpriteJson.

(** [spritesheet._gutter = json.spriteSize.gutter || 0] *)
Definition _gutter : Z := default 0 (spriteSize_gutter json).
Definition strideX : Z := spriteSize_x json + _gutter.
Definition strideY : Z := spriteSize_y json + _gutter.

(** [data[index]] for an index computed in integers. *)
Definition getZ (data : list Z) (index : Z) : Z :=
  if index <? 0 then 0 else Image.get data (Z.to_nat index).

(** Lines 521-531. The [break outerloop] only cuts the scan short, so the
    flag is the disjunction over the whole block of the cell. *)
Definition cellHasAlpha (data : Image.Uint32Array) (x y : Z) : bool :=
  for_ltZ 0 (spriteSize_y json) (λ j hasAlpha,
    let index := (y * strideY + j) * Z.of_nat (Image.width data) + x * strideX in
    for_ltZ 0 (spriteSize_x json) (λ i hasAlpha,
      hasAlpha || (shr (getZ (Image.data data) (index + i)) 24 <? 0xff))
      hasAlpha) false.

(** Lines 534-546: the object literal of a sprite. *)
Definition spriteLiteral (u v : Z) (hasAlpha : bool) (id : Z) : Obj :=
  list_to_map
    [ ("_tileX", Num u);
      ("_tileY", Num v);
      ("_boundingRadius", Hypot (spriteSize_x json) (spriteSize_y json));
      ("_x", Num (u * strideX));
      ("_y", Num (v * strideY));
      ("_hasAlpha", Bool hasAlpha);
      ("spritesheet", SheetRef);
      ("tileIndex", XY u v);
      ("id", Num id);
      ("size", XY (spriteSize_x json) (spriteSize_y json));
      ("scale", PP) ]%string.

(** Lines 548-565: the sprite of tile [(u, v)] and its three flipped
    versions. Returns the location of the unflipped sprite. *)
Definition newSprite (u v : Z) (hasAlpha : bool) : M loc :=
  id ← incrementLastSpriteID;
  sprite ← alloc (spriteLiteral u v hasAlpha id);
  (* sprite.flippedX = Object.assign({flippedX:sprite}, sprite); *)
  source ← read sprite;
  o ← alloc (Object_assign {[ "flippedX"%string := Ref sprite ]} source);
  _ ← write sprite "flippedX" (Ref o);
  (* sprite.flippedX.scale = NP; *)
  t ← deref sprite "flippedX";
  _ ← write t "scale" NP;
  (* sprite.flippedX.lastSpriteID = ++lastSpriteID; *)
  t ← deref sprite "flippedX";
  n ← incrementLastSpriteID;
  _ ← write t "lastSpriteID" (Num n);
  (* sprite.flippedY = Object.assign({flippedY:sprite}, sprite); *)
  source ← read sprite;
  o ← alloc (Object_assign {[ "flippedY"%string := Ref sprite ]} source);
  _ ← write sprite "flippedY" (Ref o);
  (* sprite.flippedY.lastSpriteID = ++lastSpriteID; *)
  t ← deref sprite "flippedY";
  n ← incrementLastSpriteID;
  _ ← write t "lastSpriteID" (Num n);
  (* sprite.flippedY.scale = PN; *)
  t ← deref sprite "flippedY";
  _ ← write t "scale" PN;
  (* sprite.flippedX.flippedY = sprite.flippedY.flippedX
       = Object.assign({}, sprite); *)
  tx ← deref sprite "flippedX";
  ty ← deref sprite "flippedY";
  source ← read sprite;
  o ← alloc (Object_assign ∅ source);
  _ ← write ty "flippedX" (Ref o);
  _ ← write tx "flippedY" (Ref o);
  (* sprite.flippedY.flippedX.scale = NN; *)
  t ← deref sprite "flippedY";
  t ← deref t "flippedX";
  _ ← write t "scale" NN;
  (* sprite.flippedY.flippedX.lastSpriteID = ++lastSpriteID; *)
  t ← deref sprite "flippedY";
  t ← deref t "flippedX";
  n ← incrementLastSpriteID;
  _ ← write t "lastSpriteID" (Num n);
  mret sprite.

(** [Math.floor((imageSize + gutter) / (spriteSize + gutter))]; [None]
    is [Infinity]. A [NaN] or negative quotient leaves the loop it bounds
    without a turn, like the zero that stands for it here. *)
Definition cellCount (imageSize spriteSize : Z) : option Z :=
  if spriteSize + _gutter =? 0 then
    if 0 <? imageSize + _gutter then None else Some 0
  else Some ((imageSize + _gutter) / (spriteSize + _gutter)).

(** Lines 517-566: one column [spritesheet[x]]. *)
Fixpoint newColumn (data : Image.Uint32Array) (x : Z) (ys : list Z)
  : M (list loc) :=
  match ys with
  | [] => mret []
  | y :: ys' =>
      let u := if transpose json then y else x in
      let v := if transpose json then x else y in
      sprite ← newSprite u v (cellHasAlpha data x y);
      column ← newColumn data x ys';
      mret (sprite :: column)
  end.

(** Lines 514-569: the columns [spritesheet[0]], [spritesheet[1]], ... *)
Fixpoint newColumns (data : Image.Uint32Array) (xs ys : list Z)
  : M (list (list loc)) :=
  match xs with
  | [] => mret []
  | x :: xs' =>
      column ← newColumn data x ys;
      columns ← newColumns data xs' ys;
      mret (column :: columns)
  end.

(** Lines 509-569. *)
Definition newGrid (data : Image.Uint32Array) : M (list (list loc)) :=
  let rows := cellCount (Z.of_nat (Image.height data)) (spriteSize_y json) in
  let cols := cellCount (Z.of_nat (Image.width data)) (spriteSize_x json) in
  let '(rows, cols) := if transpose json then (cols, rows) else (rows, cols) in
  match cols with
  | None => lift (Throw NeverReturns)
  | Some cols =>
      if cols <=? 0 then mret []
      else match rows with
           | None => lift (Throw NeverReturns)
           | Some rows => newColumns data (seqZ 0 cols) (seqZ 0 rows)
           end
  end.

(** An animation after lines 581-596: both ends known. *)
Record Range := {
  range_start : Cell;
  range_end : Cell;
  range_extrapolate : option jsstring
}.

(** Lines 581-596: the form check, the defaults, the line check. *)
Definition animRange (anim : jsstring) (data : AnimJson) : result exn Range :=
  if (bool_decide (anim_start data ≠ None) && bool_decide (anim_x data ≠ None))
     || (bool_decide (anim_start data = None) && bool_decide (anim_x data = None))
  then Throw (AnimationFormError anim)
  else
    (* if (data.x !== undefined) data = {start: data, extrapolate: 'clamp'} *)
    let '(start, end_, extrapolate) :=
      match anim_x data with
      | Some _ => ({| cx := anim_x data; cy := anim_y data |},
                   None, Some (js "clamp"))
      | None => (default {| cx := None; cy := None |} (anim_start data),
                 anim_end data, anim_extrapolate data)
      end in
    (* if (data.end === undefined) data.end = Object.assign({}, data.start) *)
    let end_ := default start end_ in
    let end_ :=
      {| cx := match cx end_ with None => cx start | Some x => Some x end;
         cy := match cy end_ with None => cy start | Some y => Some y end |} in
    if bool_decide (cx start ≠ cx end_) && bool_decide (cy start ≠ cy end_)
    then Throw (AnimationLineError anim)
    else Ok {| range_start := start; range_end := end_;
               range_extrapolate := extrapolate |}.

(** The values a loop [for (let i = lo; i <= hi; ++i)] takes; a bound
    that is [undefined] fails the first test. *)
Definition inclusive (lo hi : option Z) : list Z :=
  match lo, hi with
  | Some lo, Some hi => seqZ lo (hi - lo + 1)
  | _, _ => []
  end.

Definition lookupZ {A} (l : list A) (i : Z) : option A :=
  if i <? 0 then None else l !! Z.to_nat i.

(** An array of sprites of the sheet, a column of the grid or the frames
    of an animation: its elements, [None] for [undefined], and its
    [extrapolate] property, which a column does not have. *)
Record SpriteArray := {
  frames : list (option loc);
  extrapolate : option jsstring
}.

(** A property of the sheet that is no element of the array. *)
Inductive Property :=
| Argument (what : string)
  (* [name], [json.url], [json] or [jsonURL], as [loadSpritesheet] was
     given it *)
| Null
| Scalar (v : Value)
| Pixels (data : Image.Uint32Array)
| Animation (a : SpriteArray).

(** The sprite sheet of line 468: an array with further properties. Its
    elements are arrays of sprites. [prototype] is [None] while the
    prototype is [Array.prototype], which holds nothing that the callback
    reads through the sheet, and is the array that an entry named
    [__proto__] has put in its place. *)
Record SheetObject := {
  arrayLength : Z;
  elements : gmap Z SpriteArray;
  properties : gmap jsstring Property;
  prototype : option SpriteArray
}.

(** The array index that a property name stands for: the decimal digits
    of an integer below [2^32 - 1], without a leading zero. *)
Definition arrayIndex (name : jsstring) : option Z :=
  let digit c := (48 <=? c) && (c <=? 57) in
  let value := foldl (λ n c, 10 * n + (c - 48)) 0 name in
  match name with
  | [] => None
  | c :: rest =>
      if forallb digit name && (negb (c =? 48) || bool_decide (rest = []))
         && (value <? 2 ^ 32 - 1)
      then Some value
      else None
  end.

(** Where the property [spritesheet[anim]] lies: it is the length of the
    array, the accessor [__proto__] that every object inherits, an
    element of the array, or a property of its own. *)
Inductive Place :=
| AtLength
| AtPrototype
| AtIndex (i : Z)
| AtName.

Definition place (anim : jsstring) : Place :=
  if bool_decide (anim = js "length") then AtLength
  else if bool_decide (anim = js "__proto__") then AtPrototype
  else match arrayIndex anim with
       | Some i => AtIndex i
       | None => AtName
       end.

(** What a read of [spritesheet[i]] gives, for an index [i]. *)
Inductive Read :=
| GotArray (a : SpriteArray)
| GotSprite (l : loc)
| GotUndefined.

(** [spritesheet[i]]: the element of the array, else the element that
    the sheet inherits from an animation that is its prototype. *)
Definition element (sheet : SheetObject) (i : Z) : Read :=
  match elements sheet !! i with
  | Some a => GotArray a
  | None =>
      match prototype sheet with
      | Some inherited =>
          match lookupZ (frames inherited) i with
          | Some (Some l) => GotSprite l
          | _ => GotUndefined
          end
      | None => GotUndefined
      end
  end.

(** Line 598: [spritesheet[anim] = []], in strict mode. An assignment to
    [length] empties the array, [ToUint32([])] being 0; one to
    [__proto__] makes the new array the prototype of the sheet; one to
    an index at or beyond the length extends the array. The assignment
    is refused when the sheet has no property of that name and inherits
    one from an animation that is its prototype, which is frozen by
    then: an element, or [extrapolate]. *)
Definition assign (anim : jsstring) (sheet : SheetObject)
  : result exn SheetObject :=
  let new := {| frames := []; extrapolate := None |} in
  match place anim with
  | AtLength =>
      Ok {| arrayLength := 0; elements := ∅;
            properties := properties sheet; prototype := prototype sheet |}
  | AtPrototype =>
      Ok {| arrayLength := arrayLength sheet; elements := elements sheet;
            properties := properties sheet; prototype := Some new |}
  | AtIndex i =>
      if bool_decide (elements sheet !! i = None)
         && match prototype sheet with
            | Some inherited => i <? Z.of_nat (length (frames inherited))
            | None => false
            end
      then Throw TypeError
      else Ok {| arrayLength := Z.max (arrayLength sheet) (i + 1);
                 elements := <[i := new]> (elements sheet);
                 properties := properties sheet;
                 prototype := prototype sheet |}
  | AtName =>
      if bool_decide (properties sheet !! anim = None)
         && bool_decide (anim = js "extrapolate")
         && match prototype sheet with
            | Some inherited => bool_decide (extrapolate inherited ≠ None)
            | None => false
            end
      then Throw TypeError
      else Ok {| arrayLength := arrayLength sheet;
                 elements := elements sheet;
                 properties := <[anim := Animation new]> (properties sheet);
                 prototype := prototype sheet |}
  end.

(** A change [f] of the array [spritesheet[anim]] in place, for the
    assignment of line 599 and the [push] of line 608. After line 598
    the property holds the new array, unless it is the length of the
    sheet: a number takes no property and has no [push]. *)
Definition update (anim : jsstring) (f : SpriteArray → SpriteArray)
    (sheet : SheetObject) : result exn SheetObject :=
  match place anim with
  | AtLength => Throw TypeError
  | AtPrototype =>
      match prototype sheet with
      | Some a =>
          Ok {| arrayLength := arrayLength sheet; elements := elements sheet;
                properties := properties sheet; prototype := Some (f a) |}
      | None => Throw TypeError
      end
  | AtIndex i =>
      match elements sheet !! i with
      | Some a =>
          Ok {| arrayLength := arrayLength sheet;
                elements := <[i := f a]> (elements sheet);
                properties := properties sheet;
                prototype := prototype sheet |}
      | None => Throw TypeError
      end
  | AtName =>
      match properties sheet !! anim with
      | Some (Animation a) =>
          Ok {| arrayLength := arrayLength sheet;
                elements := elements sheet;
                properties := <[anim := Animation (f a)]> (properties sheet);
                prototype := prototype sheet |}
      | _ => Throw TypeError
      end
  end.

(** Lines 603-608: one turn of the inner loop, pushing
    [spritesheet[u][v]]. The test of line 604 reads the length of the
    sheet and of [spritesheet[0]] as they are in that turn; a sprite
    inherited in the place of [spritesheet[0]] has no length, and no
    number is at or above [undefined]. The element pushed is read
    through [spritesheet[u]]: it is [undefined] beyond the end of an
    array and in a sprite. *)
Definition pushFrame (anim : jsstring) (y x : Z) (sheet : SheetObject)
  : result exn SheetObject :=
  let u := if transpose json then y else x in
  let v := if transpose json then x else y in
  if (u <? 0) || (arrayLength sheet <=? u) || (v <? 0)
  then Throw (AnimationBoundsError u v anim)
  else
    beyond ← (match element sheet 0 with
               | GotArray first => Ok (Z.of_nat (length (frames first)) <=? v)
               | GotSprite _ => Ok false
               | GotUndefined => Throw TypeError
               end : result exn bool);
    if (beyond : bool) then Throw (AnimationBoundsError u v anim)
    else
      sprite ← (match element sheet u with
                 | GotArray column => Ok (mjoin (lookupZ (frames column) v))
                 | GotSprite _ => Ok None
                 | GotUndefined => Throw TypeError
                 end : result exn (option loc));
      update anim (λ a, {| frames := frames a ++ [sprite];
                           extrapolate := extrapolate a |}) sheet.

(** Lines 578-612 for one entry of [json.names]. The animation is
    stored in the sheet before its frames are read from the sheet. *)
Definition loadAnimation (anim : jsstring) (data : AnimJson)
    (sheet : SheetObject) : result exn SheetObject :=
  range ← animRange anim data;
  let s := range_start range in
  let e := range_end range in
  let policy :=
    match range_extrapolate range with
    | None | Some [] => js "loop"
    | Some policy => policy
    end in
  (* spritesheet[anim] = []; *)
  sheet ← assign anim sheet;
  (* spritesheet[anim].extrapolate = data.extrapolate || 'loop'; *)
  sheet ← update anim (λ a, {| frames := frames a;
                               extrapolate := Some policy |}) sheet;
  for_each (λ y sheet,
              for_each (pushFrame anim y) (inclusive (cx s) (cx e)) sheet)
           (inclusive (cy s) (cy e)) sheet.

(** Lines 577-613. *)
Definition loadAnimations (names : list (jsstring * AnimJson))
    (sheet : SheetObject) : result exn SheetObject :=
  for_each (λ '(anim, data) sheet, loadAnimation anim data sheet)
           names sheet.

(** A column of the grid as an array of the sheet. *)
Definition columnArray (column : list loc) : SpriteArray :=
  {| frames := Some <$> column; extrapolate := None |}.

(** Lines 468-477, 502-506 and 514-569: the sheet when the grid is
    built. *)
Definition sheetObject (dataPair : Image.Uint32Array * Image.Uint32Array)
    (grid : list (list loc)) : SheetObject :=
  let data := dataPair.1 in
  {| arrayLength := Z.of_nat (length grid);
     elements := map_seqZ 0 (columnArray <$> grid);
     properties :=
       list_to_map
         [ (js "_name", Argument "name");
           (js "_uint32data", Null);
           (js "_uint32dataFlippedX", Null);
           (js "_url", Argument "json.url");
           (js "_gutter", Scalar (Num _gutter));
           (js "_json", Argument "json");
           (js "_jsonURL", Argument "jsonURL");
           (js "spriteSize",
            Scalar (XY (spriteSize_x json) (spriteSize_y json)));
           (js "_uint32Data", Pixels data);
           (js "_uint32DataFlippedX", Pixels dataPair.2);
           (js "size",
            Scalar (XY (Z.of_nat (Image.width data))
                       (Z.of_nat (Image.height data)))) ];
     prototype := None |}.

(** What the callback leaves: the columns as lines 514-569 built them,
    and the sheet as line 617 freezes it. *)
Record Sheet := {
  grid : list (list loc);
  object : SheetObject
}.

(** Lines 489-620, from the pixel buffers to the frozen sheet. *)
Definition loadSpritesheet
    (dataPair : Image.Uint32Array * Image.Uint32Array) : M Sheet :=
  let data := dataPair.1 in
  grid ← newGrid data;
  object ← lift (loadAnimations (default [] (names json))
                   (sheetObject dataPair grid));
  mret {| grid := grid; object := object |}.

End sheet.

(** Vocabulary of the properties: the property [k] of the object at [l],
    and the four objects that one run of [newSprite] leaves at [l],
    [l + 1], [l + 2] and [l + 3] when it starts from the literal [o] with
    the counter at [id]. *)
Definition prop (st : Store) (l : loc) (k : string) : option Value :=
  heap st !! l ≫= (.!! k).

Definition builtSprite (l : loc) (o : Obj) : Obj :=
  <["flippedY" := Ref (S (S l))]> (<["flippedX" := Ref (S l)]> o).

Definition builtFlippedX (l : loc) (id : Z) (o : Obj) : Obj :=
  <["flippedY" := Ref (S (S (S l)))]>
    (<["lastSpriteID" := Num (id + 1)]>
       (<["scale" := NP]>
          (Object_assign {[ "flippedX"%string := Ref l ]} o))).

Definition builtFlippedY (l : loc) (id : Z) (o : Obj) : Obj :=
  <["flippedX" := Ref (S (S (S l)))]>
    (<["scale" := PN]>
       (<["lastSpriteID" := Num (id + 1 + 1)]>
          (Object_assign {[ "flippedY"%string := Ref l ]}
             (<["flippedX" := Ref (S l)]> o)))).

Definition builtFlippedXY (l : loc) (id : Z) (o : Obj) : Obj :=
  <["lastSpriteID" := Num (id + 1 + 1 + 1)]>
    (<["scale" := NN]> (Object_assign ∅ (builtSprite l o))).

Definition afterNewSprite (st : Store) (o : Obj) : Store :=
  let l := next st in
  let id := lastSpriteID st + 1 in
  {| heap := <[S (S (S l)) := builtFlippedXY l id o]>
               (<[S (S l) := builtFlippedY l id o]>
                  (<[S l := builtFlippedX l id o]>
                     (<[l := builtSprite l o]> (heap st))));
     next := S (S (S (S l)));
     lastSpriteID := id + 1 + 1 + 1 |}.

(** The store holds at [l] a sprite of tile [(u, v)] as [newSprite]
    built it. *)
Definition spriteAt (json : SpriteJson) (st : Store) (l : loc) (u v : Z)
  : Prop :=
  ∃ hasAlpha id,
    let o := spriteLiteral json u v hasAlpha id in
    (l + 3 < next st)%nat
    ∧ heap st !! l = Some (builtSprite l o)
    ∧ heap st !! S l = Some (builtFlippedX l id o)
    ∧ heap st !! S (S l) = Some (builtFlippedY l id o)
    ∧ heap st !! S (S (S l)) = Some (builtFlippedXY l id o).

(** The store [st'] extends [st]: what [st] holds is still there. *)
Definition extends (st st' : Store) : Prop :=
  (next st ≤ next st')%nat
  ∧ ∀ l, (l < next st)%nat → heap st' !! l = heap st !! l.

(** Every cell [spritesheet[x][y]] holds the sprite of its tile. *)
Definition gridAt (json : SpriteJson) (st : Store) (grid : list (list loc))
  : Prop :=
  ∀ (x y : nat) column l,
    grid !! x = Some column → column !! y = Some l →
    let u := if transpose json then Z.of_nat y else Z.of_nat x in
    let v := if transpose json then Z.of_nat x else Z.of_nat y in
    spriteAt json st l u v.

(** The cells an animation from [s] to [e] visits, in the order of the
    two loops of lines 601-602, the tile a cell names, the bounds test
    of line 604 and the element [spritesheet[u][v]]. *)
Definition cells (ys xs : list Z) : list (Z * Z) :=
  y ← ys; x ← xs; [(x, y)].

Definition walk (s e : Cell) : list (Z * Z) :=
  cells (inclusive (cy s) (cy e)) (inclusive (cx s) (cx e)).

Definition tileOf (json : SpriteJson) (c : Z * Z) : Z * Z :=
  if transpose json then (c.2, c.1) else c.

Definition inGrid (json : SpriteJson) (grid : list (list loc)) (c : Z * Z)
  : Prop :=
  let '(u, v) := tileOf json c in
  0 ≤ u < Z.of_nat (length grid)
  ∧ 0 ≤ v < Z.of_nat (length (default [] (grid !! 0%nat))).

Definition frameAt (json : SpriteJson) (grid : list (list loc)) (c : Z * Z)
  : option loc :=
  let '(u, v) := tileOf json c in
  column ← lookupZ grid u; lookupZ column v.

(** The claim in its own words, to be compared with the source: an
    entry has either the single-cell form ([x] present, [start] absent),
    whose start and end are that cell, or the range form ([start]
    present, [x] absent), whose end defaults to the start, coordinate by
    coordinate; any other entry has no ends. The third component is the
    extrapolation policy: [clamp] for a single cell, else the one given,
    else [loop]. *)
Definition specEnds (data : AnimJson) : option (Cell * Cell * jsstring) :=
  match anim_x data, anim_start data with
  | Some x, None =>
      let c := {| cx := Some x; cy := anim_y data |} in
      Some (c, c, js "clamp")
  | None, Some s =>
      let e :=
        match anim_end data with
        | None => s
        | Some e =>
            {| cx := if cx e is None then cx s else cx e;
               cy := if cy e is None then cy s else cy e |}
        end in
      Some (s, e,
            match anim_extrapolate data with
            | None | Some [] => js "loop"
            | Some policy => policy
            end)
  | _, _ => None
  end.

(** Start and end differ in both axes. *)
Definition diagonal (s e : Cell) : Prop := cx s ≠ cx e ∧ cy s ≠ cy e.

(** The sheet holds the columns of [grid] at its indices, as the loops of
    lines 514-569 left them, and its prototype is the one it was made
    with. *)
Definition holdsGrid (grid : list (list loc)) (sheet : SheetObject) : Prop :=
  arrayLength sheet = Z.of_nat (length grid)
  ∧ elements sheet = map_seqZ 0 (columnArray <$> grid)
  ∧ prototype sheet = None.

(** The sheet with the array [a] for its property [anim]. *)
Definition withAnimation (anim : jsstring) (a : SpriteArray)
    (sheet : SheetObject) : SheetObject :=
  {| arrayLength := arrayLength sheet;
     elements := elements sheet;
     properties := <[anim := Animation a]> (properties sheet);
     prototype := prototype sheet |}.

(** [spritesheet[anim]] when it is an array. *)
Definition animationOf (anim : jsstring) (sheet : SheetObject)
  : option SpriteArray :=
  match place anim with
  | AtLength => None
  | AtPrototype => prototype sheet
  | AtIndex i => elements sheet !! i
  | AtName =>
      match properties sheet !! anim with
      | Some (Animation a) => Some a
      | _ => None
      end
  end.

(** Inputs of the examples: an opaque white pixel as a one-sprite sheet;
    three pixels in a row as a sheet of three one-pixel sprites, without
    and with the animation [run] from (0,0) to (2,0), and that sheet when
    its grid is built; an image of three by two pixels, the second of
    the first row half transparent, as a transposed sheet of one-pixel
    sprites. *)
Definition opaquePixel : Image.Image :=
  {| Image.image_width := 1; Image.image_height := 1;
     Image.image_words := [0xFFFFFFFF] |}.

Definition onePixelSheet : SpriteJson :=
  {| spriteSize_x := 1; spriteSize_y := 1; spriteSize_gutter := None;
     transpose := false; names := None |}.

Definition emptyStore : Store :=
  {| heap := ∅; next := 0; lastSpriteID := 100 |}.

Definition onePixelLoaded : Sheet :=
  match loadSpritesheet onePixelSheet
          (Image.getImageData4BitAndFlip opaquePixel) emptyStore with
  | Ok (sheet, _) => sheet
  | Throw _ =>
      {| grid := [];
         object := sheetObject onePixelSheet
                     (Image.getImageData4BitAndFlip opaquePixel) [] |}
  end.

Definition onePixelStore : Store :=
  match loadSpritesheet onePixelSheet
          (Image.getImageData4BitAndFlip opaquePixel) emptyStore with
  | Ok (_, st) => st
  | Throw _ => emptyStore
  end.

Definition threePixels : Image.Image :=
  {| Image.image_width := 3; Image.image_height := 1;
     Image.image_words := [0xFFFFFFFF; 0xFF0000FF; 0x80FFFFFF] |}.

Definition runAnimation : AnimJson :=
  {| anim_x := None; anim_y := None;
     anim_start := Some {| cx := Some 0; cy := Some 0 |};
     anim_end := Some {| cx := Some 2; cy := Some 0 |};
     anim_extrapolate := None |}.

Definition threeByOne : SpriteJson :=
  {| spriteSize_x := 1; spriteSize_y := 1; spriteSize_gutter := None;
     transpose := false; names := None |}.

Definition threeByOneNamed : SpriteJson :=
  {| spriteSize_x := 1; spriteSize_y := 1; spriteSize_gutter := None;
     transpose := false; names := Some [(js "run", runAnimation)] |}.

Definition threePixelsLoaded : Sheet :=
  match loadSpritesheet threeByOneNamed
          (Image.getImageData4BitAndFlip threePixels) emptyStore with
  | Ok (sheet, _) => sheet
  | Throw _ => onePixelLoaded
  end.

Definition threePixelsStore : Store :=
  match loadSpritesheet threeByOneNamed
          (Image.getImageData4BitAndFlip threePixels) emptyStore with
  | Ok (_, st) => st
  | Throw _ => emptyStore
  end.

Definition threePixelsSheet : SheetObject :=
  sheetObject threeByOne (Image.getImageData4BitAndFlip threePixels)
    [[0]; [4]; [8]]%nat.

Definition backwardsAnimation : AnimJson :=
  {| anim_x := None; anim_y := None;
     anim_start := Some {| cx := Some 2; cy := Some 0 |};
     anim_end := Some {| cx := Some 0; cy := Some 0 |};
     anim_extrapolate := None |}.

Definition sixPixels : Image.Image :=
  {| Image.image_width := 3; Image.image_height := 2;
     Image.image_words := [0xFFFFFFFF; 0x80FFFFFF; 0xFFFFFFFF;
                           0xFFFFFFFF; 0xFFFFFFFF; 0xFFFFFFFF] |}.

Definition sixPixelsData : Image.Uint32Array :=
  (Image.getImageData4BitAndFlip sixPixels).1.

Definition transposedSheet : SpriteJson :=
  {| spriteSize_x := 1; spriteSize_y := 1; spriteSize_gutter := None;
     transpose := true; names := None |}.

Definition transposedGrid : list (list loc) :=
  [[0; 4; 8]; [12; 16; 20]]%nat.

Definition transposedStore : Store :=
  match newGrid transposedSheet sixPixelsData emptyStore with
  | Ok (_, st) => st
  | Throw _ => emptyStore
  end.

End Sprites.

(* ===================================================================== *)
(** ** Tile maps: the layer decoder of [loadMap] *)
(* ===================================================================== *)

Module TileMap.

Import Sprites.

Inductive exn :=
| TypeError.
  (* an index or property read through [undefined] *)

Section layers.

(** The store holding the sprites of the sheet, the sheet's columns, the
    [columns] attribute of the tile set, [json.flipY === true], and
    [map.size]. *)
Variable heap : gmap loc Obj.
Variable spritesheet : list (list loc).
Variable columns : Z.
Variable flipY : bool.
Variable size_x size_y : nat.

(** Lines 763-765. *)
Definition tileFlipX (gid : Z) : bool := negb (JS.and gid 0x80000000 =? 0).
Definition tileFlipY (gid : Z) : bool := negb (JS.and gid 0x40000000 =? 0).
Definition tmxIndex (gid : Z) : Z := JS.and gid 0x0fffffff - 1.

(** [sprite.flippedX], [sprite.flippedY]: a sprite, or [undefined] when
    the property is absent; reading through [undefined] throws. *)
Definition member (sprite : option loc) (k : string)
  : result exn (option loc) :=
  match sprite with
  | None => Throw TypeError
  | Some l =>
      match heap !! l ≫= (.!! k) with
      | Some (Ref l') => Ok (Some l')
      | _ => Ok None
      end
  end.

(** Lines 760-780: the value stored for one grid id; [None] is
    [undefined]. With [columns] zero the column index is [NaN]. *)
Definition tileSprite (gid : Z) : result exn (option loc) :=
  if 0 <=? tmxIndex gid then
    if columns =? 0 then Throw TypeError
    else
      let sx := Z.rem (tmxIndex gid) columns in
      let sy := tmxIndex gid / columns in
      match lookupZ spritesheet sx with
      | None => Throw TypeError
      | Some column =>
          let sprite := lookupZ column sy in
          sprite ← (if tileFlipX gid then member sprite "flippedX"
                    else Ok sprite);
          sprite ← (if tileFlipY gid then member sprite "flippedY"
                    else Ok sprite);
          mret sprite
      end
  else Ok None.

(** A layer: [size_x] columns of [size_y] cells. *)
Abbreviation Layer := (list (list (option loc))).

(** Line 754: every column a fresh array of [size_y] holes. *)
Definition emptyLayer : Layer := replicate size_x (replicate size_y None).

(** Lines 759-781: one turn of the inner loop; the state is the running
    index [i] and the layer. A grid id that is missing or not a number
    acts as zero under [&]. *)
Definition cellStep (data : list Z) (y x : nat) (s : nat * Layer)
  : result exn (nat * Layer) :=
  let '(i, layer) := s in
  let gid := Image.get data i in
  sprite ← tileSprite gid;
  let row := if flipY then (size_y - 1 - y)%nat else y in
  mret (S i, alter (<[row := sprite]>) x layer).

(** Lines 750-782 for one layer. *)
Definition decodeLayer (data : list Z) : result exn Layer :=
  s ← for_each (λ y s, for_each (cellStep data y) (seq 0 size_x) s)
               (seq 0 size_y) (0%nat, emptyLayer);
  mret s.2.

End layers.

End TileMap.

(* ===================================================================== *)
(** ** The literal parser: [regexIndexOf], [_parse] *)
(* ===================================================================== *)

Module Parser.

Inductive Value :=
| VUndefined
| VBool (b : bool)
| VNumber (n : float)
| VString (s : jsstring)
| VArray (a : list Value)
| VTable (t : gmap jsstring Value)
| VFunction.

Inductive exn :=
| HitTheEnd (source : jsstring).
  (* Error('hit the end of ' + source) *)

(** The number-valued properties of the built-in [Math] object. Its other
    properties are functions; none of them is named [pi]. *)
Definition Math : gmap string float :=
  list_to_map
    [ ("E", 0x1.5bf0a8b145769p+1);
      ("LN10", 0x1.26bb1bbb55516p+1);
      ("LN2", 0x1.62e42fefa39efp-1);
      ("LOG10E", 0x1.bcb7b1526e50ep-2);
      ("LOG2E", 0x1.71547652b82fep+0);
      ("PI", 0x1.921fb54442d18p+1);
      ("SQRT1_2", 0x1.6a09e667f3bcdp-1);
      ("SQRT2", 0x1.6a09e667f3bcdp+0) ]%string%float.

(** [Math.k] as a value, and [-Math.k], [Math.k] inside arithmetic, where
    [undefined] becomes [NaN]. *)
Definition Math_value (k : string) : Value :=
  match Math !! k with
  | Some n => VNumber n
  | None => VUndefined
  end.

Definition Math_number (k : string) : float := default nan (Math !! k).

Definition pi_glyph : Z := 960.
Definition empty_set_glyph : Z := 8709.
Definition infinity_glyph : Z := 8734.
Definition degree_glyph : Z := 176.

(** [String.prototype.toLowerCase] on Basic Latin, on Latin-1 and on the
    capital [Π] (code unit 928), the one letter of another script whose
    lower case the [switch] of lines 1012-1057 names. The capital letters
    of the other scripts, which JavaScript lowers as well, are left as
    they are: the properties that depend on the case of a token speak of
    the code units that [ParserVocab.plain] lists. *)
Definition toLowerCase (s : jsstring) : jsstring :=
  (λ c, if (65 <=? c) && (c <=? 90) then c + 32
        else if (192 <=? c) && (c <=? 222) && negb (c =? 215) then c + 32
        else if c =? 928 then pi_glyph
        else c) <$> s.

(** The number of leading code units of [l] that satisfy [p]. *)
Fixpoint span (p : Z → bool) (l : jsstring) : nat :=
  match l with
  | c :: l' => if p c then S (span p l') else 0%nat
  | [] => 0%nat
  end.

Definition oneOf (set : string) (c : Z) : bool := bool_decide (c ∈ js set).

(** [while (set.indexOf(source[i]) !== -1) { ++i; }] *)
Definition skip (set : jsstring) (source : jsstring) (i : nat) : nat :=
  (i + span (λ c, bool_decide (c ∈ set)) (drop i source))%nat.

(** [while (i < source.length && source[i] !== closer) { ++i; }] *)
Definition skipTo (closer : Z) (source : jsstring) (i : nat) : nat :=
  (i + span (λ c, negb (c =? closer)%Z) (drop i source))%nat.

(** Line 941: the loop that looks for the closing quote (code unit 34),
    stepping over a quote whose predecessor is a backslash (code unit 92):
    the number of turns it takes over [l] when the code unit before [l]
    is [prev]. *)
Fixpoint stringLength (prev : Z) (l : jsstring) : nat :=
  match l with
  | c :: l' =>
      if negb (c =? 34) || (prev =? 92) then S (stringLength c l') else 0%nat
  | [] => 0%nat
  end.

(** [regexIndexOf(text, re, i)] for a regular expression that is one
    character class: the first index from [i] on whose code unit is in
    the class, or [text.length]. *)
Definition regexIndexOf (text : jsstring) (class : Z → bool) (i : nat) : nat :=
  match list_find (λ c, class c = true) (drop i text) with
  | Some (indexInSuffix, _) => (indexInSuffix + i)%nat
  | None => length text
  end.

Definition blank : jsstring := [32; 9; 10].              (* ' \t\n' *)
Definition commaBlank : jsstring := [44; 32; 9; 10].     (* ', \t\n' *)
Definition colonBlank : jsstring := [58; 32; 9; 10].     (* ': \t\n' *)

(** The character classes of lines 983 and 1010: colon, space, newline,
    tab, quote; and comma, colon, the four brackets, space, newline, tab,
    quote. *)
Definition keySeparator (c : Z) : bool :=
  bool_decide (c ∈ [58; 32; 10; 9; 34]).
Definition atomSeparator (c : Z) : bool :=
  bool_decide (c ∈ [44; 58; 91; 123; 125; 93; 32; 10; 9; 34]).

Definition ellipsis : jsstring := [8230].

(** Line 999: [t[key] = value]. A table is known by its own properties,
    and the key [__proto__] names none: the assignment runs the setter
    that every object inherits, which gives [t] another prototype or does
    nothing, and adds no property. *)
Definition setMember (key : jsstring) (value : Value)
    (t : gmap jsstring Value) : gmap jsstring Value :=
  if bool_decide (key = js "__proto__") then t else <[key := value]> t.

(** [v === '…'] *)
Definition isEllipsis (v : Value) : bool :=
  match v with
  | VString s => bool_decide (s = ellipsis)
  | _ => false
  end.

(** The glyphs of lines 1022-1057 with numerator and denominator. *)
Definition fractions : list (Z * (Z * Z)) :=
  [ (188, (1, 4)); (189, (1, 2)); (190, (3, 4)); (8531, (1, 3));
    (8532, (2, 3)); (8533, (1, 5)); (8534, (2, 5)); (8535, (3, 5));
    (8536, (4, 5)); (8537, (1, 6)); (8538, (5, 6)); (8528, (1, 7));
    (8539, (1, 8)); (8540, (3, 8)); (8541, (5, 8)); (8542, (7, 8));
    (8529, (1, 9)); (8530, (1, 10)) ].

(** Lines 1012-1057: the [switch] on the token; [None] is its [default]
    branch. *)
Definition namedConstant (token : jsstring) : option Value :=
  if bool_decide (token = js "true") then Some (VBool true)
  else if bool_decide (token = js "false") then Some (VBool false)
  else if bool_decide (token ∈ [js "nil"; [empty_set_glyph]; js "builtin"])
  then Some VUndefined
  else if bool_decide (token = js "function") then Some VFunction
  else if bool_decide (token ∈ [js "infinity"; [infinity_glyph];
                                js "+infinity"; [43; infinity_glyph]])
  then Some (VNumber infinity)
  else if bool_decide (token ∈ [js "-infinity"; [45; infinity_glyph]])
  then Some (VNumber neg_infinity)
  else if bool_decide (token = js "nan") then Some (VNumber nan)
  else if bool_decide (token = [pi_glyph]) then Some (Math_value "pi")
  else if bool_decide (token = [45; pi_glyph])
  then Some (VNumber (- Math_number "pi"))
  else
    match token with
    | [c] =>
        (λ q, VNumber (Number_of_Z q.1 / Number_of_Z q.2)) <$>
          (list_to_map fractions : gmap Z _) !! c
    | [45; c] =>
        (λ q, VNumber (- Number_of_Z q.1 / Number_of_Z q.2)) <$>
          (list_to_map fractions : gmap Z _) !! c
    | _ => None
    end.

Section parse.

(** The built-in [parseFloat]. *)
Variable parseFloat : jsstring → float.

(** Lines 1009-1066. *)
Definition parseAtom (source : jsstring) (i : nat) : Value * nat :=
  let end_ := regexIndexOf source atomSeparator i in
  let token := toLowerCase (substring i end_ source) in
  let result :=
    match namedConstant token with
    | Some v => v
    | None =>
        if bool_decide (js "deg" `suffix_of` token)
           || bool_decide ([degree_glyph] `suffix_of` token)
        then VNumber (parseFloat token * Math_number "PI" / 180)
        else if bool_decide (js "%" `suffix_of` token)
        then VNumber (parseFloat token / 100)
        else VNumber (parseFloat token)
    end in
  (result, S end_).

(** [_parse(source, i)] with its two inner loops. Every call and every
    turn of a loop takes one unit of [fuel]; the outer [None] says the
    fuel ran out. *)
Fixpoint _parse (fuel : nat) (source : jsstring) (i : nat)
  : option (result exn (Value * nat)) :=
  match fuel with
  | O => None
  | S fuel =>
      (* the turns of the outer loop that meet ' ', '\t' or '\n' *)
      let i := skip blank source i in
      match source !! i with
      | None => Some (Throw (HitTheEnd source))
      | Some c =>
          if c =? 34 then
            let begin := S i in
            let i := (begin + stringLength 34 (drop begin source))%nat in
            Some (Ok (VString (substring begin i source), S i))
          else if c =? 91 then
            parseArray fuel source (skip blank source (S i)) []
          else if c =? 123 then
            parseTable fuel source (skip blank source (S i)) ∅
          else Some (Ok (parseAtom source i))
      end
  end

(** Lines 949-965, entered with [i] at the next element. *)
with parseArray (fuel : nat) (source : jsstring) (i : nat) (a : list Value)
  : option (result exn (Value * nat)) :=
  match fuel with
  | O => None
  | S fuel =>
      match source !! i with
      | Some c =>
          if c =? 93 then Some (Ok (VArray a, S i))
          else
            match _parse fuel source i with
            | None => None
            | Some (Throw e) => Some (Throw e)
            | Some (Ok (child, next)) =>
                if isEllipsis child then
                  Some (Ok (VArray [], S (skipTo 93 source i)))
                else
                  parseArray fuel source (skip commaBlank source next)
                             (a ++ [child])
            end
      | None => Some (Ok (VArray a, S i))
      end
  end

(** Lines 973-1005, entered with [i] at the next key. *)
with parseTable (fuel : nat) (source : jsstring) (i : nat)
    (t : gmap jsstring Value) : option (result exn (Value * nat)) :=
  match fuel with
  | O => None
  | S fuel =>
      match source !! i with
      | Some c =>
          if c =? 125 then Some (Ok (VTable t, S i))
          else
            let key :=
              if c =? 34 then
                match _parse fuel source i with
                | None => None
                | Some (Throw e) => Some (Throw e)
                | Some (Ok r) => Some (Ok r)
                end
              else
                let end_ := regexIndexOf source keySeparator i in
                Some (Ok (VString (substring i end_ source), end_)) in
            match key with
            | None => None
            | Some (Throw e) => Some (Throw e)
            | Some (Ok (key, i)) =>
                if isEllipsis key then
                  Some (Ok (VTable ∅, S (skipTo 125 source i)))
                else
                  match _parse fuel source (skip colonBlank source i) with
                  | None => None
                  | Some (Throw e) => Some (Throw e)
                  | Some (Ok (value, next)) =>
                      let key := match key with VString k => k | _ => [] end in
                      parseTable fuel source (skip commaBlank source next)
                                 (setMember key value t)
                  end
            end
      | None => Some (Ok (VTable t, S i))
      end
  end.

(** Enough fuel for every source: a call or a turn of a loop starts at
    least one code unit after the one that started it. *)
Definition parse (source : jsstring) (i : nat)
  : option (result exn (Value * nat)) :=
  _parse (2 * length source + 2) source i.

End parse.

End Parser.

(* ===================================================================== *)
(** ** URLs: [urlDir], [urlFile], [makeURLAbsolute], [urlFilename] and the
       game URL of [afterLoadGame] *)
(* ===================================================================== *)

Module Url.

(** The regular expressions of these functions are matched by hand, each
    by a scan for the leftmost match as [String.prototype.replace] and
    [RegExp.prototype.test] look for it. Without the [s] flag a dot
    matches every code unit but the four line terminators; without the
    [m] flag [$] matches at the end of the text only. *)
Definition isLineTerminator (c : Z) : bool :=
  bool_decide (c ∈ [10; 13; 8232; 8233]).

Definition dots (s : jsstring) : bool :=
  forallb (λ c, negb (isLineTerminator c)) s.

(** [url.replace(/\?.*$/, '')]: the leftmost question mark that only
    dots separate from the end, and all after it, is removed. *)
Fixpoint stripQuery (url : jsstring) : jsstring :=
  match url with
  | [] => []
  | c :: url' =>
      if (c =? 63) && dots url' then [] else c :: stripQuery url'
  end.

(** [url.replace(/\/[^/]*$/, '/')]: the leftmost slash with no slash
    after it stays, what follows it is removed. *)
Fixpoint stripFile (url : jsstring) : jsstring :=
  match url with
  | [] => []
  | c :: url' =>
      if (c =? 47) && forallb (λ c, negb (c =? 47)) url' then [47]
      else c :: stripFile url'
  end.

(** Lines 870-872. *)
Definition urlDir (url : jsstring) : jsstring := stripFile (stripQuery url).

(** [s.lastIndexOf(c)] for one code unit [c]: the scan keeps the last
    index at which it saw [c], starting from -1. *)
Fixpoint lastIndexOfFrom (c : Z) (s : jsstring) (i found : Z) : Z :=
  match s with
  | [] => found
  | x :: s' => lastIndexOfFrom c s' (i + 1) (if x =? c then i else found)
  end.

Definition lastIndexOf (c : Z) (s : jsstring) : Z := lastIndexOfFrom c s 0 (-1).

(** Lines 874-876. *)
Definition urlFile (url : jsstring) : jsstring :=
  drop (Z.to_nat (lastIndexOf 47 url + 1)) url.

(** The replacement text of [replace] for a pattern without groups:
    [$$] is a dollar, [$&] the match, [$`] the text before the match
    (empty for a match at the start), [$'] the text after it; any other
    dollar stands for itself. *)
Fixpoint substitute (matched after replacement : jsstring) : jsstring :=
  match replacement with
  | 36 :: 36 :: r => 36 :: substitute matched after r
  | 36 :: 38 :: r => matched ++ substitute matched after r
  | 36 :: 96 :: r => substitute matched after r
  | 36 :: 39 :: r => after ++ substitute matched after r
  | c :: r => c :: substitute matched after r
  | [] => []
  end.

Definition startsWith (prefix s : jsstring) : bool :=
  bool_decide (take (length prefix) s = prefix).

(** [/^(?:nano|quad):\/\//.test(childURL)] *)
Definition quadScheme (childURL : jsstring) : bool :=
  startsWith (js "nano://") childURL || startsWith (js "quad://") childURL.

(** [/^.{3,6}:\/\//.test(childURL)]: for one of the four lengths, that
    many dots and then [://]. *)
Definition otherScheme (childURL : jsstring) : bool :=
  existsb (λ n, dots (take n childURL)
                && bool_decide (take 3 (drop n childURL) = js "://"))
          [3; 4; 5; 6]%nat.

Section location.

(** [location.href] *)
Variable href : jsstring.

(** Lines 879-890. *)
Definition makeURLAbsolute (parentURL childURL : jsstring) : jsstring :=
  if quadScheme childURL then
    let matched := take 7 childURL in
    let after := drop 7 childURL in
    substitute matched after (urlDir href ++ js "../") ++ after
  else if otherScheme childURL then childURL
  else urlDir parentURL ++ childURL.

End location.

(** [url.replace(/^.*\//, '')]: the length of the match of [.*\/] at the
    start of [s]. The star takes every dot it can and gives back one at
    a time until a slash follows. *)
Fixpoint dotsThenSlash (s : jsstring) : option nat :=
  match s with
  | [] => None
  | c :: s' =>
      match (if isLineTerminator c then None else dotsThenSlash s') with
      | Some n => Some (S n)
      | None => if c =? 47 then Some 1%nat else None
      end
  end.

(** Lines 894-896. *)
Definition urlFilename (url : jsstring) : jsstring :=
  match dotsThenSlash url with
  | Some n => drop n url
  | None => url
  end.

(** [/\.game\.json$/i.test(gameURL)]: without the [u] flag a code unit
    above 127 never matches an ASCII letter, so the case folding is that
    of ASCII. *)
Definition asciiLower (c : Z) : Z :=
  if (65 <=? c) && (c <=? 90) then c + 32 else c.

Definition isGameJson (gameURL : jsstring) : bool :=
  bool_decide (asciiLower <$> drop (length gameURL - 10) gameURL
               = js ".game.json").

(** [gameURL.replace(/(\/|^)([^\/]+)$/, '$1$2/$2.game.json')]: at the
    leftmost position where a slash, or else the start of the text, is
    followed by one or more code units that are no slash up to the end,
    the name [$2] is followed by a slash, the name again and
    [.game.json]. [atStart] tells whether the scan is at the start. *)
Fixpoint appendGameJson (atStart : bool) (url : jsstring) : jsstring :=
  let noSlash := forallb (λ c, negb (c =? 47)) in
  match url with
  | [] => []
  | c :: url' =>
      if (c =? 47) && negb (bool_decide (url' = [])) && noSlash url' then
        [47] ++ url' ++ [47] ++ url' ++ js ".game.json"
      else if atStart && noSlash url then
        url ++ [47] ++ url ++ js ".game.json"
      else c :: appendGameJson false url'
  end.

(** Lines 113-117. *)
Definition directoryToGameJson (gameURL : jsstring) : jsstring :=
  if isGameJson gameURL then gameURL
  else
    let gameURL :=
      match last gameURL with
      | Some 47 => take (length gameURL - 1) gameURL
      | _ => gameURL
      end in
    appendGameJson true gameURL.

End Url.

(* ===================================================================== *)
(** ** Constants: [nullToUndefined], [evalJSONGameConstant] *)
(* ===================================================================== *)

Module Constants.

Import Manifest.

(** A JavaScript value as the constants of a game hold them. *)
Inductive Value :=
| Undefined
| Null
| Boolean (b : bool)
| Number (n : float)
| String (s : jsstring)
| Array (l : list Value)
| Object (o : gmap jsstring Value)
| Function.

(** A parsed JSON document and a result of [_parse] as values. *)
Fixpoint ofJson (json : Json) : Value :=
  match json with
  | JNull => Null
  | JBool b => Boolean b
  | JNum n => Number n
  | JStr s => String s
  | JArr l => Array (ofJson <$> l)
  | JObj o => Object (ofJson <$> o)
  end.

Fixpoint ofParsed (v : Parser.Value) : Value :=
  match v with
  | Parser.VUndefined => Undefined
  | Parser.VBool b => Boolean b
  | Parser.VNumber n => Number n
  | Parser.VString s => String s
  | Parser.VArray a => Array (ofParsed <$> a)
  | Parser.VTable t => Object (ofParsed <$> t)
  | Parser.VFunction => Function
  end.

(** Lines 900-915. The arrays and objects of a parsed document are not
    shared, so the update in place is the rebuilt value. *)
Fixpoint nullToUndefined (x : Value) : Value :=
  match x with
  | Null => Undefined
  | Array l => Array (nullToUndefined <$> l)
  | Object o => Object (nullToUndefined <$> o)
  | _ => x
  end.

Inductive exn :=
| RawWithUrl
  (* 'Raw values with URLs only permitted for top-level constants' *)
| IllegalRgb (value : option Json)
  (* 'Illegal rgb value: ' + json.value *)
| IllegalRgba (value : option Json)
  (* 'Illegal rgba value: ' + json.value *)
| UnrecognizedDataType (type : option Json)
  (* 'Unrecognized data type: [json.type]' *)
| IllegalColor (e : Hex.exn)
  (* thrown by [parseHexColor] *)
| ParseError (e : Parser.exn)
  (* thrown by [_parse] *)
| TypeError.
  (* a property read through [undefined] or [null], or [trim] called on
     a value that is no string *)

(** [s.trim()]: white space and line terminators leave both ends. *)
Definition trim (s : jsstring) : jsstring :=
  reverse (Hex.skipWhiteSpace (reverse (Hex.skipWhiteSpace s))).

(** [{r: c.r, g: c.g, b: c.b}] and [{r, g, b, a}] *)
Definition rgbObject (c : Hex.Color) : Value :=
  Object (<[js "r" := Number (Hex.r c)]>
            (<[js "g" := Number (Hex.g c)]>
               (<[js "b" := Number (Hex.b c)]> ∅))).

Definition rgbaObject (c : Hex.Color) : Value :=
  Object (<[js "r" := Number (Hex.r c)]>
            (<[js "g" := Number (Hex.g c)]>
               (<[js "b" := Number (Hex.b c)]>
                  (<[js "a" := Number (Hex.a c)]> ∅)))).

(** [parseHexColor(value.substring(1))] *)
Definition hexColor (s : jsstring) : result exn Hex.Color :=
  match Hex.parseHexColor (drop 1 s) with
  | Ok c => Ok c
  | Throw e => Throw (IllegalColor e)
  end.

(** The object literal [{k1: v1, ...}] whose members are evaluated in
    order; the first exception leaves it. *)
Fixpoint objectLiteral (members : list (jsstring * result exn Value))
    (o : gmap jsstring Value) : result exn Value :=
  match members with
  | [] => Ok (Object o)
  | (k, r) :: members' =>
      match r with
      | Ok v => objectLiteral members' (<[k := v]> o)
      | Throw e => Throw e
      end
  end.

Section eval.

Variable parseFloat : jsstring → float.

(** [_parse(source).result]. [Parser.parse] never runs out of fuel, so
    the last branch is never taken. *)
Definition parsed (source : jsstring) : result exn Value :=
  match Parser.parse parseFloat source 0 with
  | Some (Ok (v, _)) => Ok (ofParsed v)
  | Some (Throw e) => Throw (ParseError e)
  | None => Throw (ParseError (Parser.HitTheEnd source))
  end.

(** Lines 1075-1150. The recursive calls are on the members of
    [json.value]: [component k] is [evalJSONGameConstant(json.value[k])],
    which throws when [json.value] is no object or has no member [k]
    (the call then reads [undefined.type]), and is only computed where a
    branch uses it. *)
Fixpoint evalJSONGameConstant (json : Json) : result exn Value :=
  match json with
  | JNull => Throw TypeError
  | JObj o =>
      let value := o !! js "value" in
      let component (k : string) : result exn Value :=
        match
          ((λ v, match v with
                 | JObj members => evalJSONGameConstant <$> members
                 | _ => ∅
                 end) <$> o) !! js "value"
        with
        | Some members => default (Throw TypeError) (members !! js k)
        | None => Throw TypeError
        end in
      let type := o !! js "type" in
      let unrecognized := Throw (UnrecognizedDataType type) in
      match type with
      | Some (JStr t) =>
          if bool_decide (t = js "nil") then Ok Undefined
          else if bool_decide (t = js "raw") then
            match o !! js "url" with
            | Some _ => Throw RawWithUrl
            | None =>
                Ok (nullToUndefined (default Undefined (ofJson <$> value)))
            end
          else if bool_decide (t = js "number") then
            match value with
            | Some (JNum n) => Ok (Number n)
            | Some (JStr s) => parsed (trim s)
            | _ => Throw TypeError
            end
          else if bool_decide (t = js "boolean") then
            Ok (Boolean
                  match value with
                  | Some (JBool true) => true
                  | Some (JStr s) => bool_decide (s = js "true")
                  | _ => false
                  end)
          else if bool_decide (t = js "string") then
            Ok (default Undefined (ofJson <$> value))
          else if bool_decide (t = js "xy") then
            objectLiteral [(js "x", component "x"); (js "y", component "y")] ∅
          else if bool_decide (t = js "xyz") then
            objectLiteral [(js "x", component "x"); (js "y", component "y");
                           (js "z", component "z")] ∅
          else if bool_decide (t = js "rgb") then
            match value with
            | Some JNull | Some (JArr _) | Some (JObj _) =>
                objectLiteral [(js "r", component "r");
                               (js "g", component "g");
                               (js "b", component "b")] ∅
            | Some (JStr (35 :: s)) =>
                c ← hexColor (35 :: s); mret (rgbObject c)
            | _ => Throw (IllegalRgb value)
            end
          else if bool_decide (t = js "rgba") then
            match value with
            | Some JNull | Some (JArr _) | Some (JObj _) =>
                objectLiteral [(js "r", component "r");
                               (js "g", component "g");
                               (js "b", component "b");
                               (js "a", component "a")] ∅
            | Some (JStr (35 :: s)) =>
                c ← hexColor (35 :: s); mret (rgbaObject c)
            | _ => Throw (IllegalRgba value)
            end
          else unrecognized
      | _ => unrecognized
      end
  | _ => Throw (UnrecognizedDataType None)
  end.

End eval.

(** Vocabulary of the properties: [null] occurs in a value; the number
    of constructors of a value. *)
Inductive containsNull : Value → Prop :=
| null_here : containsNull Null
| null_in_array (l : list Value) (x : Value) :
    x ∈ l → containsNull x → containsNull (Array l)
| null_in_object (o : gmap jsstring Value) (k : jsstring) (x : Value) :
    o !! k = Some x → containsNull x → containsNull (Object o).

Fixpoint size (x : Value) : nat :=
  match x with
  | Array l => S (sum_list (size <$> l))
  | Object o => S (sum_list ((map_to_list (size <$> o)).*2))
  | _ => 1%nat
  end.

(** [evalJSONGameConstant(member)] for a member that may be missing:
    the call on [undefined] throws when it reads [json.type]. *)
Definition evalMember (parseFloat : jsstring → float) (member : option Json)
  : result exn Value :=
  match member with
  | Some json => evalJSONGameConstant parseFloat json
  | None => Throw TypeError
  end.

(** Inputs of the examples: a [raw] constant holding [[1, null]], the
    [number] constants with the text [true] and with the text [50%]
    between blanks for their values, and the [xy] constant whose members
    are the number 1 and the boolean [true]. *)
Definition exampleRaw : gmap jsstring Json :=
  <[js "type" := JStr (js "raw")]>
    (<[js "value" := JArr [JNum 1; JNull]]> ∅).

Definition exampleXYMembers : gmap jsstring Json :=
  <[js "x" := JObj (<[js "type" := JStr (js "number")]>
                      (<[js "value" := JNum 1]> ∅))]>
    (<[js "y" := JObj (<[js "type" := JStr (js "boolean")]>
                         (<[js "value" := JBool true]> ∅))]> ∅).

Definition exampleNumber : gmap jsstring Json :=
  <[js "type" := JStr (js "number")]>
    (<[js "value" := JStr (js "true")]> ∅).

Definition examplePercent : gmap jsstring Json :=
  <[js "type" := JStr (js "number")]>
    (<[js "value" := JStr (js "  50% ")]> ∅).

Definition exampleXY : gmap jsstring Json :=
  <[js "type" := JStr (js "xy")]>
    (<[js "value" := JObj exampleXYMembers]> ∅).

(** The type names [evalJSONGameConstant] implements. *)
Definition implementedTypes : list jsstring :=
  [js "nil"; js "raw"; js "number"; js "boolean"; js "string"; js "xy";
   js "xyz"; js "rgb"; js "rgba"].

End Constants.

(* ===================================================================== *)
(** ** Assets: the loader chosen for an asset *)
(* ===================================================================== *)

Module Assets.

Import Url.

(** The [switch] of lines 267-286 calls one of four loaders, or logs the
    type and loads nothing. *)
Inductive AssetKind := Font | Sprite | Sound | Map | Unrecognized.

(** [s] is one or more code units that are no dot, then [.json] in any
    case, up to the end: what [([^.]+)\.json$] matches under the [i]
    flag, with the text of the group. *)
Definition typeThenJson (s : jsstring) : option jsstring :=
  let type := take (length s - 5) s in
  if negb (bool_decide (type = []))
     && forallb (λ c, negb (c =? 46)) type
     && bool_decide (asciiLower <$> drop (length s - 5) s = js ".json")
  then Some type else None.

(** [assetURL.match(/\.([^.]+)\.json$/i)]: the group of the leftmost
    match, [None] for [null]. *)
Fixpoint matchType (assetURL : jsstring) : option jsstring :=
  match assetURL with
  | [] => None
  | c :: url' =>
      match (if c =? 46 then typeThenJson url' else None) with
      | Some type => Some type
      | None => matchType url'
      end
  end.

(** Lines 259-260 and the [switch] of line 267 on
    [type[1].toLowerCase()]. A code unit above 127 does not become one of
    the letters of the four names when it is put in lower case, so the
    case folding of ASCII decides the branch. *)
Definition assetKind (assetURL : jsstring) : AssetKind :=
  match matchType assetURL with
  | Some type =>
      let type := asciiLower <$> type in
      if bool_decide (type = js "font") then Font
      else if bool_decide (type = js "sprite") then Sprite
      else if bool_decide (type = js "sound") then Sound
      else if bool_decide (type = js "map") then Map
      else Unrecognized
  | None => Unrecognized
  end.

(** The branch of a type name that is in lower case already. *)
Definition kindOf (type : jsstring) : AssetKind :=
  if bool_decide (type = js "font") then Font
  else if bool_decide (type = js "sprite") then Sprite
  else if bool_decide (type = js "sound") then Sound
  else if bool_decide (type = js "map") then Map
  else Unrecognized.

End Assets.

(* ===================================================================== *)
(** ** The requests of the manifest *)
(* ===================================================================== *)

Module Fetches.

Import Manifest.

(** Vocabulary of the properties of the requests of the manifest: the
    text request of a URL, and the state after the scripts and the modes
    named were pushed on [st] in this order. *)
Definition textFetch (u : jsstring) : jsstring * FetchKind := (u, FetchText).

Definition pushScripts (makeURLAbsolute : jsstring → jsstring → jsstring)
    (gameURL : jsstring) (names : list jsstring) (st : LoadState) : LoadState :=
  foldl (λ st s, push_script (makeURLAbsolute gameURL s) st) st names.

Definition pushModes (makeURLAbsolute : jsstring → jsstring → jsstring)
    (gameURL : jsstring) (names : list jsstring) (st : LoadState) : LoadState :=
  foldl (λ st s, push_mode (modeOf makeURLAbsolute gameURL s) st) st names.

(** [modeNameToFileName], line 804. *)
Definition modeNameToFileName (modeName : jsstring) : jsstring :=
  removeFirstStar modeName ++ js ".pyxl".

(** Input of the example: a manifest with one script and two modes, and
    what the callback leaves for it. *)
Definition exampleManifest : gmap jsstring Json :=
  <[js "scripts" := JArr [JStr (js "lib.pyxl")]]>
    (<[js "modes" := JArr [JStr (js "*Play"); JStr (js "Title")]]> ∅).

Definition exampleLoaded : gmap jsstring Json * LoadState :=
  match afterLoadGame (λ parent child, parent ++ child) (js "game/")
          exampleManifest with
  | Ok loaded => loaded
  | Throw _ => (∅, {| scripts := []; modes := []; fetches := [] |})
  end.

End Fetches.

(* ===================================================================== *)
(** ** Colours of hexadecimal digits *)
(* ===================================================================== *)

Module HexDigits.

Import Hex.

(** Vocabulary of the properties of colours written in hexadecimal
    digits only: the code units of the digits, and a channel that lies
    between 0 and 1. *)
Definition hexChars : list Z :=
  [48; 49; 50; 51; 52; 53; 54; 55; 56; 57;
   97; 98; 99; 100; 101; 102; 65; 66; 67; 68; 69; 70].

Definition inUnit (x : float) : bool :=
  PrimFloat.leb 0 x && PrimFloat.leb x 1.

End HexDigits.

(* ===================================================================== *)
(** ** The flipped buffer *)
(* ===================================================================== *)

Module Mirror.

Import Image.

(** Vocabulary of the properties of the flipped buffer: the buffer whose
    word [x + y*w] is the word [(w-1-x) + y*w] of [src]. *)
Definition mirrored (src : list Z) (w h : nat) : list Z :=
  (λ t, get src ((w - 1 - t mod w) + t / w * w)%nat) <$> seq 0 (w * h).

End Mirror.

(* ===================================================================== *)
(** ** The cells of a sprite sheet *)
(* ===================================================================== *)

Module SheetCells.

Import Sprites.

(** Vocabulary of the properties of the cells of a sheet: the four
    objects of the sprite at [l] with the flag and the counter they were
    built from; a pixel of the block of [spriteSize] pixels whose corner
    is the pixel [(px, py)] that is not opaque; the number of columns and
    of rows of the grid of a sheet. *)
Definition builtAt (json : SpriteJson) (st : Store) (l : loc) (u v : Z)
    (hasAlpha : bool) (id : Z) : Prop :=
  let o := spriteLiteral json u v hasAlpha id in
  heap st !! l = Some (builtSprite l o)
  ∧ heap st !! S l = Some (builtFlippedX l id o)
  ∧ heap st !! S (S l) = Some (builtFlippedY l id o)
  ∧ heap st !! S (S (S l)) = Some (builtFlippedXY l id o).

Definition blockHasAlpha (json : SpriteJson) (data : Image.Uint32Array)
    (px py : Z) : Prop :=
  ∃ i j, 0 ≤ i < spriteSize_x json ∧ 0 ≤ j < spriteSize_y json
         ∧ shr (getZ (Image.data data)
                  ((py + j) * Z.of_nat (Image.width data) + px + i)) 24
           < 255.

Definition across (json : SpriteJson) (data : Image.Uint32Array) : Z :=
  (Z.of_nat (Image.width data) + _gutter json) / strideX json.

Definition down (json : SpriteJson) (data : Image.Uint32Array) : Z :=
  (Z.of_nat (Image.height data) + _gutter json) / strideY json.

End SheetCells.

(* ===================================================================== *)
(** ** The cells of a layer *)
(* ===================================================================== *)

Module Layers.

Import Sprites TileMap.

(** Vocabulary of the properties of [decodeLayer]: the cells decoded
    when the loops of lines 758-759 stand at row [y], column [k], with
    the running index and the layer in [s]. *)
Definition decoded (heap : gmap loc Obj) (spritesheet : list (list loc))
    (columns : Z) (flipY : bool) (size_x size_y : nat) (data : list Z)
    (y k : nat) (s : nat * list (list (option loc))) : Prop :=
  s.1 = (y * size_x + k)%nat
  ∧ length s.2 = size_x
  ∧ Forall (λ column, length column = size_y) s.2
  ∧ ∀ x' y', (x' < size_x)%nat → (y' < y ∨ y' = y ∧ x' < k)%nat →
      ∃ column sprite,
        s.2 !! x' = Some column
        ∧ tileSprite heap spritesheet columns
            (Image.get data (y' * size_x + x')) = Ok sprite
        ∧ column !! (if flipY then (size_y - 1 - y')%nat else y')
          = Some sprite.

End Layers.

(* ===================================================================== *)
(** ** Parsed literals *)
(* ===================================================================== *)

Module ParserVocab.

Import Parser.

(** Vocabulary of the further properties of the parser. Every quote
    (code unit 34) of [s] follows a backslash (code unit 92), when the
    code unit before [s] is [prev]. *)
Fixpoint quotesEscaped (prev : Z) (s : jsstring) : Prop :=
  match s with
  | [] => True
  | c :: s' => (c = 34 → prev = 92) ∧ quotesEscaped c s'
  end.

(** A call at index [i] that had fuel enough: it returned past [i], or
    threw the one exception of the parser. *)
Definition settled (source : jsstring) (i : nat)
    (o : option (result exn (Value * nat))) : Prop :=
  ∃ r, o = Some r
       ∧ match r with
         | Ok (_, next) => (i < next)%nat
         | Throw e => e = HitTheEnd source
         end.

(** The code units whose lower case [toLowerCase] gives as JavaScript
    does: Basic Latin, Latin-1, the letters [Π] and [π], and the glyphs
    of the [switch] of lines 1012-1057, which have one case. *)
Definition plain (c : Z) : bool :=
  (0 <=? c) && (c <? 256)
  || bool_decide (c ∈ [928; pi_glyph; empty_set_glyph; infinity_glyph])
  || bool_decide (c ∈ fractions.*1).

(** A token of an atom: one code unit or more, none of them a
    separator; a token of plain code units; and the value [_parse] gives
    a token. *)
Definition atomToken (token : jsstring) : Prop :=
  token ≠ [] ∧ Forall (λ c, atomSeparator c = false) token.

Definition plainToken (token : jsstring) : Prop :=
  atomToken token ∧ Forall (λ c, plain c = true) token.

Definition atomValue (parseFloat : jsstring → float) (token : jsstring)
  : Value :=
  (parseAtom parseFloat token 0).1.

(** The tokens with a comma between each two. *)
Fixpoint commaJoin (tokens : list jsstring) : jsstring :=
  match tokens with
  | [] => []
  | token :: tokens' =>
      match tokens' with
      | [] => token
      | _ => token ++ 44 :: commaJoin tokens'
      end
  end.

End ParserVocab.

(* ===================================================================== *)
(** * Properties *)
(* ===================================================================== *)

(** ** Loops *)

Module JSFacts.

Lemma for_lt_S {S : Type} (lo hi : nat) (body : nat → S → S) (s : S) :
  (lo ≤ hi)%nat →
  for_lt lo (Datatypes.S hi) body s = body hi (for_lt lo hi body s).
Proof.
  intros Hle. unfold for_lt.
  replace (Datatypes.S hi - lo)%nat with (Datatypes.S (hi - lo)) by lia.
  rewrite seq_S, foldl_app. simpl. f_equal. lia.
Qed.

Lemma for_lt_empty {S : Type} (lo : nat) (body : nat → S → S) (s : S) :
  for_lt lo lo body s = s.
Proof. unfold for_lt. by rewrite Nat.sub_diag. Qed.

Lemma for_each_app {E S A : Type} (body : A → S → result E S)
    (l1 l2 : list A) (s : S) :
  for_each body (l1 ++ l2) s = (s' ← for_each body l1 s; for_each body l2 s').
Proof.
  revert s. induction l1 as [|a l1 IH]; intros s; simpl; [done|].
  destruct (body a s); simpl; [apply IH | done].
Qed.

(** ** 32-bit operators, bit by bit *)

Lemma ToInt32_mod (z : Z) : ToInt32 z mod 2 ^ 32 = z mod 2 ^ 32.
Proof.
  unfold ToInt32. rewrite Zminus_mod_idemp_l. f_equal. lia.
Qed.

Lemma ToInt32_bit (z n : Z) :
  0 ≤ n < 32 → Z.testbit (ToInt32 z) n = Z.testbit z n.
Proof.
  intros Hn.
  rewrite <- (Z.mod_pow2_bits_low (ToInt32 z) 32 n) by lia.
  rewrite ToInt32_mod. apply Z.mod_pow2_bits_low. lia.
Qed.

Lemma ToUint32_bit (z n : Z) :
  0 ≤ n → Z.testbit (ToUint32 z) n = (n <? 32) && Z.testbit z n.
Proof.
  intros Hn. unfold ToUint32. destruct (Z.ltb_spec n 32).
  - by rewrite Z.mod_pow2_bits_low.
  - by rewrite Z.mod_pow2_bits_high.
Qed.

Lemma shift_count (s : Z) : 0 ≤ s < 32 → ToUint32 s mod 32 = s.
Proof.
  intros Hs. unfold ToUint32.
  rewrite (Z.mod_small s (2 ^ 32)), (Z.mod_small s 32); lia.
Qed.

Lemma and_bit (a b n : Z) :
  0 ≤ n < 32 → Z.testbit (JS.and a b) n = Z.testbit a n && Z.testbit b n.
Proof. intros Hn. unfold JS.and. by rewrite Z.land_spec, !ToInt32_bit. Qed.

Lemma or_bit (a b n : Z) :
  0 ≤ n < 32 → Z.testbit (JS.or a b) n = Z.testbit a n || Z.testbit b n.
Proof. intros Hn. unfold JS.or. by rewrite Z.lor_spec, !ToInt32_bit. Qed.

Lemma shl_bit (a s n : Z) :
  0 ≤ s < 32 → 0 ≤ n < 32 →
  Z.testbit (shl a s) n = if n <? s then false else Z.testbit a (n - s).
Proof.
  intros Hs Hn. unfold shl. rewrite shift_count, ToInt32_bit by done.
  rewrite Z.shiftl_spec by lia. destruct (Z.ltb_spec n s).
  - apply Z.testbit_neg_r. lia.
  - apply ToInt32_bit. lia.
Qed.

Lemma sar_bit (a s n : Z) :
  0 ≤ s < 32 → 0 ≤ n → n + s < 32 →
  Z.testbit (sar a s) n = Z.testbit a (n + s).
Proof.
  intros Hs Hn Hns. unfold sar. rewrite shift_count by done.
  rewrite Z.shiftr_spec by lia. apply ToInt32_bit. lia.
Qed.

End JSFacts.

(** ** Hexadecimal colours *)

Module HexFacts.

Import Hex.

Example parseHexColor_FF0000 :
  parseHexColor (js "FF0000") = Ok {| r := 1; g := 0; b := 0; a := 1 |}.
Proof. vm_compute. reflexivity. Qed.

Example parseHexColor_F00 :
  parseHexColor (js "F00") = Ok {| r := 1; g := 0; b := 0; a := 1 |}.
Proof. vm_compute. reflexivity. Qed.

Example parseHexColor_8 :
  parseHexColor (js "8")
  = Ok {| r := 8 / 15; g := 8 / 15; b := 8 / 15; a := 1 |}.
Proof. vm_compute. reflexivity. Qed.

Example parseHexColor_too_long :
  parseHexColor (js "1234567") = Throw (IllegalHexColor (js "1234567")).
Proof. vm_compute. reflexivity. Qed.

(** C9, as stated, fails: the gray level of the two-digit form ["08"] is
    not 8/15. The length of the text is 2 when the divisor is chosen, so
    the digit 8 left after the leading zero is removed is divided by 255;
    the result is below one half, 8/15 is above. *)
Lemma parseHexColor_08_is_not_8_15 :
  parseHexColor (js "08")
  ≠ Ok {| r := 8 / 15; g := 8 / 15; b := 8 / 15; a := 1 |}.
Proof.
  intros H.
  apply (f_equal (λ c, match c with
                       | Ok c => PrimFloat.ltb (r c) 0.5
                       | Throw _ => false
                       end)) in H.
  vm_compute in H. discriminate H.
Qed.

(** C9, amended: [parseHexColor("08")] is the gray with
    [r = g = b = 8/255] and [a = 1]. *)
Theorem parseHexColor_08 :
  parseHexColor (js "08")
  = Ok {| r := 8 / 255; g := 8 / 255; b := 8 / 255; a := 1 |}.
Proof. vm_compute. reflexivity. Qed.

End HexFacts.

(** ** The manifest *)

Module ManifestFacts.

Import Manifest.

Lemma default_size_allowed :
  for_each (λ allowed ok,
              m ← screenSizeMatches allowed defaultScreenSize;
              mret (if m : bool then true else ok))
           allowedScreenSizes false
  = Ok true.
Proof. vm_compute. reflexivity. Qed.

(** C10: a manifest without a [screenSize] member gets the size 384 x 224
    written into it and passes the screen-size check. *)
Theorem screenSize_default (gameJSON : gmap jsstring Json) :
  gameJSON !! js "screenSize" = None →
  checkScreenSize gameJSON
    = Ok (<[js "screenSize" := defaultScreenSize]> gameJSON)
  ∧ member defaultScreenSize (js "x") = Ok (Some (JNum 384))
  ∧ member defaultScreenSize (js "y") = Ok (Some (JNum 224)).
Proof.
  intros Hnone. split; [|split; vm_compute; reflexivity].
  unfold checkScreenSize. rewrite Hnone, lookup_insert_eq.
  change (default JNull (Some defaultScreenSize)) with defaultScreenSize.
  by rewrite default_size_allowed.
Qed.

Lemma screenSize_default_witness :
  checkScreenSize (<[js "modes" := JArr [JStr (js "*Play")]]> ∅)
  = Ok (<[js "screenSize" := defaultScreenSize]>
          (<[js "modes" := JArr [JStr (js "*Play")]]> ∅)).
Proof.
  apply (screenSize_default (<[js "modes" := JArr [JStr (js "*Play")]]> ∅)).
  vm_compute. reflexivity.
Defined.

Example screenSize_100_100 :
  checkScreenSize
    (<[js "screenSize" := JObj (<[js "x" := JNum 100]> (<[js "y" := JNum 100]> ∅))]> ∅)
  = Throw (UnsupportedScreenSize (Some (JNum 100)) (Some (JNum 100))).
Proof. vm_compute. reflexivity. Qed.

Section modes.

Variable makeURLAbsolute : jsstring → jsstring → jsstring.
Variable gameURL : jsstring.

Lemma startModes_cons (s : jsstring) (names : list jsstring) :
  startModes (s :: names)
  = ((if hasStar s then 1 else 0) + startModes names)%nat.
Proof.
  unfold startModes. rewrite filter_cons.
  destruct (hasStar s); case_decide; done.
Qed.

Lemma modes_loop (names : list jsstring) (n : Z) (st : LoadState) :
  for_each (modeStep makeURLAbsolute gameURL) (JStr <$> names) (n, st)
  = Ok (n + Z.of_nat (startModes names),
        foldl (λ st s, push_mode (modeOf makeURLAbsolute gameURL s) st) st names).
Proof.
  revert n st. induction names as [|s names IH]; intros n st.
  - simpl. do 2 f_equal. unfold startModes. simpl. lia.
  - simpl. rewrite IH, startModes_cons. do 2 f_equal.
    destruct (hasStar s); lia.
Qed.

Lemma loadModes_count (gameJSON : gmap jsstring Json) (names : list jsstring)
    (st : LoadState) :
  gameJSON !! js "modes" = Some (JArr (JStr <$> names)) →
  loadModes makeURLAbsolute gameURL gameJSON st
  = if bool_decide (startModes names = 0%nat) then Throw NoStartingMode
    else if bool_decide (1 < startModes names)%nat
         then Throw TooManyStartingModes
         else Ok (foldl (λ st s, push_mode (modeOf makeURLAbsolute gameURL s) st) st names).
Proof.
  intros Hmodes. unfold loadModes. rewrite Hmodes, modes_loop. simpl.
  destruct (Z.eqb_spec (0 + Z.of_nat (startModes names)) 0),
    (Z.ltb_spec 1 (0 + Z.of_nat (startModes names)));
    repeat case_bool_decide; try reflexivity; lia.
Qed.

Lemma checkScreenSize_modes (gameJSON g' : gmap jsstring Json) :
  checkScreenSize gameJSON = Ok g' →
  g' !! js "modes" = gameJSON !! js "modes".
Proof.
  unfold checkScreenSize. intros H.
  destruct (for_each _ _ _) as [[|]|] in H; simpl in H.
  - injection H as <-. destruct (gameJSON !! js "screenSize"); [done|].
    apply lookup_insert_ne. intros Heq. vm_compute in Heq. discriminate Heq.
  - destruct (member _ (js "x")); simpl in H; [|discriminate H].
    destruct (member _ (js "y")); simpl in H; discriminate H.
  - discriminate H.
Qed.

Lemma modes_of_loop (names : list jsstring) (st : LoadState) :
  name <$> modes (foldl (λ st s, push_mode (modeOf makeURLAbsolute gameURL s) st) st names)
  = (name <$> modes st) ++ names.
Proof.
  revert st. induction names as [|s names IH]; intros st; simpl.
  - by rewrite app_nil_r.
  - rewrite IH. simpl. rewrite fmap_app. simpl. by rewrite <- app_assoc.
Qed.

Lemma scripts_loop_modes (l : list (nat * Json)) (st0 st : LoadState) :
  for_each (λ '(i, script) st,
              match script with
              | JStr s => Ok (push_script (makeURLAbsolute gameURL s) st)
              | _ => Throw (ScriptNotUrl i)
              end) l st0 = Ok st →
  modes st = modes st0.
Proof.
  revert st0. induction l as [|[i script] l IH]; intros st0 H; simpl in H.
  - by injection H as <-.
  - destruct script; try done. simpl in H. by rewrite (IH _ H).
Qed.

Lemma loadScripts_modes (gameJSON : gmap jsstring Json) (st0 st : LoadState) :
  loadScripts makeURLAbsolute gameURL gameJSON st0 = Ok st →
  modes st = modes st0.
Proof.
  unfold loadScripts. intros H.
  destruct (truthy _); [|by injection H as <-].
  destruct (gameJSON !! js "scripts") as [[]|]; try done.
  by apply scripts_loop_modes in H.
Qed.

(** C1: once the screen size and the scripts are accepted, the callback
    throws when no mode name or more than one mode name carries the star,
    and goes on past the modes block, with every mode recorded, when
    exactly one does. *)
Theorem start_mode_count (gameJSON g' : gmap jsstring Json)
    (st : LoadState) (names : list jsstring) :
  checkScreenSize gameJSON = Ok g' →
  loadScripts makeURLAbsolute gameURL g'
    {| scripts := []; modes := []; fetches := [] |} = Ok st →
  gameJSON !! js "modes" = Some (JArr (JStr <$> names)) →
  (startModes names = 0%nat →
     afterLoadGame makeURLAbsolute gameURL gameJSON = Throw NoStartingMode)
  ∧ ((1 < startModes names)%nat →
     afterLoadGame makeURLAbsolute gameURL gameJSON
       = Throw TooManyStartingModes)
  ∧ (startModes names = 1%nat →
     ∃ st', afterLoadGame makeURLAbsolute gameURL gameJSON = Ok (g', st')
            ∧ name <$> modes st' = names).
Proof.
  intros Hsize Hscripts Hmodes.
  assert (Hrun : afterLoadGame makeURLAbsolute gameURL gameJSON
                 = (st' ← loadModes makeURLAbsolute gameURL g' st;
                    mret (g', st'))).
  { unfold afterLoadGame. rewrite Hsize. simpl. by rewrite Hscripts. }
  rewrite Hrun, (loadModes_count g' names).
  2: { by rewrite (checkScreenSize_modes gameJSON g'). }
  split; [|split]; intros Hn.
  - by rewrite bool_decide_true.
  - rewrite bool_decide_false by lia. by rewrite bool_decide_true.
  - rewrite !bool_decide_false by lia. eexists; split; [reflexivity|].
    rewrite modes_of_loop. by rewrite (loadScripts_modes _ _ _ Hscripts).
Qed.

End modes.

Lemma start_mode_count_witness :
  let gameJSON : gmap jsstring Json :=
    <[js "modes" := JArr [JStr (js "*Play"); JStr (js "Title")]]> ∅ in
  ∃ st',
    afterLoadGame (λ parent child, parent ++ child) (js "game/") gameJSON
      = Ok (<[js "screenSize" := defaultScreenSize]> gameJSON, st')
    ∧ name <$> modes st' = [js "*Play"; js "Title"].
Proof.
  intros gameJSON.
  refine (proj2 (proj2 (start_mode_count (λ parent child, parent ++ child)
            (js "game/") gameJSON
            (<[js "screenSize" := defaultScreenSize]> gameJSON)
            {| scripts := []; modes := []; fetches := [] |}
            [js "*Play"; js "Title"] _ _ _)) _);
    vm_compute; reflexivity.
Defined.

Example two_start_modes :
  afterLoadGame (λ parent child, parent ++ child) (js "game/")
    (<[js "modes" := JArr [JStr (js "*Play"); JStr (js "*Title")]]> ∅)
  = Throw TooManyStartingModes.
Proof. vm_compute. reflexivity. Qed.

Example no_start_mode :
  afterLoadGame (λ parent child, parent ++ child) (js "game/")
    (<[js "modes" := JArr [JStr (js "Play"); JStr (js "Title")]]> ∅)
  = Throw NoStartingMode.
Proof. vm_compute. reflexivity. Qed.

End ManifestFacts.

(** ** Pixel buffers *)

Module ImageFacts.

Import Image JSFacts.

Lemma nibble_mask_bit (n : Z) :
  0 ≤ n < 32 → Z.testbit 0x0F0F0F0F n = (n mod 8 <? 4).
Proof.
  intros Hn.
  assert (H : n = 0 ∨ n = 1 ∨ n = 2 ∨ n = 3 ∨ n = 4 ∨ n = 5 ∨ n = 6 ∨ n = 7
            ∨ n = 8 ∨ n = 9 ∨ n = 10 ∨ n = 11 ∨ n = 12 ∨ n = 13 ∨ n = 14
            ∨ n = 15 ∨ n = 16 ∨ n = 17 ∨ n = 18 ∨ n = 19 ∨ n = 20 ∨ n = 21
            ∨ n = 22 ∨ n = 23 ∨ n = 24 ∨ n = 25 ∨ n = 26 ∨ n = 27 ∨ n = 28
            ∨ n = 29 ∨ n = 30 ∨ n = 31) by lia.
  repeat (destruct H as [->|H]); try subst n; reflexivity.
Qed.

(** The nibble [c] of line 457 at bit [n]. *)
Lemma nibbles_bit (p n : Z) :
  0 ≤ n < 32 →
  Z.testbit (JS.and (sar p 4) 0x0F0F0F0F) n
  = (n mod 8 <? 4) && Z.testbit p (n + 4).
Proof.
  intros Hn. rewrite and_bit, nibble_mask_bit by done.
  destruct (Z.ltb_spec (n mod 8) 4) as [Hlow|Hhigh].
  - rewrite sar_bit; [by rewrite andb_true_r| lia | lia |].
    revert Hlow. Z.div_mod_to_equations. lia.
  - by rewrite andb_false_r.
Qed.

Lemma quantize_bit (p n : Z) :
  0 ≤ n →
  Z.testbit (quantize p) n = (n <? 32) && Z.testbit p (source_bit n).
Proof.
  intros Hn. unfold quantize. rewrite ToUint32_bit by done.
  destruct (Z.ltb_spec n 32) as [Hlt|]; [simpl|done].
  rewrite or_bit, shl_bit by lia. unfold source_bit.
  destruct (Z.ltb_spec n 4) as [Hn4|Hn4].
  - rewrite nibbles_bit by lia. simpl.
    replace (n mod 8 <? 4) with true
      by (symmetry; apply Z.ltb_lt; Z.div_mod_to_equations; lia).
    simpl. f_equal. Z.div_mod_to_equations. lia.
  - rewrite !nibbles_bit by lia.
    destruct (Z.ltb_spec (n mod 8) 4) as [Hlow|Hhigh].
    + (* a bit of a low nibble: it comes from [c] *)
      replace ((n - 4) mod 8 <? 4) with false
        by (symmetry; apply Z.ltb_ge; revert Hlow; Z.div_mod_to_equations; lia).
      simpl. f_equal. revert Hlow. Z.div_mod_to_equations. lia.
    + (* a bit of a high nibble: it comes from [c << 4] *)
      replace ((n - 4) mod 8 <? 4) with true
        by (symmetry; apply Z.ltb_lt; revert Hhigh; Z.div_mod_to_equations; lia).
      simpl. rewrite orb_false_r. f_equal.
      revert Hhigh. Z.div_mod_to_equations. lia.
Qed.

Lemma source_bit_idem (n : Z) :
  0 ≤ n → source_bit (source_bit n) = source_bit n.
Proof. intros Hn. unfold source_bit. Z.div_mod_to_equations. lia. Qed.

Lemma quantize_idempotent (p : Z) : quantize (quantize p) = quantize p.
Proof.
  apply Z.bits_inj'. intros n Hn.
  assert (Hs : 0 ≤ source_bit n).
  { unfold source_bit. Z.div_mod_to_equations. lia. }
  rewrite (quantize_bit (quantize p) n), (quantize_bit p (source_bit n)),
    (quantize_bit p n) by done.
  rewrite source_bit_idem by done.
  destruct (Z.ltb_spec n 32) as [Hlt|]; [simpl|done].
  replace (source_bit n <? 32) with true; [done|].
  symmetry. apply Z.ltb_lt. unfold source_bit. Z.div_mod_to_equations. lia.
Qed.

Lemma channel_bit (k p n : Z) :
  0 ≤ k → 0 ≤ n →
  Z.testbit (channel k p) n = (n <? 8) && Z.testbit p (n + 8 * k).
Proof.
  intros Hk Hn. unfold channel. rewrite Z.land_spec, Z.shiftr_spec by done.
  change 255 with (Z.ones 8).
  destruct (Z.ltb_spec n 8).
  - rewrite Z.ones_spec_low by lia. by rewrite andb_true_r.
  - rewrite Z.ones_spec_high by lia. by rewrite andb_false_r.
Qed.

(** [x * 17] copies the nibble [x] into both halves of a byte. *)
Lemma times_17 (x : Z) : 0 ≤ x < 16 → x * 17 = Z.lor (Z.shiftl x 4) x.
Proof.
  intros Hx.
  assert (H : x = 0 ∨ x = 1 ∨ x = 2 ∨ x = 3 ∨ x = 4 ∨ x = 5 ∨ x = 6 ∨ x = 7
            ∨ x = 8 ∨ x = 9 ∨ x = 10 ∨ x = 11 ∨ x = 12 ∨ x = 13 ∨ x = 14
            ∨ x = 15) by lia.
  repeat (destruct H as [->|H]); try subst x; reflexivity.
Qed.

Lemma nibble_range (b : Z) : 0 ≤ Z.land (Z.shiftr b 4) 15 < 16.
Proof.
  change 15 with (Z.ones 4). rewrite Z.land_ones by lia.
  apply Z.mod_pos_bound. lia.
Qed.

Lemma quantize_channel (k p : Z) :
  0 ≤ k < 4 →
  channel k (quantize p) = Z.land (Z.shiftr (channel k p) 4) 15 * 17.
Proof.
  intros Hk. rewrite times_17 by apply nibble_range.
  apply Z.bits_inj'. intros n Hn.
  rewrite channel_bit, quantize_bit by lia.
  rewrite Z.lor_spec, Z.shiftl_spec, !Z.land_spec by lia.
  change 15 with (Z.ones 4).
  destruct (Z.ltb_spec n 8) as [Hn8|Hn8]; simpl.
  - replace (n + 8 * k <? 32) with true by (symmetry; apply Z.ltb_lt; lia).
    simpl. destruct (Z.ltb_spec n 4) as [Hn4|Hn4].
    + rewrite (Z.testbit_neg_r _ (n - 4)) by lia. simpl.
      rewrite Z.ones_spec_low, andb_true_r by lia.
      rewrite Z.shiftr_spec, channel_bit by lia.
      replace (n + 4 <? 8) with true by (symmetry; apply Z.ltb_lt; lia).
      simpl. f_equal. unfold source_bit. Z.div_mod_to_equations. lia.
    + rewrite (Z.ones_spec_high 4 n), andb_false_r, orb_false_r by lia.
      rewrite Z.ones_spec_low, andb_true_r by lia.
      rewrite Z.shiftr_spec, channel_bit by lia.
      replace (n - 4 + 4 <? 8) with true by (symmetry; apply Z.ltb_lt; lia).
      simpl. f_equal. unfold source_bit. Z.div_mod_to_equations. lia.
  - rewrite (Z.ones_spec_high 4 n), andb_false_r, orb_false_r by lia.
    destruct (Z.ltb_spec (n - 4) 4).
    + lia.
    + rewrite Z.ones_spec_high, andb_false_r by lia. done.
Qed.

Lemma quantize_loop (d : list Z) (n : nat) :
  (n ≤ length d)%nat →
  for_lt 0 n (λ i d, <[i := quantize (get d i)]> d) d
  = (quantize <$> take n d) ++ drop n d.
Proof.
  induction n as [|n IH]; intros Hn.
  - by rewrite for_lt_empty, take_0, drop_0.
  - rewrite for_lt_S, IH by lia.
    destruct (lookup_lt_is_Some_2 d n) as [p Hp]; [lia|].
    assert (Hlen : length (quantize <$> take n d) = n).
    { rewrite length_fmap, length_take. lia. }
    unfold get. rewrite lookup_app_r, Hlen, Nat.sub_diag by lia.
    rewrite (drop_S d p n Hp). simpl.
    rewrite insert_app_r_alt, Hlen, Nat.sub_diag by lia. simpl.
    rewrite (take_S_r d n p Hp), fmap_app. simpl.
    by rewrite <- app_assoc.
Qed.

Lemma getImageData4Bit_eq (image : Image) :
  getImageData4Bit image
  = {| data := quantize <$> image_words image;
       width := image_width image;
       height := image_height image |}.
Proof.
  unfold getImageData4Bit. rewrite quantize_loop by done.
  by rewrite firstn_all, drop_all, app_nil_r.
Qed.

Lemma getImageData4Bit_data (image : Image) :
  data (getImageData4Bit image) = quantize <$> image_words image.
Proof. by rewrite getImageData4Bit_eq. Qed.

Section flip.

Variable src : list Z.
Variable w : nat.

Local Abbreviation mirror := (Image.mirror src w).
Local Abbreviation flipRow := (Image.flipRow src w).
Local Abbreviation flipRows := (Image.flipRows src w).

Lemma flipRow_S (y n : nat) (fl : list Z) :
  flipRow y (S n) fl = <[(n + y * w)%nat := mirror n y]> (flipRow y n fl).
Proof. unfold flipRow. by rewrite for_lt_S by lia. Qed.

Lemma flipRow_length (y n : nat) (fl : list Z) :
  length (flipRow y n fl) = length fl.
Proof.
  induction n as [|n IH]; [unfold flipRow; by rewrite for_lt_empty|].
  by rewrite flipRow_S, length_insert.
Qed.

Lemma flipRow_lookup (y n : nat) (fl : list Z) (t : nat) :
  flipRow y n fl !! t
  = if decide (y * w ≤ t < y * w + n ∧ t < length fl)%nat
    then Some (mirror (t - y * w) y) else fl !! t.
Proof.
  induction n as [|n IH].
  - unfold flipRow. rewrite for_lt_empty. case_decide; [lia|done].
  - rewrite flipRow_S.
    destruct (decide (t = n + y * w)%nat) as [->|Hne].
    + destruct (decide (n + y * w < length fl)%nat) as [Hlt|Hge].
      * rewrite list_lookup_insert_eq by (by rewrite flipRow_length).
        rewrite decide_True by lia. do 2 f_equal. lia.
      * rewrite list_insert_ge by (rewrite flipRow_length; lia).
        rewrite IH. repeat case_decide; try lia; done.
    + rewrite list_lookup_insert_ne by done. rewrite IH.
      repeat case_decide; try lia; done.
Qed.

Lemma flipRows_S (m : nat) (fl : list Z) :
  flipRows (S m) fl = flipRow m w (flipRows m fl).
Proof. unfold flipRows. by rewrite for_lt_S by lia. Qed.

Lemma flipRows_length (m : nat) (fl : list Z) :
  length (flipRows m fl) = length fl.
Proof.
  induction m as [|m IH]; [unfold flipRows; by rewrite for_lt_empty|].
  by rewrite flipRows_S, flipRow_length.
Qed.

Lemma flipRows_lookup (m : nat) (fl : list Z) (x y : nat) :
  (x < w)%nat → (y < m)%nat → (x + y * w < length fl)%nat →
  flipRows m fl !! (x + y * w)%nat = Some (mirror x y).
Proof.
  intros Hx. induction m as [|m IH]; intros Hy Hlen; [lia|].
  rewrite flipRows_S, flipRow_lookup, flipRows_length.
  destruct (decide (y = m)) as [->|Hne].
  - rewrite decide_True by lia. do 2 f_equal. lia.
  - rewrite decide_False by nia. apply IH; [lia|done].
Qed.

End flip.


(** C4: quantization rewrites every pixel word by [quantize]; each of the
    four 8-bit channels [v] of a word becomes [((v >> 4) & 0xF) * 17], so
    0 stays 0 and 255 stays 255; and quantizing the quantized buffer
    again changes nothing. *)
Theorem quantization (image : Image) :
  let q := getImageData4Bit image in
  data q = quantize <$> image_words image
  ∧ (∀ p k, 0 ≤ k < 4 →
       channel k (quantize p) = Z.land (Z.shiftr (channel k p) 4) 0xF * 17)
  ∧ (∀ p k, 0 ≤ k < 4 → channel k p = 0 → channel k (quantize p) = 0)
  ∧ (∀ p k, 0 ≤ k < 4 → channel k p = 255 → channel k (quantize p) = 255)
  ∧ getImageData4Bit {| image_width := width q; image_height := height q;
                        image_words := data q |} = q.
Proof.
  intros q. split; [apply getImageData4Bit_data|].
  split; [intros p k Hk; by apply quantize_channel|].
  split; [intros p k Hk Hp; by rewrite quantize_channel, Hp|].
  split; [intros p k Hk Hp; by rewrite quantize_channel, Hp|].
  subst q. rewrite !getImageData4Bit_eq. simpl. f_equal.
  rewrite <- list_fmap_compose.
  apply list_fmap_ext. intros i p _. apply quantize_idempotent.
Qed.

Example quantize_opaque_white : quantize 0xFFFFFFFF = 0xFFFFFFFF.
Proof. reflexivity. Qed.

Example quantize_mixed : quantize 0x80FF1234 = 0x88FF1133.
Proof. reflexivity. Qed.

(** C3: in the pair of buffers made for an image of width [w] and
    height [h], the flipped buffer at [x + y*w] holds the pixel of the
    first buffer at [(w-1-x) + y*w], for every [x < w] and [y < h]. *)
Theorem flipped_is_mirrored (image : Image) (x y : nat) :
  length (image_words image) = (image_width image * image_height image)%nat →
  (x < image_width image)%nat →
  (y < image_height image)%nat →
  let w := image_width image in
  let pair := getImageData4BitAndFlip image in
  ∃ p, data pair.1 !! ((w - 1 - x) + y * w)%nat = Some p
       ∧ data pair.2 !! (x + y * w)%nat = Some p.
Proof.
  intros Hlen Hx Hy w pair.
  assert (Hdata : length (data (getImageData4Bit image))
                  = (image_width image * image_height image)%nat).
  { by rewrite getImageData4Bit_data, length_fmap. }
  destruct (lookup_lt_is_Some_2 (data (getImageData4Bit image))
              ((w - 1 - x) + y * w)%nat) as [p Hp].
  { rewrite Hdata. subst w. nia. }
  exists p. split; [exact Hp|].
  subst pair. unfold getImageData4BitAndFlip. simpl.
  change (for_lt 0 (image_height image) _ _)
    with (flipRows (data (getImageData4Bit image)) (image_width image)
            (image_height image)
            (replicate (length (data (getImageData4Bit image))) 0)).
  rewrite flipRows_lookup.
  - unfold mirror, get. fold w. by rewrite Hp.
  - done.
  - done.
  - rewrite length_replicate, Hdata. nia.
Qed.

Lemma flipped_is_mirrored_witness :
  let image := {| image_width := 3; image_height := 2;
                  image_words := [0xFF000000; 0xFF102030; 0x80FFFFFF;
                                  0xFFFFFFFF; 0x12345678; 0] |} in
  let pair := getImageData4BitAndFlip image in
  ∃ p, data pair.1 !! 2%nat = Some p ∧ data pair.2 !! 0%nat = Some p.
Proof.
  intros image.
  apply (flipped_is_mirrored image 0 0); [reflexivity | simpl; lia | simpl; lia].
Defined.

End ImageFacts.

(** ** Sprite sheets *)

Module SpritesFacts.

Import Sprites.

(** One step of the symbolic run of [newSprite]: resolve a read of the
    store or push a write down to the object it changes. *)
Ltac heap_step :=
  first
    [ rewrite lookup_insert_eq
    | rewrite lookup_insert_ne by (lia || done)
    | rewrite alter_insert_eq
    | rewrite alter_insert_ne by lia ].

Lemma newSprite_run (json : SpriteJson) (u v : Z) (hasAlpha : bool)
    (st : Store) :
  newSprite json u v hasAlpha st
  = Ok (next st,
        afterNewSprite st
          (spriteLiteral json u v hasAlpha (lastSpriteID st + 1))).
Proof.
  unfold newSprite.
  unfold mbind, M_bind, mret, M_ret, incrementLastSpriteID, alloc, read,
    deref, write.
  generalize (spriteLiteral json u v hasAlpha (lastSpriteID st + 1)).
  intros o. cbn [heap next lastSpriteID].
  repeat (heap_step; cbn [heap next lastSpriteID]).
  reflexivity.
Qed.

Lemma variant_links (l : loc) (id : Z) (o : Obj) :
  o !! "flippedX" = None → o !! "flippedY" = None →
  builtSprite l o !! "flippedX" = Some (Ref (S l))
  ∧ builtSprite l o !! "flippedY" = Some (Ref (S (S l)))
  ∧ builtFlippedX l id o !! "flippedX" = Some (Ref l)
  ∧ builtFlippedX l id o !! "flippedY" = Some (Ref (S (S (S l))))
  ∧ builtFlippedY l id o !! "flippedX" = Some (Ref (S (S (S l))))
  ∧ builtFlippedY l id o !! "flippedY" = Some (Ref l)
  ∧ builtFlippedXY l id o !! "flippedX" = Some (Ref (S l))
  ∧ builtFlippedXY l id o !! "flippedY" = Some (Ref (S (S l))).
Proof.
  intros Hx Hy.
  unfold builtFlippedXY, builtFlippedX, builtFlippedY, builtSprite,
    Object_assign.
  rewrite (right_id_L ∅ (∪)).
  repeat split; simplify_map_eq; done.
Qed.

Lemma variant_scales (l : loc) (id : Z) (o : Obj) :
  o !! "scale" = Some PP →
  builtSprite l o !! "scale" = Some PP
  ∧ builtFlippedX l id o !! "scale" = Some NP
  ∧ builtFlippedY l id o !! "scale" = Some PN
  ∧ builtFlippedXY l id o !! "scale" = Some NN.
Proof.
  intros Hs.
  unfold builtFlippedXY, builtFlippedX, builtFlippedY, builtSprite,
    Object_assign.
  repeat split; simplify_map_eq; done.
Qed.

(** The flipped versions copy every property of the sprite that the
    construction does not set on them. *)
Lemma variant_copies (l : loc) (id : Z) (o : Obj) (k : string) :
  k ∉ ["flippedX"; "flippedY"; "scale"; "lastSpriteID"]%string →
  builtFlippedX l id o !! k = builtSprite l o !! k
  ∧ builtFlippedY l id o !! k = builtSprite l o !! k
  ∧ builtFlippedXY l id o !! k = builtSprite l o !! k.
Proof.
  intros Hk.
  assert (k ≠ "flippedX" ∧ k ≠ "flippedY" ∧ k ≠ "scale"
          ∧ k ≠ "lastSpriteID")%string as (H1 & H2 & H3 & H4).
  { set_solver. }
  unfold builtFlippedXY, builtFlippedX, builtFlippedY, builtSprite,
    Object_assign.
  rewrite (right_id_L ∅ (∪)).
  repeat split.
  - rewrite !lookup_insert_ne by done.
    rewrite lookup_union_l; [done|]. by rewrite lookup_singleton_ne.
  - rewrite !lookup_insert_ne by done.
    rewrite lookup_union_l; [by rewrite !lookup_insert_ne by done|].
    by rewrite lookup_singleton_ne.
  - by rewrite !lookup_insert_ne by done.
Qed.

Lemma spriteLiteral_fresh (json : SpriteJson) (u v : Z) (hasAlpha : bool)
    (id : Z) :
  let o := spriteLiteral json u v hasAlpha id in
  o !! "flippedX" = None ∧ o !! "flippedY" = None
  ∧ o !! "scale" = Some PP ∧ o !! "tileIndex" = Some (XY u v).
Proof. repeat split; reflexivity. Qed.

Lemma extends_refl (st : Store) : extends st st.
Proof. split; [lia|done]. Qed.

Lemma extends_trans (st1 st2 st3 : Store) :
  extends st1 st2 → extends st2 st3 → extends st1 st3.
Proof.
  intros [Hn12 H12] [Hn23 H23]. split; [lia|].
  intros l Hl. rewrite H23 by lia. by apply H12.
Qed.

Lemma afterNewSprite_extends (st : Store) (o : Obj) :
  extends st (afterNewSprite st o).
Proof.
  unfold afterNewSprite. split; simpl; [lia|].
  intros l Hl. by rewrite !lookup_insert_ne by lia.
Qed.

Lemma afterNewSprite_spriteAt (json : SpriteJson) (u v : Z)
    (hasAlpha : bool) (st : Store) :
  spriteAt json
    (afterNewSprite st (spriteLiteral json u v hasAlpha (lastSpriteID st + 1)))
    (next st) u v.
Proof.
  exists hasAlpha, (lastSpriteID st + 1). unfold afterNewSprite. simpl.
  split; [lia|].
  repeat split.
  - by rewrite !lookup_insert_ne, lookup_insert_eq by lia.
  - by rewrite !lookup_insert_ne, lookup_insert_eq by lia.
  - by rewrite lookup_insert_ne, lookup_insert_eq by lia.
  - by rewrite lookup_insert_eq.
Qed.

Lemma spriteAt_extends (json : SpriteJson) (st st' : Store) (l : loc)
    (u v : Z) :
  extends st st' → spriteAt json st l u v → spriteAt json st' l u v.
Proof.
  intros [Hn Hheap] (hasAlpha & id & Hl & H0 & H1 & H2 & H3).
  exists hasAlpha, id. simpl in *.
  rewrite (Hheap l), (Hheap (S l)), (Hheap (S (S l))), (Hheap (S (S (S l))))
    by lia.
  repeat split; (lia || done).
Qed.

Section grid.

Variable json : SpriteJson.
Variable data : Image.Uint32Array.

Lemma newColumn_spec (x : Z) (ys : list Z) (st : Store) :
  ∃ column st',
    newColumn json data x ys st = Ok (column, st')
    ∧ extends st st'
    ∧ length column = length ys
    ∧ ∀ j y l, ys !! j = Some y → column !! j = Some l →
        spriteAt json st' l (if transpose json then y else x)
                            (if transpose json then x else y).
Proof.
  revert st. induction ys as [|y ys IH]; intros st.
  - exists [], st. split; [done|]. split; [apply extends_refl|].
    split; [done|]. intros j y l Hy. done.
  - simpl. unfold mbind at 1, M_bind. rewrite newSprite_run.
    set (st1 := afterNewSprite st _).
    destruct (IH st1) as (column & st' & Hrun & Hext & Hlen & Hcells).
    exists (next st :: column), st'.
    unfold mbind, M_bind. rewrite Hrun. simpl.
    split; [done|]. split.
    { eapply extends_trans; [apply afterNewSprite_extends | exact Hext]. }
    split; [by rewrite Hlen|].
    intros [|j] y' l Hy Hl; simpl in *.
    + injection Hy as <-. injection Hl as <-.
      eapply spriteAt_extends; [exact Hext|]. apply afterNewSprite_spriteAt.
    + by eapply Hcells.
Qed.

Lemma newColumns_spec (xs ys : list Z) (st : Store) :
  ∃ columns st',
    newColumns json data xs ys st = Ok (columns, st')
    ∧ extends st st'
    ∧ length columns = length xs
    ∧ ∀ i x column, xs !! i = Some x → columns !! i = Some column →
        length column = length ys
        ∧ ∀ j y l, ys !! j = Some y → column !! j = Some l →
            spriteAt json st' l (if transpose json then y else x)
                                (if transpose json then x else y).
Proof.
  revert st. induction xs as [|x xs IH]; intros st.
  - exists [], st. split; [done|]. split; [apply extends_refl|].
    split; [done|]. intros i x column Hx. done.
  - simpl. unfold mbind at 1, M_bind.
    destruct (newColumn_spec x ys st)
      as (column & st1 & Hcol & Hext1 & Hlen1 & Hcells1).
    rewrite Hcol.
    destruct (IH st1) as (columns & st' & Hrun & Hext & Hlen & Hcells).
    exists (column :: columns), st'.
    unfold mbind, M_bind. rewrite Hrun. simpl.
    split; [done|]. split; [by eapply extends_trans|].
    split; [by rewrite Hlen|].
    intros [|i] x' column' Hx Hc; simpl in *.
    + injection Hx as <-. injection Hc as <-. split; [done|].
      intros j y l Hy Hl. eapply spriteAt_extends; [exact Hext|].
      by eapply Hcells1.
    + by eapply Hcells.
Qed.

(** What [newGrid] returns when it returns: the store still holds what
    it held, the columns have one length, and every cell holds the
    sprite of its tile. *)
Lemma newGrid_spec (st st' : Store) (grid : list (list loc)) :
  newGrid json data st = Ok (grid, st') →
  extends st st'
  ∧ (∃ rows, Forall (λ column, length column = rows) grid)
  ∧ gridAt json st' grid.
Proof.
  unfold newGrid.
  destruct (if transpose json then _ else _) as [rows cols].
  destruct cols as [cols|]; [|discriminate].
  destruct (Z.leb_spec cols 0) as [Hcols|Hcols].
  { intros H. injection H as <- <-.
    split; [apply extends_refl|]. split; [by exists 0%nat|].
    intros x y column l Hx. done. }
  destruct rows as [rows|]; [|discriminate].
  destruct (newColumns_spec (seqZ 0 cols) (seqZ 0 rows) st)
    as (columns & st1 & Hrun & Hext & Hlen & Hcells).
  rewrite Hrun. intros H. injection H as <- <-.
  split; [done|]. split.
  - exists (length (seqZ 0 rows)). apply Forall_lookup_2. intros i column Hc.
    destruct (lookup_lt_is_Some_2 (seqZ 0 cols) i) as [x Hx].
    { rewrite <- Hlen. by eapply lookup_lt_Some. }
    by destruct (Hcells i x column Hx Hc).
  - intros x y column l Hx Hy.
    assert (Hxs : seqZ 0 cols !! x = Some (Z.of_nat x)).
    { rewrite lookup_seqZ. split; [lia|].
      apply lookup_lt_Some in Hx. rewrite Hlen, length_seqZ in Hx. lia. }
    destruct (Hcells x _ column Hxs Hx) as [Hlen' Hcol].
    assert (Hys : seqZ 0 rows !! y = Some (Z.of_nat y)).
    { rewrite lookup_seqZ. split; [lia|].
      apply lookup_lt_Some in Hy. rewrite Hlen', length_seqZ in Hy. lia. }
    by apply (Hcol y _ l Hys Hy).
Qed.

Lemma loadSpritesheet_grid
    (dataPair : Image.Uint32Array * Image.Uint32Array)
    (st st' : Store) (sheet : Sheet) :
  loadSpritesheet json dataPair st = Ok (sheet, st') →
  newGrid json dataPair.1 st = Ok (grid sheet, st').
Proof.
  unfold loadSpritesheet, mbind, M_bind.
  destruct (newGrid json dataPair.1 st) as [[g st1]|]; [|discriminate].
  unfold lift. destruct (loadAnimations _ _ _); [|discriminate].
  unfold mret, M_ret. intros H. by injection H as <- <-.
Qed.

Lemma loadSpritesheet_object
    (dataPair : Image.Uint32Array * Image.Uint32Array)
    (st st' : Store) (sheet : Sheet) :
  loadSpritesheet json dataPair st = Ok (sheet, st') →
  loadAnimations json (default [] (names json))
    (sheetObject json dataPair (grid sheet)) = Ok (object sheet).
Proof.
  unfold loadSpritesheet, mbind, M_bind.
  destruct (newGrid json dataPair.1 st) as [[g st1]|]; [|discriminate].
  unfold lift.
  destruct (loadAnimations _ _ _) as [o|] eqn:Hload; [|discriminate].
  unfold mret, M_ret. intros H. injection H as <- <-. exact Hload.
Qed.

End grid.


Lemma prop_lookup (st : Store) (l : loc) (o : Obj) (k : string) :
  heap st !! l = Some o → prop st l k = o !! k.
Proof. unfold prop. by intros ->. Qed.

Lemma spriteAt_props (json : SpriteJson) (st : Store) (s : loc) (u v : Z) :
  spriteAt json st s u v →
  let fx := S s in
  let fy := S (S s) in
  let fxy := S (S (S s)) in
  (prop st s "flippedX" = Some (Ref fx)
   ∧ prop st s "flippedY" = Some (Ref fy)
   ∧ prop st fx "flippedX" = Some (Ref s)
   ∧ prop st fx "flippedY" = Some (Ref fxy)
   ∧ prop st fy "flippedX" = Some (Ref fxy)
   ∧ prop st fy "flippedY" = Some (Ref s)
   ∧ prop st fxy "flippedX" = Some (Ref fx)
   ∧ prop st fxy "flippedY" = Some (Ref fy))
  ∧ (prop st s "scale" = Some PP
     ∧ prop st fx "scale" = Some NP
     ∧ prop st fy "scale" = Some PN
     ∧ prop st fxy "scale" = Some NN)
  ∧ prop st s "tileIndex" = Some (XY u v)
  ∧ ∀ k, k ∉ ["flippedX"; "flippedY"; "scale"; "lastSpriteID"]%string →
      prop st fx k = prop st s k
      ∧ prop st fy k = prop st s k
      ∧ prop st fxy k = prop st s k.
Proof.
  intros (hasAlpha & id & Hl & H0 & H1 & H2 & H3) fx fy fxy.
  destruct (spriteLiteral_fresh json u v hasAlpha id) as (Hx & Hy & Hs & Ht).
  revert H0 H1 H2 H3 Hx Hy Hs Ht. cbv zeta.
  generalize (spriteLiteral json u v hasAlpha id). intros o H0 H1 H2 H3.
  intros Hx Hy Hs Ht. unfold fx, fy, fxy.
  rewrite !(prop_lookup _ _ _ _ H0), !(prop_lookup _ _ _ _ H1),
    !(prop_lookup _ _ _ _ H2), !(prop_lookup _ _ _ _ H3).
  split; [apply (variant_links s id _ Hx Hy)|].
  split; [apply (variant_scales s id _ Hs)|].
  split.
  - unfold builtSprite. by rewrite !lookup_insert_ne by done.
  - intros k Hk.
    rewrite !(prop_lookup _ _ _ _ H0), !(prop_lookup _ _ _ _ H1),
      !(prop_lookup _ _ _ _ H2), !(prop_lookup _ _ _ _ H3).
    by apply variant_copies.
Qed.

(** C5, as the code has it. For every sprite [s] of a loaded sheet, with
    [fx = s.flippedX] and [fy = s.flippedY]: [fx.flippedY] and
    [fy.flippedX] are one object [fxy], the version flipped in both
    axes; [fx.flippedX] and [fy.flippedY] lead back to [s]; the four
    versions carry the scales (1,1), (-1,1), (1,-1), (-1,-1) and agree on
    every property that locates the pixels ([_x], [_y], [size],
    [spritesheet], ...). But [fxy.flippedX] is [fx] and [fxy.flippedY] is
    [fy]: the copy that makes [fxy] takes the two links of [s] along, and
    nothing redirects them. *)
Theorem flipped_variants (json : SpriteJson)
    (dataPair : Image.Uint32Array * Image.Uint32Array)
    (st st' : Store) (sheet : Sheet) (x y : nat) (column : list loc)
    (s : loc) :
  loadSpritesheet json dataPair st = Ok (sheet, st') →
  grid sheet !! x = Some column →
  column !! y = Some s →
  ∃ fx fy fxy,
    (prop st' s "flippedX" = Some (Ref fx)
     ∧ prop st' s "flippedY" = Some (Ref fy)
     ∧ prop st' fx "flippedX" = Some (Ref s)
     ∧ prop st' fx "flippedY" = Some (Ref fxy)
     ∧ prop st' fy "flippedX" = Some (Ref fxy)
     ∧ prop st' fy "flippedY" = Some (Ref s)
     ∧ prop st' fxy "flippedX" = Some (Ref fx)
     ∧ prop st' fxy "flippedY" = Some (Ref fy))
    ∧ (prop st' s "scale" = Some (XY 1 1)
       ∧ prop st' fx "scale" = Some (XY (-1) 1)
       ∧ prop st' fy "scale" = Some (XY 1 (-1))
       ∧ prop st' fxy "scale" = Some (XY (-1) (-1)))
    ∧ ∀ k, k ∈ ["_x"; "_y"; "size"; "spritesheet"; "tileIndex"; "_tileX";
                "_tileY"; "_hasAlpha"; "_boundingRadius"; "id"]%string →
        prop st' fx k = prop st' s k
        ∧ prop st' fy k = prop st' s k
        ∧ prop st' fxy k = prop st' s k.
Proof.
  intros Hload Hx Hy.
  apply loadSpritesheet_grid, newGrid_spec in Hload as (_ & _ & Hgrid).
  pose proof (Hgrid x y column s Hx Hy) as Hs. simpl in Hs.
  apply spriteAt_props in Hs as (Hlinks & Hscales & _ & Hcopies).
  exists (S s), (S (S s)), (S (S (S s))).
  split; [exact Hlinks|]. split; [exact Hscales|].
  intros k Hk. apply Hcopies.
  repeat (apply elem_of_cons in Hk as [->|Hk]);
    [..|by apply elem_of_nil in Hk];
    intros H; repeat (apply elem_of_cons in H as [H|H]; [discriminate H|]);
    by apply elem_of_nil in H.
Qed.

Lemma flipped_variants_witness :
  ∃ fx fy fxy,
    (prop onePixelStore 0%nat "flippedX" = Some (Ref fx)
     ∧ prop onePixelStore 0%nat "flippedY" = Some (Ref fy)
     ∧ prop onePixelStore fx "flippedX" = Some (Ref 0%nat)
     ∧ prop onePixelStore fx "flippedY" = Some (Ref fxy)
     ∧ prop onePixelStore fy "flippedX" = Some (Ref fxy)
     ∧ prop onePixelStore fy "flippedY" = Some (Ref 0%nat)
     ∧ prop onePixelStore fxy "flippedX" = Some (Ref fx)
     ∧ prop onePixelStore fxy "flippedY" = Some (Ref fy))
    ∧ (prop onePixelStore 0%nat "scale" = Some (XY 1 1)
       ∧ prop onePixelStore fx "scale" = Some (XY (-1) 1)
       ∧ prop onePixelStore fy "scale" = Some (XY 1 (-1))
       ∧ prop onePixelStore fxy "scale" = Some (XY (-1) (-1)))
    ∧ ∀ k, k ∈ ["_x"; "_y"; "size"; "spritesheet"; "tileIndex"; "_tileX";
                "_tileY"; "_hasAlpha"; "_boundingRadius"; "id"]%string →
        prop onePixelStore fx k = prop onePixelStore 0%nat k
        ∧ prop onePixelStore fy k = prop onePixelStore 0%nat k
        ∧ prop onePixelStore fxy k = prop onePixelStore 0%nat k.
Proof.
  apply (flipped_variants onePixelSheet
           (Image.getImageData4BitAndFlip opaquePixel) emptyStore
           onePixelStore onePixelLoaded 0 0 [0%nat] 0%nat);
    vm_compute; reflexivity.
Defined.

(** C5 at one sprite: the version flipped in both axes, flipped once more
    horizontally, is the horizontally flipped version (scale (-1,1)), not
    the vertically flipped one (scale (1,-1)). *)
Example flipped_twice :
  prop onePixelStore 0%nat "flippedX" = Some (Ref 1%nat)
  ∧ prop onePixelStore 1%nat "flippedY" = Some (Ref 3%nat)
  ∧ prop onePixelStore 3%nat "flippedX" = Some (Ref 1%nat)
  ∧ prop onePixelStore 1%nat "scale" = Some (XY (-1) 1)
  ∧ prop onePixelStore 2%nat "scale" = Some (XY 1 (-1)).
Proof. vm_compute. repeat split; reflexivity. Qed.


Section animations.

Variable json : SpriteJson.
Variable grid : list (list loc).
Variable anim : jsstring.

#[local] Instance inGrid_dec (c : Z * Z) : Decision (inGrid json grid c).
Proof. unfold inGrid. destruct (tileOf json c). apply _. Defined.

Lemma lookupZ_some {A} (l : list A) (i : Z) :
  mjoin (lookupZ (Some <$> l) i) = lookupZ l i.
Proof.
  unfold lookupZ. destruct (i <? 0); [done|].
  rewrite list_lookup_fmap. by destruct (l !! Z.to_nat i).
Qed.

(** A read of an element of a sheet that holds the grid. *)
Lemma element_column (sheet : SheetObject) (u : Z) :
  holdsGrid grid sheet → 0 ≤ u →
  element sheet u
  = match grid !! Z.to_nat u with
    | Some column => GotArray (columnArray column)
    | None => GotUndefined
    end.
Proof.
  intros (_ & Helements & Hprototype) Hu. unfold element.
  rewrite Helements, Hprototype, lookup_map_seqZ_0, list_lookup_fmap by done.
  by destruct (grid !! Z.to_nat u).
Qed.

Lemma withAnimation_holdsGrid (a : SpriteArray) (sheet : SheetObject) :
  holdsGrid grid sheet → holdsGrid grid (withAnimation anim a sheet).
Proof. intros H. exact H. Qed.

Lemma update_name (f : SpriteArray → SpriteArray) (a : SpriteArray)
    (sheet : SheetObject) :
  place anim = AtName →
  update anim f (withAnimation anim a sheet)
  = Ok (withAnimation anim (f a) sheet).
Proof.
  intros Hplace. unfold update, withAnimation. rewrite Hplace.
  cbn [properties arrayLength elements prototype].
  by rewrite lookup_insert_eq, insert_insert_eq.
Qed.

Lemma assign_name (sheet : SheetObject) :
  place anim = AtName → prototype sheet = None →
  assign anim sheet
  = Ok (withAnimation anim {| frames := []; extrapolate := None |} sheet).
Proof.
  intros Hplace Hprototype. unfold assign, withAnimation.
  rewrite Hplace, Hprototype. by rewrite andb_false_r.
Qed.

Section frames.

Variable sheet : SheetObject.
Hypothesis Hplace : place anim = AtName.
Hypothesis Hgrid : holdsGrid grid sheet.

Lemma pushFrame_inside (y x : Z) (a : SpriteArray) :
  inGrid json grid (x, y) →
  pushFrame json anim y x (withAnimation anim a sheet)
  = Ok (withAnimation anim
          {| frames := frames a ++ [frameAt json grid (x, y)];
             extrapolate := extrapolate a |} sheet).
Proof.
  intros Hin. unfold pushFrame. cbv zeta.
  assert (Hframe :
    frameAt json grid (x, y)
    = (column ← lookupZ grid (if transpose json then y else x);
       lookupZ column (if transpose json then x else y))).
  { unfold frameAt, tileOf. by destruct (transpose json). }
  assert (Huv :
    0 ≤ (if transpose json then y else x) < Z.of_nat (length grid)
    ∧ 0 ≤ (if transpose json then x else y)
      < Z.of_nat (length (default [] (grid !! 0%nat)))).
  { unfold inGrid, tileOf in Hin. by destruct (transpose json). }
  rewrite Hframe. clear Hframe Hin. revert Huv.
  generalize (if transpose json then y else x)
             (if transpose json then x else y).
  intros u v [Hu Hv].
  pose proof (withAnimation_holdsGrid a sheet Hgrid) as Hgrid'.
  destruct Hgrid as (Hlength & _).
  change (arrayLength (withAnimation anim a sheet)) with (arrayLength sheet).
  rewrite Hlength.
  destruct (Z.ltb_spec u 0); [lia|].
  destruct (Z.leb_spec (Z.of_nat (length grid)) u); [lia|].
  destruct (Z.ltb_spec v 0); [lia|]. cbn [orb].
  rewrite !(element_column _ _ Hgrid') by lia.
  change (Z.to_nat 0) with 0%nat.
  destruct (grid !! 0%nat) as [first|] eqn:Hfirst.
  2: { apply lookup_ge_None in Hfirst. lia. }
  cbn [from_option id] in Hv.
  cbn [mbind result_bind columnArray frames].
  rewrite length_fmap.
  destruct (Z.leb_spec (Z.of_nat (length first)) v); [lia|].
  destruct (lookup_lt_is_Some_2 grid (Z.to_nat u)) as [column Hcolumn]; [lia|].
  rewrite Hcolumn. cbn [mbind result_bind columnArray frames].
  rewrite (update_name _ a sheet Hplace). do 3 f_equal.
  rewrite lookupZ_some.
  unfold lookupZ. destruct (Z.ltb_spec u 0); [lia|].
  by rewrite Hcolumn.
Qed.

Lemma pushFrame_outside (y x : Z) (a : SpriteArray) :
  ¬ inGrid json grid (x, y) →
  ∃ u v, pushFrame json anim y x (withAnimation anim a sheet)
         = Throw (AnimationBoundsError u v anim).
Proof.
  intros Hout. unfold pushFrame. cbv zeta.
  assert (Huv :
    ¬ (0 ≤ (if transpose json then y else x) < Z.of_nat (length grid)
       ∧ 0 ≤ (if transpose json then x else y)
         < Z.of_nat (length (default [] (grid !! 0%nat))))).
  { unfold inGrid, tileOf in Hout. by destruct (transpose json). }
  clear Hout. revert Huv.
  generalize (if transpose json then y else x)
             (if transpose json then x else y).
  intros u v Huv. exists u, v.
  pose proof (withAnimation_holdsGrid a sheet Hgrid) as Hgrid'.
  destruct Hgrid as (Hlength & _).
  change (arrayLength (withAnimation anim a sheet)) with (arrayLength sheet).
  rewrite Hlength.
  destruct (Z.ltb_spec u 0); [done|].
  destruct (Z.leb_spec (Z.of_nat (length grid)) u); [done|].
  destruct (Z.ltb_spec v 0); [done|]. cbn [orb].
  rewrite !(element_column _ _ Hgrid') by lia.
  change (Z.to_nat 0) with 0%nat.
  destruct (grid !! 0%nat) as [first|] eqn:Hfirst.
  2: { apply lookup_ge_None in Hfirst. lia. }
  cbn [from_option id] in Huv.
  cbn [mbind result_bind columnArray frames].
  rewrite length_fmap.
  destruct (Z.leb_spec (Z.of_nat (length first)) v); [done|]. lia.
Qed.

Lemma row_inside (y : Z) (xs : list Z) (a : SpriteArray) :
  Forall (λ x, inGrid json grid (x, y)) xs →
  for_each (pushFrame json anim y) xs (withAnimation anim a sheet)
  = Ok (withAnimation anim
          {| frames := frames a ++ ((λ x, frameAt json grid (x, y)) <$> xs);
             extrapolate := extrapolate a |} sheet).
Proof.
  intros Hxs. revert a.
  induction Hxs as [|x xs Hx _ IH]; intros a; simpl.
  - rewrite app_nil_r. by destruct a.
  - rewrite pushFrame_inside by done. simpl.
    rewrite IH. simpl. by rewrite <- app_assoc.
Qed.

Lemma row_outside (y : Z) (xs : list Z) (a : SpriteArray) :
  ¬ Forall (λ x, inGrid json grid (x, y)) xs →
  ∃ u v, for_each (pushFrame json anim y) xs (withAnimation anim a sheet)
         = Throw (AnimationBoundsError u v anim).
Proof.
  revert a. induction xs as [|x xs IH]; intros a Hout.
  - by destruct Hout.
  - simpl. destruct (decide (inGrid json grid (x, y))) as [Hin|Hno].
    + rewrite pushFrame_inside by done. simpl. apply IH.
      intros Hall. apply Hout. by constructor.
    + destruct (pushFrame_outside y x a Hno) as (u & v & ->).
      by exists u, v.
Qed.

Lemma cells_cons (y : Z) (ys xs : list Z) :
  cells (y :: ys) xs = ((λ x, (x, y)) <$> xs) ++ cells ys xs.
Proof.
  unfold cells. simpl. f_equal.
Qed.

Lemma rows_inside (ys xs : list Z) (a : SpriteArray) :
  Forall (inGrid json grid) (cells ys xs) →
  for_each (λ y sheet, for_each (pushFrame json anim y) xs sheet)
           ys (withAnimation anim a sheet)
  = Ok (withAnimation anim
          {| frames := frames a ++ (frameAt json grid <$> cells ys xs);
             extrapolate := extrapolate a |} sheet).
Proof.
  revert a. induction ys as [|y ys IH]; intros a Hall.
  - simpl. rewrite app_nil_r. by destruct a.
  - rewrite cells_cons in Hall |- *.
    apply Forall_app in Hall as [Hrow Hrest]. rewrite Forall_fmap in Hrow.
    cbn [for_each]. rewrite (row_inside y xs a Hrow).
    cbn [mbind result_bind]. rewrite IH by done. cbn [frames extrapolate].
    by rewrite fmap_app, <- list_fmap_compose, <- app_assoc.
Qed.

Lemma rows_outside (ys xs : list Z) (a : SpriteArray) :
  ¬ Forall (inGrid json grid) (cells ys xs) →
  ∃ u v,
    for_each (λ y sheet, for_each (pushFrame json anim y) xs sheet)
             ys (withAnimation anim a sheet)
    = Throw (AnimationBoundsError u v anim).
Proof.
  revert a. induction ys as [|y ys IH]; intros a Hout.
  - by destruct Hout.
  - simpl.
    destruct (decide (Forall (λ x, inGrid json grid (x, y)) xs)) as [Hin|Hno].
    + rewrite row_inside by done. simpl. apply IH.
      intros Hall. apply Hout. rewrite cells_cons. apply Forall_app.
      split; [|done]. by apply Forall_fmap.
    + destruct (row_outside y xs a Hno) as (u & v & ->).
      by exists u, v.
Qed.

End frames.

(** The source against the claim's words: the form check, the defaults
    and the line check of [animRange] are those of [specEnds]. *)
Lemma animRange_spec (data : AnimJson) :
  match specEnds data with
  | None => animRange anim data = Throw (AnimationFormError anim)
  | Some (s, e, policy) =>
      (diagonal s e → animRange anim data = Throw (AnimationLineError anim))
      ∧ (¬ diagonal s e →
         ∃ given,
           animRange anim data
           = Ok {| range_start := s; range_end := e;
                   range_extrapolate := given |}
           ∧ policy = match given with
                      | None | Some [] => js "loop"
                      | Some p => p
                      end)
  end.
Proof.
  unfold specEnds, animRange, diagonal.
  destruct data as [ax ay [[sx sy]|] end_ ex], ax as [x|]; simpl; try done.
  - (* the range *)
    destruct end_ as [[[ex'|] [ey'|]]|]; simpl;
      try destruct sx; try destruct sy; simpl;
      repeat case_bool_decide; simpl;
      (split; [intros [Hx Hy]; first [done | exfalso; naive_solver]|]);
      intros Hline; try (exfalso; naive_solver);
      eexists; (split; [reflexivity|done]).
  - (* the single cell *)
    destruct ay; simpl; repeat case_bool_decide; simpl;
      (split; [intros [Hx Hy]; first [done | exfalso; naive_solver]|]);
      intros Hline; try (exfalso; naive_solver);
      eexists; (split; [reflexivity|done]).
Qed.


End animations.

(** The sheet that the grid loops leave holds the grid. *)
Lemma sheetObject_holdsGrid (json : SpriteJson)
    (dataPair : Image.Uint32Array * Image.Uint32Array)
    (grid : list (list loc)) :
  holdsGrid grid (sheetObject json dataPair grid).
Proof. by repeat split. Qed.



(** The example of C6 on a sheet: the image is three pixels wide and one
    high, the sprites are single pixels, and the animation [run] goes
    from (0,0) to (2,0). Its frames are the sprites of the tiles (0,0),
    (1,0) and (2,0) in that order. *)
Example run_animation_of_a_sheet :
  loadSpritesheet threeByOneNamed
    (Image.getImageData4BitAndFlip threePixels) emptyStore
  = Ok (threePixelsLoaded, threePixelsStore)
  ∧ grid threePixelsLoaded = [[0]; [4]; [8]]%nat
  ∧ animationOf (js "run") (object threePixelsLoaded)
    = Some {| frames := [Some 0; Some 4; Some 8]%nat;
              extrapolate := Some (js "loop") |}
  ∧ prop threePixelsStore 0%nat "tileIndex" = Some (XY 0 0)
  ∧ prop threePixelsStore 4%nat "tileIndex" = Some (XY 1 0)
  ∧ prop threePixelsStore 8%nat "tileIndex" = Some (XY 2 0).
Proof.
  split; [|split; [|split; [|split; [|split]]]]; vm_compute; reflexivity.
Qed.

Example diagonal_animation :
  loadAnimation threeByOne (js "run")
    {| anim_x := None; anim_y := None;
       anim_start := Some {| cx := Some 0; cy := Some 0 |};
       anim_end := Some {| cx := Some 1; cy := Some 1 |};
       anim_extrapolate := None |} threePixelsSheet
  = Throw (AnimationLineError (js "run")).
Proof. reflexivity. Qed.

(** Entries stored over the sheet itself. Under the name [length] the
    array is emptied and the policy has no array to go to; under the
    name [3] the array grows by the animation, which then reads itself
    as a fourth column; under the name [__proto__] the animation becomes
    the prototype of the sheet, and a later entry named [extrapolate]
    cannot be stored. *)
Example animations_over_the_sheet :
  loadAnimation threeByOne (js "length") backwardsAnimation threePixelsSheet
    = Throw TypeError
  ∧ (animationOf (js "3")
       <$> loadAnimation threeByOne (js "3")
             {| anim_x := None; anim_y := None;
                anim_start := Some {| cx := Some 2; cy := Some 0 |};
                anim_end := Some {| cx := Some 3; cy := Some 0 |};
                anim_extrapolate := None |} threePixelsSheet)
    = Ok (Some {| frames := [Some 8; Some 8]%nat;
                  extrapolate := Some (js "loop") |})
  ∧ (animationOf (js "__proto__")
       <$> loadAnimation threeByOne (js "__proto__") runAnimation
             threePixelsSheet)
    = Ok (Some {| frames := [Some 0; Some 4; Some 8]%nat;
                  extrapolate := Some (js "loop") |})
  ∧ loadAnimations threeByOne
      [(js "__proto__", runAnimation); (js "extrapolate", runAnimation)]
      threePixelsSheet
    = Throw TypeError.
Proof. repeat split; vm_compute; reflexivity. Qed.

End SpritesFacts.

(** ** Tile maps *)

Module TileMapFacts.

Import Sprites TileMap JSFacts SpritesFacts.

Lemma tileFlipX_bit (gid : Z) :
  0 ≤ gid < 2 ^ 32 → tileFlipX gid = Z.testbit gid 31.
Proof.
  intros Hgid. unfold tileFlipX, JS.and.
  change (ToInt32 0x80000000) with (- 2 ^ 31).
  destruct (Z.lt_ge_cases gid (2 ^ 31)) as [Hlow|Hhigh].
  - assert (ToInt32 gid = gid) as ->.
    { unfold ToInt32. rewrite Z.mod_small; lia. }
    assert (Z.land gid (- 2 ^ 31) = 0) as ->.
    { apply Z.bits_inj'. intros n Hn. rewrite Z.land_spec, Z.bits_0.
      destruct (Z.lt_ge_cases n 31).
      - replace (- 2 ^ 31) with (Z.shiftl (-1) 31) by reflexivity.
        rewrite Z.shiftl_spec_low by lia. apply andb_false_r.
      - rewrite (Z.bits_above_log2 gid n); [done|lia|].
        destruct (Z.eq_dec gid 0) as [->|]; [simpl; lia|].
        apply Z.lt_le_trans with 31; [|lia].
        apply Z.log2_lt_pow2; lia. }
    change (negb (0 =? 0)) with false.
    symmetry. apply Z.bits_above_log2; [lia|].
    destruct (Z.eq_dec gid 0) as [->|]; [simpl; lia|].
    apply Z.log2_lt_pow2; lia.
  - assert (ToInt32 gid = gid - 2 ^ 32) as ->.
    { unfold ToInt32.
      replace (gid + 2 ^ 31) with (gid - 2 ^ 31 + 1 * 2 ^ 32) by lia.
      rewrite Z_mod_plus_full, Z.mod_small; lia. }
    assert (Z.land (gid - 2 ^ 32) (- 2 ^ 31) < 0) as Hneg.
    { apply Z.land_neg. lia. }
    destruct (Z.eqb_spec (Z.land (gid - 2 ^ 32) (- 2 ^ 31)) 0); [lia|].
    change (negb false) with true.
    symmetry. apply Z.testbit_true; [lia|].
    replace (gid / 2 ^ 31) with 1; [done|].
    apply Z.div_unique with (gid - 2 ^ 31); lia.
Qed.

Lemma land_pow2 (a n : Z) :
  0 ≤ n → Z.land a (2 ^ n) = if Z.testbit a n then 2 ^ n else 0.
Proof.
  intros Hn. apply Z.bits_inj'. intros m Hm. rewrite Z.land_spec.
  rewrite Z.pow2_bits_eqb by done.
  destruct (Z.eqb_spec n m) as [->|Hne].
  - rewrite andb_true_r. destruct (Z.testbit a m) eqn:E.
    + by rewrite Z.pow2_bits_true.
    + by rewrite Z.bits_0.
  - rewrite andb_false_r. destruct (Z.testbit a n).
    + by rewrite Z.pow2_bits_false.
    + by rewrite Z.bits_0.
Qed.

Lemma tileFlipY_bit (gid : Z) : tileFlipY gid = Z.testbit gid 30.
Proof.
  unfold tileFlipY, JS.and.
  change (ToInt32 0x40000000) with (2 ^ 30).
  rewrite land_pow2, ToInt32_bit by lia.
  by destruct (Z.testbit gid 30).
Qed.

Lemma tmxIndex_low_bits (gid : Z) : tmxIndex gid = gid mod 2 ^ 28 - 1.
Proof.
  unfold tmxIndex, JS.and.
  change (ToInt32 0x0fffffff) with (Z.ones 28).
  rewrite Z.land_ones by lia. f_equal.
  rewrite <- (Z.mod_mod_divide (ToInt32 gid) (2 ^ 32) (2 ^ 28))
    by (by exists (2 ^ 4)).
  rewrite ToInt32_mod. apply Z.mod_mod_divide. by exists (2 ^ 4).
Qed.

Lemma member_flippedX (json : SpriteJson) (st : Store) (s : loc) (u v : Z) :
  spriteAt json st s u v →
  member (heap st) (Some s) "flippedX" = Ok (Some (S s))
  ∧ member (heap st) (Some s) "flippedY" = Ok (Some (S (S s)))
  ∧ member (heap st) (Some (S s)) "flippedY" = Ok (Some (S (S (S s)))).
Proof.
  intros Hs. apply spriteAt_props in Hs as ((Hx & Hy & _ & Hxy & _) & _).
  unfold prop in *. unfold member. by rewrite Hx, Hy, Hxy.
Qed.

(** C2. For a grid id [gid] of 32 bits and a sheet as [loadSpritesheet]
    builds it: bit 31 is the horizontal flip flag and bit 30 the vertical
    one; the low 28 bits less one are the index [i]; a [gid] whose low
    28 bits are zero, [0] among them, gives an empty cell; otherwise the
    cell holds the sprite of column [i mod columns] and row
    [i / columns] of the sheet, in the version the two flags select. The
    id [0x80000001] on four columns is cell (0,0), flipped
    horizontally. *)
Theorem gid_decoding (json : SpriteJson) (st : Store)
    (spritesheet : list (list loc)) (columns gid : Z) :
  0 ≤ gid < 2 ^ 32 →
  0 < columns →
  gridAt json st spritesheet →
  let i := gid mod 2 ^ 28 - 1 in
  tileFlipX gid = Z.testbit gid 31
  ∧ tileFlipY gid = Z.testbit gid 30
  ∧ tmxIndex gid = i
  ∧ (gid = 0 → tileSprite (heap st) spritesheet columns gid = Ok None)
  ∧ (i < 0 → tileSprite (heap st) spritesheet columns gid = Ok None)
  ∧ (∀ column s,
       0 ≤ i →
       spritesheet !! Z.to_nat (i mod columns) = Some column →
       column !! Z.to_nat (i / columns) = Some s →
       ∃ fx fy fxy,
         prop st s "flippedX" = Some (Ref fx)
         ∧ prop st s "flippedY" = Some (Ref fy)
         ∧ prop st fx "flippedY" = Some (Ref fxy)
         ∧ prop st fx "scale" = Some (XY (-1) 1)
         ∧ prop st fy "scale" = Some (XY 1 (-1))
         ∧ prop st fxy "scale" = Some (XY (-1) (-1))
         ∧ tileSprite (heap st) spritesheet columns gid
           = Ok (Some (match Z.testbit gid 31, Z.testbit gid 30 with
                       | false, false => s
                       | true, false => fx
                       | false, true => fy
                       | true, true => fxy
                       end)))
  ∧ (tileFlipX 0x80000001 = true
     ∧ tileFlipY 0x80000001 = false
     ∧ tmxIndex 0x80000001 = 0
     ∧ 0 mod 4 = 0 ∧ 0 / 4 = 0).
Proof.
  intros Hgid Hcols Hgrid i.
  pose proof (tileFlipX_bit gid Hgid) as HX.
  pose proof (tileFlipY_bit gid) as HY.
  pose proof (tmxIndex_low_bits gid) as HI. fold i in HI.
  split; [done|]. split; [done|]. split; [done|].
  assert (Hempty : i < 0 →
            tileSprite (heap st) spritesheet columns gid = Ok None).
  { intros Hi. unfold tileSprite. rewrite HI.
    by destruct (Z.leb_spec 0 i); [lia|]. }
  split; [intros ->; by apply Hempty|]. split; [exact Hempty|].
  split; [|by vm_compute].
  intros column s Hi Hcolumn Hs.
  assert (0 ≤ i mod columns < columns) by (apply Z.mod_pos_bound; lia).
  assert (0 ≤ i / columns) by (apply Z.div_pos; lia).
  assert (Hsprite : spriteAt json st s
            (if transpose json then Z.of_nat (Z.to_nat (i / columns))
             else Z.of_nat (Z.to_nat (i mod columns)))
            (if transpose json then Z.of_nat (Z.to_nat (i mod columns))
             else Z.of_nat (Z.to_nat (i / columns)))).
  { by apply (Hgrid _ _ column s Hcolumn Hs). }
  pose proof (member_flippedX _ _ _ _ _ Hsprite) as (Hmx & Hmy & Hmxy).
  apply spriteAt_props in Hsprite
    as ((Hx & Hy & _ & Hxy & _) & (_ & Hsx & Hsy & Hsxy) & _).
  exists (S s), (S (S s)), (S (S (S s))).
  split; [done|]. split; [done|]. split; [done|].
  split; [done|]. split; [done|]. split; [done|].
  unfold tileSprite. rewrite HI, HX, HY.
  destruct (Z.leb_spec 0 i); [|lia].
  destruct (Z.eqb_spec columns 0); [lia|].
  rewrite Z.rem_mod_nonneg by lia.
  unfold lookupZ.
  destruct (Z.ltb_spec (i mod columns) 0); [lia|]. rewrite Hcolumn.
  destruct (Z.ltb_spec (i / columns) 0); [lia|]. rewrite Hs.
  destruct (Z.testbit gid 31), (Z.testbit gid 30);
    rewrite ?Hmx; cbn [mbind result_bind];
    rewrite ?Hmxy, ?Hmy; reflexivity.
Qed.

Lemma gid_decoding_witness :
  ∃ fx,
    prop onePixelStore 0%nat "flippedX" = Some (Ref fx)
    ∧ prop onePixelStore fx "scale" = Some (XY (-1) 1)
    ∧ tileSprite (heap onePixelStore) [[0%nat]] 4 0x80000001 = Ok (Some fx).
Proof.
  destruct (gid_decoding onePixelSheet onePixelStore [[0%nat]] 4 0x80000001)
    as (_ & _ & _ & _ & _ & Hcell & _).
  - lia.
  - lia.
  - apply (newGrid_spec onePixelSheet
             (Image.getImageData4BitAndFlip opaquePixel).1 emptyStore).
    vm_compute. reflexivity.
  - destruct (Hcell [0%nat] 0%nat)
      as (fx & fy & fxy & Hfx & _ & _ & Hscale & _ & _ & Hrun);
      [vm_compute; discriminate | reflexivity | reflexivity |].
    exists fx. split; [exact Hfx|]. split; [exact Hscale|]. exact Hrun.
Defined.

Example gid_zero_is_empty :
  tileSprite (heap onePixelStore) [[0%nat]] 4 0 = Ok None.
Proof. reflexivity. Qed.

Example gid_flags_only_is_empty :
  tileSprite (heap onePixelStore) [[0%nat]] 4 0xC0000000 = Ok None.
Proof. reflexivity. Qed.

Example gid_both_flips :
  tileSprite (heap onePixelStore) [[0%nat]] 4 0xC0000001 = Ok (Some 3%nat).
Proof. vm_compute. reflexivity. Qed.

End TileMapFacts.

(** ** The literal parser *)

Module ParserFacts.

Import Parser ParserVocab.

Lemma span_all (p : Z → bool) (l : jsstring) :
  Forall (λ c, p c = true) l → span p l = length l.
Proof.
  induction 1 as [|c l Hc _ IH]; simpl; [done|]. by rewrite Hc, IH.
Qed.

Lemma span_head (p : Z → bool) (c : Z) (l : jsstring) :
  p c = false → span p (c :: l) = 0%nat.
Proof. intros H. simpl. by rewrite H. Qed.

(** The loop of line 941 runs to the end of a text in which every quote
    follows a backslash. *)
Lemma stringLength_unterminated (prev : Z) (s : jsstring) :
  quotesEscaped prev s → stringLength prev s = length s.
Proof.
  revert prev. induction s as [|c s IH]; intros prev Hs; simpl; [done|].
  destruct Hs as [Hc Hs].
  destruct (Z.eqb_spec c 34) as [E|_]; simpl.
  - rewrite (Hc E). simpl. by rewrite IH.
  - by rewrite IH.
Qed.

Section parse.

Variable parseFloat : jsstring → float.

(** The only exception of the parser: every position from [i] to the end
    of the source holds a space, a tab or a newline. *)
Lemma blank_rest_throws (fuel : nat) (source : jsstring) (i : nat) :
  Forall (λ c, c ∈ blank) (drop i source) →
  _parse parseFloat (S fuel) source i = Some (Throw (HitTheEnd source)).
Proof.
  intros Hblank. simpl. unfold skip.
  rewrite span_all.
  2: { eapply Forall_impl; [exact Hblank|]. intros c Hc. by apply bool_decide_eq_true. }
  rewrite lookup_ge_None_2; [done|]. rewrite length_drop. lia.
Qed.

Lemma unterminated_string_returns (fuel : nat) (s : jsstring) :
  quotesEscaped 34 s →
  _parse parseFloat (S fuel) (34 :: s) 0
  = Some (Ok (VString s, (length s + 2)%nat)).
Proof.
  intros Hs. simpl. unfold skip. simpl. rewrite drop_0.
  rewrite stringLength_unterminated by done.
  unfold substring. simpl. rewrite Nat.sub_0_r, firstn_all.
  do 4 f_equal. lia.
Qed.

Lemma empty_atom_returns (fuel : nat) (source : jsstring) (i : nat) (c : Z) :
  source !! i = Some c →
  c ∈ [44; 58; 93; 125] →
  _parse parseFloat (S fuel) source i
  = Some (Ok (VNumber (parseFloat []), S i)).
Proof.
  intros Hi Hc.
  assert (Hdrop : drop i source = c :: drop (S i) source).
  { by apply drop_S. }
  assert (Hskip : skip blank source i = i).
  { unfold skip. rewrite Hdrop, span_head; [lia|].
    apply bool_decide_eq_false.
    set_unfold. unfold blank. set_unfold. lia. }
  assert (Hend : regexIndexOf source atomSeparator i = i).
  { unfold regexIndexOf. rewrite Hdrop. simpl.
    rewrite decide_True; [done|].
    apply bool_decide_eq_true. set_unfold. lia. }
  simpl. rewrite Hskip, Hi.
  destruct (Z.eqb_spec c 34) as [->|_]; [set_unfold; lia|].
  destruct (Z.eqb_spec c 91) as [->|_]; [set_unfold; lia|].
  destruct (Z.eqb_spec c 123) as [->|_]; [set_unfold; lia|].
  unfold parseAtom. rewrite Hend. unfold substring.
  rewrite Nat.sub_diag. simpl. reflexivity.
Qed.

(** C7, amended: [parse] raises the end-of-input error whenever nothing
    but spaces, tabs and newlines lies between the offset it is asked to
    read a value at and the end of the source, the empty source included.
    An empty atom (the offset holds a comma, a colon or a closing bracket)
    is no error: it is the number [parseFloat('')]. A quoted string that
    is never closed, every quote after the opening one following a
    backslash, is no error either: it is the text after its opening
    quote, and the next offset lies behind the end of the source. *)
Theorem parse_end_of_input :
  (∀ source i,
     Forall (λ c, c ∈ blank) (drop i source) →
     parse parseFloat source i = Some (Throw (HitTheEnd source)))
  ∧ (∀ source i c,
       source !! i = Some c → c ∈ [44; 58; 93; 125] →
       parse parseFloat source i = Some (Ok (VNumber (parseFloat []), S i)))
  ∧ (∀ s,
       quotesEscaped 34 s →
       parse parseFloat (34 :: s) 0 = Some (Ok (VString s, (length s + 2)%nat))).
Proof.
  assert (Hfuel : ∀ source : jsstring,
            ∃ fuel, (2 * length source + 2)%nat = S fuel).
  { intros source. exists (2 * length source + 1)%nat. lia. }
  unfold parse. split; [|split].
  - intros source i H. destruct (Hfuel source) as [fuel ->].
    by apply blank_rest_throws.
  - intros source i c Hi Hc. destruct (Hfuel source) as [fuel ->].
    by eapply empty_atom_returns.
  - intros s Hs. destruct (Hfuel (34 :: s)) as [fuel ->].
    by apply unterminated_string_returns.
Qed.

End parse.

(** C7, as stated, fails: an unterminated quoted string, an unclosed array
    and an unclosed table each come back as a value. The sources are the
    four code units of an opening quote and [abc], then [[true] and
    [{a:true]. *)
Lemma unterminated_input_returns :
  parse (λ _, nan) (34 :: js "abc") 0
    = Some (Ok (VString (js "abc"), 5%nat))
  ∧ parse (λ _, nan) (js "[true") 0
    = Some (Ok (VArray [VBool true], 7%nat))
  ∧ parse (λ _, nan) (js "{a:true") 0
    = Some (Ok (VTable (<[js "a" := VBool true]> ∅), 9%nat)).
Proof. vm_compute. repeat split; reflexivity. Qed.

(** An unterminated string that holds an escaped quote: the source is an
    opening quote, [abc], a backslash and a quote. *)
Example unterminated_string_with_escaped_quote :
  parse (λ _, nan) (34 :: js "abc\" ++ [34]) 0
  = Some (Ok (VString (js "abc\" ++ [34]), 7%nat)).
Proof. vm_compute. reflexivity. Qed.

Example parse_empty_source :
  parse (λ _, nan) [] 0 = Some (Throw (HitTheEnd [])).
Proof. vm_compute. reflexivity. Qed.

Example parse_table_without_value :
  parse (λ _, nan) (js "{a:") 0 = Some (Throw (HitTheEnd (js "{a:"))).
Proof. vm_compute. reflexivity. Qed.

Example parse_nil :
  parse (λ _, nan) (js "nil") 0 = Some (Ok (VUndefined, 4%nat)).
Proof. vm_compute. reflexivity. Qed.

Example parse_half :
  parse (λ _, nan) [189] 0 = Some (Ok (VNumber 0.5, 2%nat)).
Proof. vm_compute. reflexivity. Qed.

(** C8 at the failing inputs: the token [π] is looked up as [Math.pi],
    a property the [Math] object does not have (its constant is
    [Math.PI]), so the result is [undefined]; the token [-π] negates
    that and gives [NaN]. The fraction glyphs of the table do give their
    values, with and without a minus sign. *)
Theorem parse_pi (parseFloat : jsstring → float) :
  parse parseFloat [pi_glyph] 0 = Some (Ok (VUndefined, 2%nat))
  ∧ parse parseFloat [45; pi_glyph] 0 = Some (Ok (VNumber nan, 3%nat))
  ∧ Math_value "PI" = VNumber 0x1.921fb54442d18p+1
  ∧ Forall (λ '(glyph, (n, d)),
              parse parseFloat [glyph] 0
                = Some (Ok (VNumber (Number_of_Z n / Number_of_Z d), 2%nat))
              ∧ parse parseFloat [45; glyph] 0
                = Some (Ok (VNumber (- Number_of_Z n / Number_of_Z d), 3%nat)))
           fractions.
Proof.
  split; [vm_compute; reflexivity|].
  split; [vm_compute; reflexivity|].
  split; [vm_compute; reflexivity|].
  unfold fractions. repeat constructor; vm_compute; reflexivity.
Qed.

End ParserFacts.

(** ** Colours of hexadecimal digits *)

Module HexDigitsFacts.

Import Hex HexDigits.

Lemma hexDigit_chars (c : Z) : is_Some (hexDigit c) → c ∈ hexChars.
Proof.
  unfold hexDigit. intros H.
  destruct (Z.leb_spec 48 c), (Z.leb_spec c 57); simpl in H.
  { assert (Hc : c = 48 ∨ c = 49 ∨ c = 50 ∨ c = 51 ∨ c = 52 ∨ c = 53
                 ∨ c = 54 ∨ c = 55 ∨ c = 56 ∨ c = 57) by lia.
    repeat (destruct Hc as [->|Hc]); try subst c; set_solver. }
  all: destruct (Z.leb_spec 97 c), (Z.leb_spec c 102); simpl in H;
    try (assert (Hc : c = 97 ∨ c = 98 ∨ c = 99 ∨ c = 100 ∨ c = 101 ∨ c = 102)
           by lia;
         repeat (destruct Hc as [->|Hc]); try subst c; set_solver).
  all: destruct (Z.leb_spec 65 c), (Z.leb_spec c 70); simpl in H;
    try (assert (Hc : c = 65 ∨ c = 66 ∨ c = 67 ∨ c = 68 ∨ c = 69 ∨ c = 70)
           by lia;
         repeat (destruct Hc as [->|Hc]); try subst c; set_solver).
  all: by destruct H.
Qed.

(** One digit is the same level as the digit doubled. *)
Lemma parseHex_doubled (c : Z) :
  is_Some (hexDigit c) → parseHex [c] = parseHex [c; c].
Proof.
  intros H. apply hexDigit_chars in H. unfold hexChars in H.
  repeat (apply elem_of_cons in H as [->|H]; [vm_compute; reflexivity|]).
  by apply elem_of_nil in H.
Qed.

Lemma parseHex_digit_unit (c : Z) :
  is_Some (hexDigit c) → inUnit (parseHex [c]) = true.
Proof.
  intros H. apply hexDigit_chars in H.
  assert (Hall : forallb (λ c, inUnit (parseHex [c])) hexChars = true)
    by (vm_compute; reflexivity).
  rewrite forallb_forall in Hall. by apply Hall, list_elem_of_In.
Qed.

Lemma parseHex_pair_unit (c1 c2 : Z) :
  is_Some (hexDigit c1) → is_Some (hexDigit c2) →
  inUnit (parseHex [c1; c2]) = true.
Proof.
  intros H1 H2. apply hexDigit_chars in H1, H2.
  assert (Hall : forallb (λ c1, forallb (λ c2, inUnit (parseHex [c1; c2]))
                                  hexChars) hexChars = true)
    by (vm_compute; reflexivity).
  rewrite forallb_forall in Hall.
  apply list_elem_of_In, Hall in H1. rewrite forallb_forall in H1.
  by apply H1, list_elem_of_In.
Qed.

(** X16. For hexadecimal digits [r], [g], [b], [a] the short forms are
    the long forms with every digit doubled, to the last bit of every
    channel: [RGB] is [RRGGBB], [RGBA] is [RRGGBBAA], and the gray [Y] is
    [YY]. *)
Theorem short_forms (r g b a : Z) :
  is_Some (hexDigit r) → is_Some (hexDigit g) → is_Some (hexDigit b) →
  is_Some (hexDigit a) →
  parseHexColor [r; g; b] = parseHexColor [r; r; g; g; b; b]
  ∧ parseHexColor [r; g; b; a] = parseHexColor [r; r; g; g; b; b; a; a]
  ∧ parseHexColor [r] = parseHexColor [r; r].
Proof.
  intros Hr Hg Hb Ha. unfold parseHexColor. cbn -[parseHex].
  by rewrite (parseHex_doubled r), (parseHex_doubled g), (parseHex_doubled b),
    (parseHex_doubled a).
Qed.

(** X17. Every channel of a colour that [parseHexColor] returns for a
    text of hexadecimal digits lies between 0 and 1. *)
Theorem channels_in_unit (str : jsstring) (c : Color) :
  Forall (λ d, is_Some (hexDigit d)) str →
  parseHexColor str = Ok c →
  inUnit (Hex.r c) = true ∧ inUnit (Hex.g c) = true
  ∧ inUnit (Hex.b c) = true ∧ inUnit (Hex.a c) = true.
Proof.
  intros Hstr Hrun.
  assert (Hone : inUnit 1 = true) by reflexivity.
  destruct str as [|c1 [|c2 [|c3 [|c4 [|c5 [|c6 [|c7 [|c8 [|c9 str]]]]]]]]];
    try discriminate Hrun;
    repeat match goal with
           | H : Forall _ (_ :: _) |- _ =>
               apply Forall_cons in H as [? H]
           end;
    unfold parseHexColor in Hrun; cbn -[parseHex] in Hrun;
    injection Hrun as <-; cbn [Hex.r Hex.g Hex.b Hex.a];
    repeat split;
    first [exact Hone | by apply parseHex_digit_unit
          | by apply parseHex_pair_unit].
Qed.

Lemma short_forms_witness :
  parseHexColor (js "F0a") = parseHexColor (js "FF00aa")
  ∧ parseHexColor (js "F0a8") = parseHexColor (js "FF00aa88")
  ∧ parseHexColor (js "F") = parseHexColor (js "FF").
Proof.
  apply (short_forms 70 48 97 56); by eexists.
Defined.

Lemma channels_in_unit_witness :
  inUnit 1 = true ∧ inUnit (128 / 255) = true
  ∧ inUnit 0 = true ∧ inUnit 1 = true.
Proof.
  apply (channels_in_unit (js "FF8000")
           {| r := 1; g := 128 / 255; b := 0; a := 1 |}).
  - repeat constructor; by eexists.
  - vm_compute. reflexivity.
Defined.

End HexDigitsFacts.

(** ** URLs *)

Module UrlFacts.

Import Url.

Lemma noSlash_spec (c : Z) (s : jsstring) :
  forallb (λ x, negb (x =? c)) s = true ↔ c ∉ s.
Proof.
  induction s as [|x s IH]; simpl.
  - split; [intros _; apply not_elem_of_nil|done].
  - rewrite andb_true_iff, IH, not_elem_of_cons, negb_true_iff, Z.eqb_neq.
    split; intros [H1 H2]; split; congruence.
Qed.

Lemma noSlash_false (c : Z) (s : jsstring) :
  c ∈ s → forallb (λ x, negb (x =? c)) s = false.
Proof.
  intros H. apply not_true_is_false. rewrite noSlash_spec. tauto.
Qed.

Lemma stripQuery_plain (s : jsstring) : 63 ∉ s → stripQuery s = s.
Proof.
  induction s as [|c s IH]; [done|]. intros [Hc Hs]%not_elem_of_cons.
  simpl. destruct (Z.eqb_spec c 63); [done|]. simpl. by rewrite IH.
Qed.

Lemma stripFile_plain (s : jsstring) : 47 ∉ s → stripFile s = s.
Proof.
  induction s as [|c s IH]; [done|]. intros [Hc Hs]%not_elem_of_cons.
  simpl. destruct (Z.eqb_spec c 47); [done|]. simpl. by rewrite IH.
Qed.

Lemma stripFile_last (a b : jsstring) :
  47 ∉ b → stripFile (a ++ 47 :: b) = a ++ [47].
Proof.
  intros Hb. induction a as [|x a IH]; simpl.
  - by rewrite (proj2 (noSlash_spec 47 b) Hb).
  - rewrite (noSlash_false 47 (a ++ 47 :: b)), andb_false_r, IH; [done|].
    set_solver.
Qed.

Lemma lastIndexOfFrom_none (c : Z) (s : jsstring) (i found : Z) :
  c ∉ s → lastIndexOfFrom c s i found = found.
Proof.
  revert i. induction s as [|x s IH]; intros i; [done|].
  intros [Hc Hs]%not_elem_of_cons. simpl.
  destruct (Z.eqb_spec x c); [congruence|]. by apply IH.
Qed.

Lemma lastIndexOfFrom_last (c : Z) (a b : jsstring) (i found : Z) :
  c ∉ b →
  lastIndexOfFrom c (a ++ c :: b) i found = i + Z.of_nat (length a).
Proof.
  intros Hb. revert i found. induction a as [|x a IH]; intros i found.
  - simpl. rewrite Z.eqb_refl, lastIndexOfFrom_none by done. lia.
  - cbn [app lastIndexOfFrom]. rewrite IH. cbn [length]. lia.
Qed.

Lemma urlFile_plain (s : jsstring) : 47 ∉ s → urlFile s = s.
Proof.
  intros Hs. unfold urlFile, lastIndexOf.
  by rewrite lastIndexOfFrom_none by done.
Qed.

Lemma urlFile_last (a b : jsstring) : 47 ∉ b → urlFile (a ++ 47 :: b) = b.
Proof.
  intros Hb. unfold urlFile, lastIndexOf.
  rewrite lastIndexOfFrom_last by done.
  replace (Z.to_nat (0 + Z.of_nat (length a) + 1)) with (length (a ++ [47]))
    by (rewrite length_app; simpl; lia).
  rewrite (cons_middle 47 a b), app_assoc. by rewrite drop_app_length.
Qed.

Lemma urlDir_last (a b : jsstring) :
  63 ∉ a → 63 ∉ b → 47 ∉ b → urlDir (a ++ 47 :: b) = a ++ [47].
Proof.
  intros Ha Hq Hb. unfold urlDir.
  rewrite stripQuery_plain by set_solver. by apply stripFile_last.
Qed.

(** X18. A URL without a question mark that holds a slash is
    [urlDir(url)] followed by [urlFile(url)]; the directory ends with
    the last slash and the file holds none. Without a slash both
    functions return the URL itself: [urlDir] then names no
    directory. *)
Theorem urlDir_urlFile (url : jsstring) :
  63 ∉ url →
  (47 ∈ url →
     urlDir url ++ urlFile url = url
     ∧ last (urlDir url) = Some 47
     ∧ 47 ∉ urlFile url)
  ∧ (47 ∉ url → urlDir url = url ∧ urlFile url = url).
Proof.
  intros Hq. split.
  - intros (a & b & -> & Hb)%list_elem_of_split_r.
    rewrite urlDir_last, urlFile_last by set_solver.
    split; [by rewrite <- app_assoc|]. split; [by rewrite last_snoc|done].
  - intros Hs. split; [|by apply urlFile_plain].
    unfold urlDir. rewrite stripQuery_plain by done. by apply stripFile_plain.
Qed.

Lemma urlDir_urlFile_witness :
  urlDir (js "games/quest/hero.sprite.json")
    ++ urlFile (js "games/quest/hero.sprite.json")
  = js "games/quest/hero.sprite.json"
  ∧ last (urlDir (js "games/quest/hero.sprite.json")) = Some 47
  ∧ 47 ∉ urlFile (js "games/quest/hero.sprite.json").
Proof.
  apply (urlDir_urlFile (js "games/quest/hero.sprite.json")).
  - vm_compute. set_solver.
  - vm_compute. set_solver.
Defined.

Lemma substitute_plain (matched after r : jsstring) :
  36 ∉ r → substitute matched after r = r.
Proof.
  induction r as [|c r IH]; [done|]. intros [Hc Hr]%not_elem_of_cons.
  cbn [substitute]. rewrite IH by done.
  destruct c as [|p|p]; try done.
  do 6 (destruct p as [p|p|]; try done).
Qed.

Lemma quadScheme_colon (s : jsstring) : quadScheme s = true → 58 ∈ s.
Proof.
  unfold quadScheme, startsWith. intros H.
  apply orb_true_iff in H as [H|H]; apply bool_decide_eq_true in H;
    apply (subseteq_take 7); change 7%nat with (length (js "nano://"));
    rewrite H || (change (length (js "nano://")) with (length (js "quad://"));
                  rewrite H);
    vm_compute; set_solver.
Qed.

Lemma otherScheme_colon (s : jsstring) : otherScheme s = true → 58 ∈ s.
Proof.
  unfold otherScheme. intros H. apply existsb_exists in H as (n & _ & H).
  apply andb_true_iff in H as [_ H]. apply bool_decide_eq_true in H.
  assert (Hc : 58 ∈ take 3 (drop n s)) by (rewrite H; vm_compute; set_solver).
  by apply subseteq_take, subseteq_drop in Hc.
Qed.

Lemma otherScheme_scheme (scheme rest : jsstring) :
  (3 ≤ length scheme ≤ 6)%nat → dots scheme = true →
  otherScheme (scheme ++ js "://" ++ rest) = true.
Proof.
  intros Hlen Hdots. unfold otherScheme. apply existsb_exists.
  exists (length scheme). split.
  - apply list_elem_of_In.
    assert (H : length scheme = 3%nat ∨ length scheme = 4%nat
                ∨ length scheme = 5%nat ∨ length scheme = 6%nat) by lia.
    destruct H as [-> | [-> | [-> | ->]]]; set_solver.
  - rewrite take_app_length, drop_app_length, Hdots. reflexivity.
Qed.

Lemma quadScheme_scheme (scheme rest : jsstring) :
  (3 ≤ length scheme ≤ 6)%nat →
  scheme ≠ js "nano" → scheme ≠ js "quad" →
  quadScheme (scheme ++ js "://" ++ rest) = false.
Proof.
  intros Hlen Hn Hq. unfold quadScheme, startsWith.
  apply orb_false_iff.
  destruct scheme as [|c1 [|c2 [|c3 [|c4 [|c5 [|c6 [|c7 scheme]]]]]]];
    simpl in Hlen; try lia;
    split; apply bool_decide_eq_false; intros H;
    vm_compute in H; [..|destruct rest; discriminate H|
                         destruct rest; discriminate H];
    try discriminate H;
    injection H as -> -> -> ->; by (apply Hn || apply Hq).
Qed.

(** X19. [makeURLAbsolute] returns a child that opens with a scheme of
    three to six code units and [://] as it is, whatever the parent. A
    child under the scheme [quad] or [nano] is placed one level above
    the directory of [location.href] (when that directory holds no
    dollar sign, which the replacement text would expand). A child
    without a colon is appended to the directory of the parent. *)
Theorem makeURLAbsolute_cases (href parentURL : jsstring) :
  (∀ scheme rest,
     (3 ≤ length scheme ≤ 6)%nat → dots scheme = true →
     scheme ≠ js "nano" → scheme ≠ js "quad" →
     makeURLAbsolute href parentURL (scheme ++ js "://" ++ rest)
     = scheme ++ js "://" ++ rest)
  ∧ (∀ rest,
       36 ∉ urlDir href →
       makeURLAbsolute href parentURL (js "quad://" ++ rest)
       = urlDir href ++ js "../" ++ rest
       ∧ makeURLAbsolute href parentURL (js "nano://" ++ rest)
         = urlDir href ++ js "../" ++ rest)
  ∧ (∀ childURL,
       58 ∉ childURL →
       makeURLAbsolute href parentURL childURL = urlDir parentURL ++ childURL).
Proof.
  split; [|split].
  - intros scheme rest Hlen Hdots Hn Hq. unfold makeURLAbsolute.
    by rewrite quadScheme_scheme, otherScheme_scheme.
  - intros rest Hd. unfold makeURLAbsolute.
    assert (H36 : 36 ∉ urlDir href ++ js "../").
    { rewrite not_elem_of_app. split; [done|]. vm_compute. set_solver. }
    split.
    + change (quadScheme (js "quad://" ++ rest)) with true. cbv iota.
      change (drop 7 (js "quad://" ++ rest)) with rest.
      by rewrite substitute_plain, <- app_assoc.
    + change (quadScheme (js "nano://" ++ rest)) with true. cbv iota.
      change (drop 7 (js "nano://" ++ rest)) with rest.
      by rewrite substitute_plain, <- app_assoc.
  - intros childURL Hc. unfold makeURLAbsolute.
    destruct (quadScheme childURL) eqn:Hq.
    { by apply quadScheme_colon in Hq. }
    destruct (otherScheme childURL) eqn:Ho; [|done].
    by apply otherScheme_colon in Ho.
Qed.

(** X20. Resolving a plain file name (no colon, slash or question mark)
    against a parent that has a directory keeps that directory: the
    result lies beside the parent and its file part is the name. *)
Theorem sibling_keeps_directory (href parentURL childURL : jsstring) :
  63 ∉ parentURL → 47 ∈ parentURL →
  58 ∉ childURL → 47 ∉ childURL → 63 ∉ childURL →
  urlDir (makeURLAbsolute href parentURL childURL) = urlDir parentURL
  ∧ urlFile (makeURLAbsolute href parentURL childURL) = childURL.
Proof.
  intros Hq (a & b & -> & Hb)%list_elem_of_split_r Hc Hs Hcq.
  unfold makeURLAbsolute.
  destruct (quadScheme childURL) eqn:Hquad.
  { by apply quadScheme_colon in Hquad. }
  destruct (otherScheme childURL) eqn:Hother.
  { by apply otherScheme_colon in Hother. }
  rewrite urlDir_last by set_solver.
  rewrite <- app_assoc. cbn [app].
  rewrite urlDir_last, urlFile_last by set_solver. done.
Qed.

Lemma sibling_keeps_directory_witness :
  urlDir (makeURLAbsolute (js "http://localhost/console/quadplay.html")
            (js "games/quest/quest.game.json") (js "hero.sprite.json"))
  = urlDir (js "games/quest/quest.game.json")
  ∧ urlFile (makeURLAbsolute (js "http://localhost/console/quadplay.html")
               (js "games/quest/quest.game.json") (js "hero.sprite.json"))
    = js "hero.sprite.json".
Proof.
  apply sibling_keeps_directory; vm_compute; set_solver.
Defined.

Lemma dotsThenSlash_none (s : jsstring) : 47 ∉ s → dotsThenSlash s = None.
Proof.
  induction s as [|c s IH]; [done|]. intros [Hc Hs]%not_elem_of_cons.
  simpl. rewrite IH by done.
  destruct (isLineTerminator c); by destruct (Z.eqb_spec c 47).
Qed.

Lemma dotsThenSlash_last (a b : jsstring) :
  dots a = true → 47 ∉ b →
  dotsThenSlash (a ++ 47 :: b) = Some (S (length a)).
Proof.
  intros Ha Hb. induction a as [|x a IH].
  - simpl. rewrite dotsThenSlash_none by done.
    by destruct (isLineTerminator 47).
  - simpl in Ha. apply andb_true_iff in Ha as [Hx Ha].
    apply negb_true_iff in Hx. cbn [app dotsThenSlash]. rewrite Hx.
    by rewrite IH.
Qed.

(** X21. On a URL without a line terminator [urlFilename] and [urlFile]
    return the same text. *)
Theorem urlFilename_urlFile (url : jsstring) :
  dots url = true → urlFilename url = urlFile url.
Proof.
  intros Hdots. unfold urlFilename.
  destruct (decide (47 ∈ url)) as [(a & b & -> & Hb)%list_elem_of_split_r|Hs].
  - unfold dots in Hdots. rewrite forallb_app in Hdots.
    apply andb_true_iff in Hdots as [Ha _].
    rewrite dotsThenSlash_last, urlFile_last by done.
    rewrite (cons_middle 47 a b), app_assoc.
    replace (S (length a)) with (length (a ++ [47]))
      by (rewrite length_app; simpl; lia).
    by rewrite drop_app_length.
  - by rewrite dotsThenSlash_none, urlFile_plain.
Qed.

Lemma urlFilename_urlFile_witness :
  urlFilename (js "games/quest/hero.png") = urlFile (js "games/quest/hero.png").
Proof. apply urlFilename_urlFile. reflexivity. Defined.

Lemma appendGameJson_name (name : jsstring) :
  name ≠ [] → 47 ∉ name →
  appendGameJson true name = name ++ [47] ++ name ++ js ".game.json".
Proof.
  intros Hne Hs. destruct name as [|c name]; [done|].
  cbn [appendGameJson]. apply not_elem_of_cons in Hs as [Hc Hs'].
  destruct (Z.eqb_spec c 47); [congruence|]. cbn [andb].
  cbn [forallb]. destruct (Z.eqb_spec c 47); [congruence|]. cbn [negb andb].
  by rewrite (proj2 (noSlash_spec 47 name) Hs').
Qed.

Lemma appendGameJson_dir (atStart : bool) (dir name : jsstring) :
  name ≠ [] → 47 ∉ name →
  appendGameJson atStart (dir ++ 47 :: name)
  = dir ++ 47 :: name ++ [47] ++ name ++ js ".game.json".
Proof.
  intros Hne Hs. revert atStart. induction dir as [|x dir IH]; intros atStart.
  - cbn [app appendGameJson]. rewrite Z.eqb_refl.
    rewrite bool_decide_false by done.
    by rewrite (proj2 (noSlash_spec 47 name) Hs).
  - cbn [app appendGameJson].
    rewrite (noSlash_false 47 (dir ++ 47 :: name)) by set_solver.
    rewrite andb_false_r.
    assert (Hall : forallb (λ c, negb (c =? 47)) (x :: dir ++ 47 :: name)
                   = false).
    { apply noSlash_false. set_solver. }
    rewrite Hall, andb_false_r. by rewrite IH.
Qed.

Lemma isGameJson_slash (s : jsstring) : isGameJson (s ++ [47]) = false.
Proof.
  unfold isGameJson. apply bool_decide_eq_false. intros H.
  rewrite drop_app_le, fmap_app in H by (rewrite length_app; simpl; lia).
  change (js ".game.json") with (js ".game.jso" ++ [110]) in H.
  apply app_inj_tail in H as [_ H]. discriminate H.
Qed.

(** X22. A game URL that names a directory, with or without a slash at
    its end, is turned into the URL of the file [name.game.json] inside
    that directory, [name] being the last part of the path; and that URL
    is left as it is when it is given again. *)
Theorem directory_game (dir name : jsstring) :
  dir = [] ∨ last dir = Some 47 →
  name ≠ [] → 47 ∉ name →
  isGameJson (dir ++ name) = false →
  let gameJson := dir ++ name ++ js "/" ++ name ++ js ".game.json" in
  directoryToGameJson (dir ++ name) = gameJson
  ∧ directoryToGameJson (dir ++ name ++ js "/") = gameJson
  ∧ directoryToGameJson gameJson = gameJson.
Proof.
  intros Hdir Hne Hs Hgame gameJson.
  assert (Hlast : ∃ c, last name = Some c ∧ c ≠ 47).
  { destruct (last name) as [c|] eqn:Hl.
    - exists c. split; [done|]. intros ->.
      apply last_Some in Hl as [l' ->]. set_solver.
    - apply last_None in Hl. done. }
  destruct Hlast as (c & Hc & Hc47).
  assert (Happend : appendGameJson true (dir ++ name) = gameJson).
  { destruct Hdir as [->|Hd].
    - by apply appendGameJson_name.
    - apply last_Some in Hd as [d' ->]. rewrite <- app_assoc. cbn [app].
      rewrite appendGameJson_dir by done. unfold gameJson.
      by rewrite <- app_assoc. }
  split; [|split].
  - unfold directoryToGameJson. rewrite Hgame.
    rewrite last_app, Hc. by destruct c as [|p|p]; try done;
      do 6 (destruct p as [p|p|]; try done).
  - unfold directoryToGameJson.
    rewrite (app_assoc dir name (js "/")).
    change (js "/") with [47]. rewrite isGameJson_slash.
    rewrite last_snoc.
    rewrite length_app. simpl.
    replace (length (dir ++ name) + 1 - 1)%nat with (length (dir ++ name))
      by lia.
    by rewrite take_app_length.
  - unfold directoryToGameJson.
    assert (Hg : isGameJson gameJson = true); [|by rewrite Hg].
    unfold isGameJson, gameJson. apply bool_decide_eq_true.
    rewrite !app_assoc.
    rewrite length_app.
    change (length (js ".game.json")) with 10%nat.
    replace (length (((dir ++ name) ++ js "/") ++ name) + 10 - 10)%nat
      with (length (((dir ++ name) ++ js "/") ++ name)) by lia.
    by rewrite drop_app_length.
Qed.

Lemma directory_game_witness :
  directoryToGameJson (js "games/" ++ js "quest")
  = js "games/" ++ js "quest" ++ js "/" ++ js "quest" ++ js ".game.json"
  ∧ directoryToGameJson (js "games/" ++ js "quest" ++ js "/")
    = js "games/" ++ js "quest" ++ js "/" ++ js "quest" ++ js ".game.json"
  ∧ directoryToGameJson
      (js "games/" ++ js "quest" ++ js "/" ++ js "quest" ++ js ".game.json")
    = js "games/" ++ js "quest" ++ js "/" ++ js "quest" ++ js ".game.json".
Proof.
  apply (directory_game (js "games/") (js "quest")).
  - right. reflexivity.
  - discriminate.
  - vm_compute. set_solver.
  - reflexivity.
Defined.

End UrlFacts.

(** ** Assets *)

Module AssetsFacts.

Import Url UrlFacts Assets.

Lemma typeThenJson_type (type ext : jsstring) :
  type ≠ [] → 46 ∉ type → asciiLower <$> ext = js ".json" →
  typeThenJson (type ++ ext) = Some type.
Proof.
  intros Hne Hdot Hext. unfold typeThenJson.
  assert (Hlen : length ext = 5%nat).
  { apply (f_equal length) in Hext. by rewrite length_fmap in Hext. }
  rewrite length_app, Hlen.
  replace (length type + 5 - 5)%nat with (length type) by lia.
  rewrite take_app_length, drop_app_length.
  rewrite bool_decide_false by done.
  rewrite (proj2 (noSlash_spec 46 type) Hdot).
  by rewrite bool_decide_true.
Qed.

Lemma typeThenJson_dot (s type ext : jsstring) :
  length ext = 5%nat →
  typeThenJson (s ++ 46 :: type ++ ext) = None.
Proof.
  intros Hlen. unfold typeThenJson.
  replace (s ++ 46 :: type ++ ext) with ((s ++ 46 :: type) ++ ext)
    by (by rewrite <- app_assoc).
  assert (Hdot : 46 ∈ s ++ 46 :: type) by set_solver.
  revert Hdot. generalize (s ++ 46 :: type). intros l Hdot.
  rewrite length_app, Hlen.
  replace (length l + 5 - 5)%nat with (length l) by lia.
  rewrite take_app_length.
  rewrite (noSlash_false 46 l) by done.
  by rewrite andb_false_r.
Qed.

Lemma matchType_type (stem type ext : jsstring) :
  type ≠ [] → 46 ∉ type → asciiLower <$> ext = js ".json" →
  matchType (stem ++ 46 :: type ++ ext) = Some type.
Proof.
  intros Hne Hdot Hext.
  assert (Hlen : length ext = 5%nat).
  { apply (f_equal length) in Hext. by rewrite length_fmap in Hext. }
  induction stem as [|c stem IH].
  - cbn [app matchType]. rewrite Z.eqb_refl. by rewrite typeThenJson_type.
  - cbn [app matchType]. rewrite typeThenJson_dot by done.
    by destruct (c =? 46).
Qed.

Lemma typeThenJson_json (s type : jsstring) :
  typeThenJson s = Some type →
  asciiLower <$> drop (length s - 5) s = js ".json".
Proof.
  unfold typeThenJson. intros H.
  destruct (negb _ && _ && bool_decide _) eqn:E; [|discriminate H].
  apply andb_true_iff in E as [_ E]. by apply bool_decide_eq_true in E.
Qed.

Lemma matchType_json (url type : jsstring) :
  matchType url = Some type →
  asciiLower <$> drop (length url - 5) url = js ".json".
Proof.
  induction url as [|c url IH]; [discriminate|]. cbn [matchType].
  assert (Hdrop : ∀ s, asciiLower <$> drop (length s - 5) s = js ".json" →
            asciiLower <$> drop (length (c :: s) - 5) (c :: s) = js ".json").
  { intros s Hs.
    assert (Hlen : (5 ≤ length s)%nat).
    { apply (f_equal length) in Hs.
      rewrite length_fmap, length_drop in Hs. simpl in Hs. lia. }
    cbn [length].
    replace (S (length s) - 5)%nat with (S (length s - 5)) by lia.
    done. }
  destruct (if c =? 46 then typeThenJson url else None) as [t|] eqn:Ht.
  - intros _. apply Hdrop. destruct (c =? 46); [|discriminate Ht].
    by apply typeThenJson_json in Ht.
  - intros H. by apply Hdrop, IH.
Qed.

(** X26. The loader of an asset is chosen by the part of its URL between
    the last two dots before the final [.json], in any case: [font],
    [sprite], [sound] or [map]; any other name there is logged as an
    unrecognized type and nothing is loaded. A URL that does not end in
    [.json], one with a query behind it for instance, and a URL with
    the one extension [.json] have no type and are not loaded
    either. *)
Theorem asset_kind :
  (∀ stem type ext,
     type ≠ [] → 46 ∉ type → asciiLower <$> ext = js ".json" →
     assetKind (stem ++ js "." ++ type ++ ext) = kindOf (asciiLower <$> type))
  ∧ (∀ url,
       asciiLower <$> drop (length url - 5) url ≠ js ".json" →
       assetKind url = Unrecognized)
  ∧ (∀ name ext,
       46 ∉ name → asciiLower <$> ext = js ".json" →
       assetKind (name ++ ext) = Unrecognized).
Proof.
  split; [|split].
  - intros stem type ext Hne Hdot Hext. unfold assetKind.
    change (js "." ++ type ++ ext) with (46 :: type ++ ext).
    by rewrite matchType_type.
  - intros url Hjson. unfold assetKind.
    destruct (matchType url) as [type|] eqn:Hm; [|done].
    by apply matchType_json in Hm.
  - intros name ext Hname Hext. unfold assetKind.
    assert (Hnone : matchType (name ++ ext) = None); [|by rewrite Hnone].
    assert (Hlen : length ext = 5%nat).
    { apply (f_equal length) in Hext. by rewrite length_fmap in Hext. }
    destruct ext as [|e0 [|e1 [|e2 [|e3 [|e4 [|e5 ext]]]]]];
      try discriminate Hlen.
    injection Hext as He0 _ _ _ _.
    assert (e0 = 46) as ->.
    { unfold asciiLower in He0.
      destruct ((65 <=? e0) && (e0 <=? 90)) eqn:E; [|done].
      apply andb_true_iff in E as [E1 E2]. lia. }
    induction name as [|c name IH].
    + cbn [app matchType]. rewrite Z.eqb_refl. unfold typeThenJson.
      cbn [length Nat.sub take]. rewrite bool_decide_true by done.
      cbn [negb andb matchType].
      repeat (match goal with
              | |- context [?x =? 46] => destruct (x =? 46)
              end; cbn [typeThenJson length Nat.sub take];
              unfold typeThenJson; cbn [length Nat.sub take drop];
              rewrite ?bool_decide_true by done; cbn [negb andb]);
        try done.
    + apply not_elem_of_cons in Hname as [Hc Hname].
      cbn [app matchType]. destruct (Z.eqb_spec c 46); [done|].
      by apply IH.
Qed.

Example asset_kinds :
  assetKind (js "games/quest/hero.sprite.json") = Sprite
  ∧ assetKind (js "games/quest/Hero.SPRITE.JSON") = Sprite
  ∧ assetKind (js "games/quest/level.map.json") = Map
  ∧ assetKind (js "games/quest/hero.sprite.json?v=2") = Unrecognized
  ∧ assetKind (js "games/quest/hero.json") = Unrecognized
  ∧ assetKind (js "games/quest/hero.sprites.json") = Unrecognized.
Proof. vm_compute. repeat split; reflexivity. Qed.

End AssetsFacts.

(** ** The requests of the manifest *)

Module FetchesFacts.

Import Manifest ManifestFacts Fetches.

Section callback.

Variable makeURLAbsolute : jsstring → jsstring → jsstring.
Variable gameURL : jsstring.

Local Abbreviation scriptStep :=
  (λ '(i, script) st,
     match script with
     | JStr s => Ok (push_script (makeURLAbsolute gameURL s) st)
     | _ => Throw (ScriptNotUrl i)
     end).

(** The scripts loop returns exactly on an array of strings. *)
Lemma scripts_loop_ok (l : list Json) (f : nat → nat) (st st' : LoadState) :
  for_each scriptStep (imap (λ i script, (f i, script)) l) st = Ok st' →
  ∃ names, l = JStr <$> names
           ∧ st' = pushScripts makeURLAbsolute gameURL names st.
Proof.
  revert f st. induction l as [|script l IH]; intros f st H.
  - exists []. simpl in H. by injection H as <-.
  - rewrite imap_cons in H. cbn [for_each] in H.
    destruct script as [| | |s| |]; try discriminate H.
    cbn [mbind result_bind] in H.
    apply IH in H as (names & -> & ->). by exists (s :: names).
Qed.

(** The first element that is no string stops the loop, with its
    index. *)
Lemma scripts_loop_throws (names : list jsstring) (v : Json) (l : list Json)
    (f : nat → nat) (st : LoadState) :
  (∀ s, v ≠ JStr s) →
  for_each scriptStep (imap (λ i script, (f i, script)) ((JStr <$> names) ++ v :: l))
    st
  = Throw (ScriptNotUrl (f (length names))).
Proof.
  intros Hv. revert f st. induction names as [|s names IH]; intros f st.
  - cbn [fmap list_fmap app]. rewrite imap_cons. cbn [for_each].
    destruct v; try done. by destruct (Hv s).
  - cbn [fmap list_fmap app]. rewrite imap_cons. cbn [for_each].
    cbn [mbind result_bind]. by rewrite (IH (f ∘ S)).
Qed.

Lemma modes_loop_ok (l : list Json) (acc acc' : Z * LoadState) :
  for_each (modeStep makeURLAbsolute gameURL) l acc = Ok acc' →
  ∃ names, l = JStr <$> names.
Proof.
  revert acc. induction l as [|mode l IH]; intros [n st] H.
  - by exists [].
  - cbn [for_each] in H. destruct mode as [| | |s| |]; try discriminate H.
    cbn [modeStep mbind result_bind] in H.
    apply IH in H as (names & ->). by exists (s :: names).
Qed.

Lemma loadScripts_ok (gameJSON : gmap jsstring Json) (st st' : LoadState) :
  loadScripts makeURLAbsolute gameURL gameJSON st = Ok st' →
  ∃ names,
    (truthy (gameJSON !! js "scripts") = false ∧ names = []
     ∨ gameJSON !! js "scripts" = Some (JArr (JStr <$> names)))
    ∧ st' = pushScripts makeURLAbsolute gameURL names st.
Proof.
  unfold loadScripts. intros H.
  destruct (truthy (gameJSON !! js "scripts")) eqn:Ht.
  - destruct (gameJSON !! js "scripts") as [[| | | |l|]|]; try discriminate H.
    apply (scripts_loop_ok l (λ i, i)) in H as (names & -> & ->).
    exists names. split; [by right|done].
  - injection H as <-. exists []. split; [by left|done].
Qed.

Lemma loadModes_ok (gameJSON : gmap jsstring Json) (st st' : LoadState) :
  loadModes makeURLAbsolute gameURL gameJSON st = Ok st' →
  ∃ names,
    gameJSON !! js "modes" = Some (JArr (JStr <$> names))
    ∧ startModes names = 1%nat
    ∧ st' = pushModes makeURLAbsolute gameURL names st.
Proof.
  intros H. pose proof H as H'. unfold loadModes in H'.
  destruct (gameJSON !! js "modes") as [[| | | |l|]|] eqn:Hm;
    try discriminate H'.
  destruct (for_each _ l (0, st)) as [acc|] eqn:Hloop; [|discriminate H'].
  apply modes_loop_ok in Hloop as (names & ->). clear H'.
  rewrite (loadModes_count _ _ _ names st Hm) in H.
  exists names. split; [done|].
  repeat case_bool_decide; try discriminate H.
  injection H as <-. split; [lia|done].
Qed.

Lemma pushScripts_state (names : list jsstring) (st : LoadState) :
  let st' := pushScripts makeURLAbsolute gameURL names st in
  scripts st' = scripts st ++ (makeURLAbsolute gameURL <$> names)
  ∧ modes st' = modes st
  ∧ fetches st'
    = fetches st ++ (textFetch <$> (makeURLAbsolute gameURL <$> names)).
Proof.
  revert st. induction names as [|s names IH]; intros st.
  - cbn. by rewrite !app_nil_r.
  - destruct (IH (push_script (makeURLAbsolute gameURL s) st))
      as (Hs & Hm & Hf).
    cbn zeta. unfold pushScripts in *. cbn [foldl].
    rewrite Hs, Hm, Hf. cbn [push_script scripts modes fetches fmap list_fmap].
    by rewrite <- !app_assoc.
Qed.

Lemma pushModes_state (names : list jsstring) (st : LoadState) :
  let st' := pushModes makeURLAbsolute gameURL names st in
  scripts st' = scripts st
  ∧ modes st' = modes st ++ (modeOf makeURLAbsolute gameURL <$> names)
  ∧ fetches st'
    = fetches st
      ++ (textFetch <$> (url <$> (modeOf makeURLAbsolute gameURL <$> names))).
Proof.
  revert st. induction names as [|s names IH]; intros st.
  - cbn. by rewrite !app_nil_r.
  - destruct (IH (push_mode (modeOf makeURLAbsolute gameURL s) st))
      as (Hs & Hm & Hf).
    cbn zeta. unfold pushModes in *. cbn [foldl].
    rewrite Hs, Hm, Hf. cbn [push_mode scripts modes fetches fmap list_fmap].
    by rewrite <- !app_assoc.
Qed.

Lemma checkScreenSize_other (gameJSON g' : gmap jsstring Json) (k : jsstring) :
  k ≠ js "screenSize" →
  checkScreenSize gameJSON = Ok g' →
  g' !! k = gameJSON !! k.
Proof.
  unfold checkScreenSize. intros Hk H.
  destruct (for_each _ _ _) as [[|]|] in H; simpl in H.
  - injection H as <-. destruct (gameJSON !! js "screenSize"); [done|].
    by apply lookup_insert_ne.
  - destruct (member _ (js "x")); simpl in H; [|discriminate H].
    destruct (member _ (js "y")); simpl in H; discriminate H.
  - discriminate H.
Qed.

(** X23. When the manifest callback gets past the modes block, the
    scripts of the manifest (none when the member is missing or falsy)
    and its modes are arrays of strings, exactly one mode name carries
    the star, [gameSource.scripts] holds the script URLs and
    [gameSource.modes] the modes with the URL of
    [modeNameToFileName(name)], both resolved against the game URL and
    in the order of the manifest, and the requests made are one text
    request for every script followed by one for every mode. *)
Theorem manifest_requests (gameJSON g' : gmap jsstring Json) (st : LoadState) :
  afterLoadGame makeURLAbsolute gameURL gameJSON = Ok (g', st) →
  ∃ scriptNames modeNames,
    (truthy (gameJSON !! js "scripts") = false ∧ scriptNames = []
     ∨ gameJSON !! js "scripts" = Some (JArr (JStr <$> scriptNames)))
    ∧ gameJSON !! js "modes" = Some (JArr (JStr <$> modeNames))
    ∧ startModes modeNames = 1%nat
    ∧ scripts st = makeURLAbsolute gameURL <$> scriptNames
    ∧ modes st
      = (λ s, {| name := s;
                 url := makeURLAbsolute gameURL (modeNameToFileName s) |})
          <$> modeNames
    ∧ fetches st
      = (textFetch <$> scripts st) ++ (textFetch <$> (url <$> modes st)).
Proof.
  unfold afterLoadGame. intros H.
  destruct (checkScreenSize gameJSON) as [g1|] eqn:Hsize; [|discriminate H].
  cbn [mbind result_bind] in H.
  destruct (loadScripts _ _ g1 _) as [st1|] eqn:Hscripts; [|discriminate H].
  cbn [mbind result_bind] in H.
  destruct (loadModes _ _ g1 st1) as [st2|] eqn:Hmodes; [|discriminate H].
  injection H as <- <-.
  apply loadScripts_ok in Hscripts as (scriptNames & Hs & ->).
  apply loadModes_ok in Hmodes as (modeNames & Hm & Hstart & ->).
  rewrite (checkScreenSize_other gameJSON g1) in Hs, Hm by done.
  exists scriptNames, modeNames.
  destruct (pushScripts_state scriptNames
              {| scripts := []; modes := []; fetches := [] |})
    as (Hs1 & Hm1 & Hf1).
  destruct (pushModes_state modeNames
              (pushScripts makeURLAbsolute gameURL scriptNames
                 {| scripts := []; modes := []; fetches := [] |}))
    as (Hs2 & Hm2 & Hf2).
  cbv zeta in *. cbn [scripts modes fetches app] in *.
  rewrite Hs2, Hm2, Hf2, Hs1, Hm1, Hf1. cbn [app].
  split; [done|]. split; [done|]. split; [done|]. split; [done|].
  split; done.
Qed.

(** X24. The scripts block: a [scripts] member that is missing or falsy
    is skipped without a request; one that is truthy and no array is
    refused with the game URL in the message; in an array the first
    element that is no string is refused with its index, whatever
    follows it. *)
Theorem scripts_errors (gameJSON : gmap jsstring Json) (st : LoadState) :
  (truthy (gameJSON !! js "scripts") = false →
   loadScripts makeURLAbsolute gameURL gameJSON st = Ok st)
  ∧ (truthy (gameJSON !! js "scripts") = true →
     (∀ l, gameJSON !! js "scripts" ≠ Some (JArr l)) →
     loadScripts makeURLAbsolute gameURL gameJSON st
     = Throw (ScriptsNotArray gameURL))
  ∧ (∀ names v l,
       gameJSON !! js "scripts" = Some (JArr ((JStr <$> names) ++ v :: l)) →
       (∀ s, v ≠ JStr s) →
       loadScripts makeURLAbsolute gameURL gameJSON st
       = Throw (ScriptNotUrl (length names))).
Proof.
  split; [|split].
  - intros Ht. unfold loadScripts. by rewrite Ht.
  - intros Ht Hl. unfold loadScripts. rewrite Ht.
    destruct (gameJSON !! js "scripts") as [[| | | |l|]|]; try done.
    by destruct (Hl l).
  - intros names v l Hs Hv. unfold loadScripts. rewrite Hs.
    cbn [truthy]. by apply (scripts_loop_throws names v l (λ i, i)).
Qed.

End callback.

Lemma manifest_requests_witness :
  ∃ scriptNames modeNames,
    (truthy (exampleManifest !! js "scripts") = false ∧ scriptNames = []
     ∨ exampleManifest !! js "scripts" = Some (JArr (JStr <$> scriptNames)))
    ∧ exampleManifest !! js "modes" = Some (JArr (JStr <$> modeNames))
    ∧ startModes modeNames = 1%nat
    ∧ scripts exampleLoaded.2 = (λ child, js "game/" ++ child) <$> scriptNames
    ∧ modes exampleLoaded.2
      = (λ s, {| name := s; url := js "game/" ++ modeNameToFileName s |})
          <$> modeNames
    ∧ fetches exampleLoaded.2
      = (textFetch <$> scripts exampleLoaded.2)
        ++ (textFetch <$> (url <$> modes exampleLoaded.2)).
Proof.
  apply (manifest_requests (λ parent child, parent ++ child) (js "game/")
           exampleManifest exampleLoaded.1 exampleLoaded.2).
  vm_compute. reflexivity.
Defined.

End FetchesFacts.

(** ** The flipped buffer *)

Module MirrorFacts.

Import Image JSFacts ImageFacts Mirror.

Lemma flipRows_mirrored (src : list Z) (w h : nat) :
  flipRows src w h (replicate (w * h) 0) = mirrored src w h.
Proof.
  apply list_eq. intros t. unfold mirrored.
  destruct (decide (t < w * h)%nat) as [Ht|Ht].
  - assert (Hw : (0 < w)%nat) by nia.
    rewrite list_lookup_fmap, lookup_seq_lt by done. simpl.
    pose proof (Nat.div_mod_eq t w) as Hdm.
    pose proof (Nat.mod_upper_bound t w) as Hmod.
    assert (Hdiv : (t / w < h)%nat) by (apply Nat.Div0.div_lt_upper_bound; lia).
    replace t with (t mod w + t / w * w)%nat at 1 by lia.
    rewrite flipRows_lookup; [done|lia|done|].
    rewrite length_replicate. lia.
  - rewrite !lookup_ge_None_2; [done|..].
    + rewrite length_fmap, length_seq. lia.
    + rewrite flipRows_length, length_replicate. lia.
Qed.

Lemma mirrored_length (src : list Z) (w h : nat) :
  length (mirrored src w h) = (w * h)%nat.
Proof. unfold mirrored. by rewrite length_fmap, length_seq. Qed.

Lemma mirror_index (w h t : nat) :
  (t < w * h)%nat →
  let t' := (w - 1 - t mod w + t / w * w)%nat in
  (t' < w * h)%nat ∧ (t' mod w = w - 1 - t mod w)%nat ∧ (t' / w = t / w)%nat.
Proof.
  intros Ht t'. assert (Hw : (0 < w)%nat) by nia.
  pose proof (Nat.mod_upper_bound t w) as Hmod.
  assert (Hdiv : (t / w < h)%nat) by (apply Nat.Div0.div_lt_upper_bound; lia).
  split; [unfold t'; nia|]. split.
  - unfold t'. rewrite Nat.Div0.mod_add. apply Nat.mod_small. lia.
  - unfold t'. rewrite Nat.div_add by lia.
    rewrite (Nat.div_small (w - 1 - t mod w)) by lia. lia.
Qed.

Lemma mirrored_lookup (src : list Z) (w h t : nat) :
  length src = (w * h)%nat → (t < w * h)%nat →
  mirrored src w h !! t = src !! (w - 1 - t mod w + t / w * w)%nat.
Proof.
  intros Hlen Ht. unfold mirrored.
  rewrite list_lookup_fmap, lookup_seq_lt by done. simpl.
  destruct (mirror_index w h t Ht) as (Ht' & _).
  unfold get.
  destruct (lookup_lt_is_Some_2 src (w - 1 - t mod w + t / w * w)%nat)
    as [p Hp]; [lia|].
  by rewrite Hp.
Qed.

Lemma mirrored_involutive (src : list Z) (w h : nat) :
  length src = (w * h)%nat →
  mirrored (mirrored src w h) w h = src.
Proof.
  intros Hlen. apply list_eq. intros t.
  destruct (decide (t < w * h)%nat) as [Ht|Ht].
  - rewrite mirrored_lookup by (done || apply mirrored_length).
    destruct (mirror_index w h t Ht) as (Ht' & Hmod & Hdiv).
    rewrite mirrored_lookup by done. cbv zeta in Hmod, Hdiv.
    rewrite Hmod, Hdiv. f_equal.
    pose proof (Nat.div_mod_eq t w). pose proof (Nat.mod_upper_bound t w).
    assert (0 < w)%nat by nia. lia.
  - rewrite !lookup_ge_None_2; [done|lia|].
    rewrite mirrored_length. lia.
Qed.

Lemma mirrored_fmap (f : Z → Z) (src : list Z) (w h : nat) :
  length src = (w * h)%nat →
  f <$> mirrored src w h = mirrored (f <$> src) w h.
Proof.
  intros Hlen. apply list_eq. intros t.
  destruct (decide (t < w * h)%nat) as [Ht|Ht].
  - rewrite list_lookup_fmap, !mirrored_lookup
      by (done || by rewrite length_fmap).
    by rewrite list_lookup_fmap.
  - rewrite !lookup_ge_None_2; [done|..].
    + rewrite mirrored_length. lia.
    + rewrite length_fmap, mirrored_length. lia.
Qed.

Lemma getImageData4BitAndFlip_eq (image : Image) :
  length (image_words image) = (image_width image * image_height image)%nat →
  getImageData4BitAndFlip image
  = ({| data := quantize <$> image_words image;
        width := image_width image; height := image_height image |},
     {| data := mirrored (quantize <$> image_words image)
                  (image_width image) (image_height image);
        width := image_width image; height := image_height image |}).
Proof.
  intros Hlen. unfold getImageData4BitAndFlip.
  rewrite getImageData4Bit_eq. cbn [data width height].
  rewrite length_fmap, Hlen.
  change (for_lt 0 (image_height image) _ _)
    with (flipRows (quantize <$> image_words image) (image_width image)
            (image_height image)
            (replicate (image_width image * image_height image) 0)).
  by rewrite flipRows_mirrored.
Qed.

(** X15. For an image with one word for every pixel, handing the
    flipped buffer of [getImageData4BitAndFlip] to the function again
    gives the two buffers back, exchanged: the flipped buffer is
    quantized already, and flipping it once more restores the first
    buffer. *)
Theorem flipped_twice_is_original (image : Image) :
  length (image_words image) = (image_width image * image_height image)%nat →
  let pair := getImageData4BitAndFlip image in
  getImageData4BitAndFlip
    {| image_width := image_width image; image_height := image_height image;
       image_words := data pair.2 |}
  = (pair.2, pair.1).
Proof.
  intros Hlen pair. subst pair.
  rewrite (getImageData4BitAndFlip_eq image Hlen). cbn [fst snd data].
  rewrite getImageData4BitAndFlip_eq by (cbn; apply mirrored_length).
  cbn [image_words image_width image_height].
  assert (Hq : quantize <$> mirrored (quantize <$> image_words image)
                              (image_width image) (image_height image)
               = mirrored (quantize <$> image_words image)
                   (image_width image) (image_height image)).
  { rewrite mirrored_fmap by (by rewrite length_fmap).
    f_equal. rewrite <- list_fmap_compose.
    apply list_fmap_ext. intros i p _. apply quantize_idempotent. }
  rewrite Hq, mirrored_involutive by (by rewrite length_fmap).
  done.
Qed.

Lemma flipped_twice_is_original_witness :
  let image := {| image_width := 3; image_height := 2;
                  image_words := [0xFF000000; 0xFF102030; 0x80FFFFFF;
                                  0xFFFFFFFF; 0x12345678; 0] |} in
  let pair := getImageData4BitAndFlip image in
  getImageData4BitAndFlip
    {| image_width := 3; image_height := 2; image_words := data pair.2 |}
  = (pair.2, pair.1).
Proof.
  intros image. apply (flipped_twice_is_original image). reflexivity.
Defined.

End MirrorFacts.

(** ** The cells of a sprite sheet *)

Module SheetCellsFacts.

Import Sprites SpritesFacts SheetCells.

Lemma builtAt_extends (json : SpriteJson) (st st' : Store) (l : loc)
    (u v : Z) (hasAlpha : bool) (id : Z) :
  extends st st' → (l + 3 < next st)%nat →
  builtAt json st l u v hasAlpha id → builtAt json st' l u v hasAlpha id.
Proof.
  intros [Hn Hheap] Hl (H0 & H1 & H2 & H3). unfold builtAt. simpl.
  rewrite (Hheap l), (Hheap (S l)), (Hheap (S (S l))), (Hheap (S (S (S l))))
    by lia.
  done.
Qed.

Lemma afterNewSprite_builtAt (json : SpriteJson) (u v : Z)
    (hasAlpha : bool) (st : Store) :
  builtAt json
    (afterNewSprite st (spriteLiteral json u v hasAlpha (lastSpriteID st + 1)))
    (next st) u v hasAlpha (lastSpriteID st + 1).
Proof.
  unfold builtAt, afterNewSprite. simpl.
  repeat split.
  - by rewrite !lookup_insert_ne, lookup_insert_eq by lia.
  - by rewrite !lookup_insert_ne, lookup_insert_eq by lia.
  - by rewrite lookup_insert_ne, lookup_insert_eq by lia.
  - by rewrite lookup_insert_eq.
Qed.

Section grid.

Variable json : SpriteJson.
Variable data : Image.Uint32Array.

(** A column, exactly: the sprite of the [j]-th row sits at the
    [4 j]-th location after the first free one and takes the [4 j]-th
    value of the counter after the current one. *)
Lemma newColumn_exact (x : Z) (ys : list Z) (st : Store) :
  ∃ st',
    newColumn json data x ys st
    = Ok ((λ j, next st + 4 * j)%nat <$> seq 0 (length ys), st')
    ∧ extends st st'
    ∧ next st' = (next st + 4 * length ys)%nat
    ∧ lastSpriteID st' = lastSpriteID st + 4 * Z.of_nat (length ys)
    ∧ ∀ (j : nat) y, ys !! j = Some y →
        builtAt json st' (next st + 4 * j)
          (if transpose json then y else x)
          (if transpose json then x else y)
          (cellHasAlpha json data x y)
          (lastSpriteID st + 1 + 4 * Z.of_nat j).
Proof.
  revert st. induction ys as [|y ys IH]; intros st.
  - exists st. split; [done|]. split; [apply extends_refl|].
    split; [simpl; lia|]. split; [simpl; lia|]. intros j y Hy. done.
  - cbn [newColumn length seq]. rewrite fmap_cons.
    unfold mbind at 1, M_bind. rewrite newSprite_run.
    set (o := spriteLiteral _ _ _ _ _).
    destruct (IH (afterNewSprite st o))
      as (st' & Hrun & Hext & Hnext & Hid & Hcells).
    exists st'. unfold mbind, M_bind. rewrite Hrun.
    change (next (afterNewSprite st o)) with (S (S (S (S (next st))))) in *.
    change (lastSpriteID (afterNewSprite st o))
      with (lastSpriteID st + 1 + 1 + 1 + 1) in *.
    split.
    { unfold mret, M_ret. apply f_equal, (f_equal (λ g, (g, st'))).
      apply (f_equal2 cons); [lia|].
      rewrite <- fmap_S_seq, <- list_fmap_compose.
      apply list_fmap_ext. intros i j _. unfold compose. lia. }
    split.
    { eapply extends_trans; [apply afterNewSprite_extends | exact Hext]. }
    split; [lia|]. split; [lia|].
    intros [|j] y' Hy; cbn [lookup list_lookup] in Hy.
    + injection Hy as <-.
      replace (next st + 4 * 0)%nat with (next st) by lia.
      replace (lastSpriteID st + 1 + 4 * Z.of_nat 0)
        with (lastSpriteID st + 1) by lia.
      eapply builtAt_extends;
        [exact Hext| |unfold o; apply afterNewSprite_builtAt].
      simpl. lia.
    + replace (next st + 4 * S j)%nat with (S (S (S (S (next st)))) + 4 * j)%nat
        by lia.
      replace (lastSpriteID st + 1 + 4 * Z.of_nat (S j))
        with (lastSpriteID st + 1 + 1 + 1 + 1 + 1 + 4 * Z.of_nat j) by lia.
      by apply Hcells.
Qed.

Lemma newColumns_exact (xs ys : list Z) (st : Store) :
  ∃ st',
    newColumns json data xs ys st
    = Ok ((λ i, (λ j, next st + 4 * (i * length ys + j))%nat
                  <$> seq 0 (length ys)) <$> seq 0 (length xs), st')
    ∧ extends st st'
    ∧ next st' = (next st + 4 * (length xs * length ys))%nat
    ∧ lastSpriteID st'
      = lastSpriteID st + 4 * Z.of_nat (length xs * length ys)
    ∧ ∀ (i j : nat) x y, xs !! i = Some x → ys !! j = Some y →
        builtAt json st' (next st + 4 * (i * length ys + j))
          (if transpose json then y else x)
          (if transpose json then x else y)
          (cellHasAlpha json data x y)
          (lastSpriteID st + 1 + 4 * Z.of_nat (i * length ys + j)).
Proof.
  revert st. induction xs as [|x xs IH]; intros st.
  - exists st. split; [done|]. split; [apply extends_refl|].
    split; [simpl; lia|]. split; [simpl; lia|]. intros i j x y Hx. done.
  - cbn [newColumns length seq]. rewrite fmap_cons.
    unfold mbind at 1, M_bind.
    destruct (newColumn_exact x ys st)
      as (st1 & Hcol & Hext1 & Hnext1 & Hid1 & Hcells1).
    rewrite Hcol.
    destruct (IH st1) as (st' & Hrun & Hext & Hnext & Hid & Hcells).
    exists st'. unfold mbind, M_bind. rewrite Hrun.
    split.
    { unfold mret, M_ret. apply f_equal, (f_equal (λ g, (g, st'))).
      apply (f_equal2 cons).
      - apply list_fmap_ext. intros j l _. lia.
      - rewrite <- fmap_S_seq, <- list_fmap_compose.
        apply list_fmap_ext. intros i k _. unfold compose.
        apply list_fmap_ext. intros j l _. lia. }
    split; [by eapply extends_trans|].
    split; [lia|]. split; [lia|].
    intros [|i] j x' y Hx Hy; cbn [lookup list_lookup] in Hx.
    + injection Hx as <-.
      replace (0 * length ys + j)%nat with j by lia.
      eapply builtAt_extends; [exact Hext| |by apply Hcells1].
      apply lookup_lt_Some in Hy. lia.
    + replace (next st + 4 * (S i * length ys + j))%nat
        with (next st1 + 4 * (i * length ys + j))%nat by lia.
      replace (lastSpriteID st + 1 + 4 * Z.of_nat (S i * length ys + j))
        with (lastSpriteID st1 + 1 + 4 * Z.of_nat (i * length ys + j)) by lia.
      by apply Hcells.
Qed.

Lemma cellCount_stride (imageSize spriteSize : Z) :
  spriteSize + _gutter json ≠ 0 →
  cellCount json imageSize spriteSize
  = Some ((imageSize + _gutter json) / (spriteSize + _gutter json)).
Proof.
  intros H. unfold cellCount.
  by destruct (Z.eqb_spec (spriteSize + _gutter json) 0).
Qed.

(** The grid, exactly: [cols] columns of [rows] sprites, laid out in the
    store and numbered column after column. *)
Lemma newGrid_exact (st st' : Store) (grid : list (list loc)) :
  newGrid json data st = Ok (grid, st') →
  ∃ cols rows : nat,
    grid = (λ i, (λ j, next st + 4 * (i * rows + j))%nat <$> seq 0 rows)
             <$> seq 0 cols
    ∧ extends st st'
    ∧ next st' = (next st + 4 * (cols * rows))%nat
    ∧ lastSpriteID st' = lastSpriteID st + 4 * Z.of_nat (cols * rows)
    ∧ (∀ i j : nat, (i < cols)%nat → (j < rows)%nat →
         builtAt json st' (next st + 4 * (i * rows + j))
           (if transpose json then Z.of_nat j else Z.of_nat i)
           (if transpose json then Z.of_nat i else Z.of_nat j)
           (cellHasAlpha json data (Z.of_nat i) (Z.of_nat j))
           (lastSpriteID st + 1 + 4 * Z.of_nat (i * rows + j)))
    ∧ (strideX json ≠ 0 → strideY json ≠ 0 →
       cols = Z.to_nat (if transpose json then down json data
                        else across json data)
       ∧ rows = Z.to_nat (if transpose json then across json data
                          else down json data)).
Proof.
  unfold newGrid.
  set (r := cellCount json (Z.of_nat (Image.height data)) (spriteSize_y json)).
  set (c := cellCount json (Z.of_nat (Image.width data)) (spriteSize_x json)).
  assert (Hstride : strideX json ≠ 0 → strideY json ≠ 0 →
            c = Some (across json data) ∧ r = Some (down json data)).
  { intros Hx Hy. split; by apply cellCount_stride. }
  destruct (if transpose json then (c, r) else (r, c)) as [rows cols] eqn:Hrc.
  assert (Hdims : strideX json ≠ 0 → strideY json ≠ 0 →
            cols = Some (if transpose json then down json data
                         else across json data)
            ∧ rows = Some (if transpose json then across json data
                           else down json data)).
  { intros Hx Hy. destruct (Hstride Hx Hy) as [-> ->].
    destruct (transpose json); by injection Hrc as <- <-. }
  clearbody r c. clear Hstride Hrc.
  destruct cols as [cols|]; [|discriminate].
  destruct (Z.leb_spec cols 0) as [Hcols|Hcols].
  { intros H. injection H as <- <-.
    exists 0%nat, (Z.to_nat (default 0 rows)).
    split; [done|]. split; [apply extends_refl|].
    split; [lia|]. split; [lia|]. split; [lia|].
    intros Hx Hy. destruct (Hdims Hx Hy) as [Hc ->].
    injection Hc as <-. split; [lia|done]. }
  destruct rows as [rows|]; [|discriminate].
  destruct (newColumns_exact (seqZ 0 cols) (seqZ 0 rows) st)
    as (st1 & Hrun & Hext & Hnext & Hid & Hcells).
  rewrite Hrun. rewrite !length_seqZ in *.
  intros H. injection H as <- <-.
  exists (Z.to_nat cols), (Z.to_nat rows).
  split; [done|]. split; [done|]. split; [done|]. split; [done|].
  split.
  - intros i j Hi Hj. apply Hcells; rewrite lookup_seqZ; lia.
  - intros Hx Hy. destruct (Hdims Hx Hy) as [Hc Hr].
    injection Hc as <-. by injection Hr as <-.
Qed.

End grid.

(** A cell of a grid laid out as [newGrid] does. *)
Lemma grid_cell (base cols rows x y : nat) (column : list loc) (s : loc) :
  ((λ i, (λ j, base + 4 * (i * rows + j))%nat <$> seq 0 rows) <$> seq 0 cols)
    !! x = Some column →
  column !! y = Some s →
  (x < cols)%nat ∧ (y < rows)%nat ∧ length column = rows
  ∧ s = (base + 4 * (x * rows + y))%nat.
Proof.
  intros Hx Hy.
  apply list_lookup_fmap_Some in Hx as (i & -> & Hi).
  apply lookup_seq in Hi as [-> Hi].
  apply list_lookup_fmap_Some in Hy as (j & -> & Hj).
  apply lookup_seq in Hj as [-> Hj].
  by rewrite length_fmap, length_seq.
Qed.

(** What the store holds for the cell [spritesheet[x][y]] of the grid. *)
Lemma loaded_cell (json : SpriteJson)
    (data : Image.Uint32Array)
    (st st' : Store) (grid : list (list loc)) (x y : nat) (column : list loc)
    (s : loc) :
  newGrid json data st = Ok (grid, st') →
  grid !! x = Some column →
  column !! y = Some s →
  let n := (x * length column + y)%nat in
  s = (next st + 4 * n)%nat
  ∧ builtAt json st' s
      (if transpose json then Z.of_nat y else Z.of_nat x)
      (if transpose json then Z.of_nat x else Z.of_nat y)
      (cellHasAlpha json data (Z.of_nat x) (Z.of_nat y))
      (lastSpriteID st + 1 + 4 * Z.of_nat n).
Proof.
  intros Hload Hx Hy n.
  apply newGrid_exact in Hload
    as (cols & rows & Hgrid & _ & _ & _ & Hcells & _).
  rewrite Hgrid in Hx.
  destruct (grid_cell _ _ _ _ _ _ _ Hx Hy) as (Hi & Hj & Hlen & ->).
  unfold n. rewrite Hlen. split; [done|]. by apply Hcells.
Qed.

Lemma foldl_orb {A} (f : A → bool) (l : list A) (a : bool) :
  foldl (λ acc i, acc || f i) a l = a || existsb f l.
Proof.
  revert a. induction l as [|i l IH]; intros a; simpl.
  - by rewrite orb_false_r.
  - by rewrite IH, orb_assoc.
Qed.

Lemma foldl_orb_ext {A} (body : A → bool → bool) (f : A → bool)
    (l : list A) (a : bool) :
  (∀ i acc, body i acc = acc || f i) →
  foldl (λ acc i, body i acc) a l = a || existsb f l.
Proof.
  intros Hbody. rewrite <- foldl_orb. revert a.
  induction l as [|i l IH]; intros a; simpl; [done|].
  by rewrite Hbody, IH.
Qed.

(** The flag of lines 521-531 is set exactly when a pixel of the block
    scanned has an alpha below 255. *)
Lemma cellHasAlpha_spec (json : SpriteJson) (data : Image.Uint32Array)
    (x y : Z) :
  cellHasAlpha json data x y = true
  ↔ blockHasAlpha json data (x * strideX json) (y * strideY json).
Proof.
  unfold cellHasAlpha, for_ltZ.
  rewrite (foldl_orb_ext _
    (λ j, existsb
            (λ i, shr (getZ (Image.data data)
                         ((y * strideY json + j) * Z.of_nat (Image.width data)
                          + x * strideX json + i)) 24 <? 255)
            (seqZ 0 (spriteSize_x json - 0)))).
  2:{ intros j acc. apply foldl_orb. }
  rewrite orb_false_l, existsb_exists. unfold blockHasAlpha. split.
  - intros (j & Hj & H). apply existsb_exists in H as (i & Hi & H).
    apply list_elem_of_In, elem_of_seqZ in Hj, Hi.
    exists i, j. split; [lia|]. split; [lia|]. by apply Z.ltb_lt in H.
  - intros (i & j & Hi & Hj & H). exists j. split.
    { apply list_elem_of_In, elem_of_seqZ. lia. }
    apply existsb_exists. exists i. split.
    { apply list_elem_of_In, elem_of_seqZ. lia. }
    by apply Z.ltb_lt.
Qed.

Lemma literal_props (json : SpriteJson) (l : loc) (u v : Z)
    (hasAlpha : bool) (id : Z) :
  let o := builtSprite l (spriteLiteral json u v hasAlpha id) in
  o !! "id" = Some (Num id)
  ∧ o !! "lastSpriteID" = None
  ∧ o !! "_hasAlpha" = Some (Bool hasAlpha)
  ∧ o !! "_x" = Some (Num (u * strideX json))
  ∧ o !! "_y" = Some (Num (v * strideY json))
  ∧ o !! "_tileX" = Some (Num u)
  ∧ o !! "_tileY" = Some (Num v).
Proof. repeat split; reflexivity. Qed.

Lemma variant_counters (l : loc) (id : Z) (o : Obj) :
  builtFlippedX l id o !! "lastSpriteID" = Some (Num (id + 1))
  ∧ builtFlippedY l id o !! "lastSpriteID" = Some (Num (id + 2))
  ∧ builtFlippedXY l id o !! "lastSpriteID" = Some (Num (id + 3)).
Proof.
  unfold builtFlippedXY, builtFlippedX, builtFlippedY.
  replace (id + 1 + 1 + 1) with (id + 3) by lia.
  replace (id + 1 + 1) with (id + 2) by lia.
  repeat split; simplify_map_eq; done.
Qed.

Lemma builtAt_counters (json : SpriteJson) (st : Store) (l : loc) (u v : Z)
    (hasAlpha : bool) (id : Z) :
  builtAt json st l u v hasAlpha id →
  prop st l "id" = Some (Num id)
  ∧ prop st l "lastSpriteID" = None
  ∧ ∃ fx fy fxy,
      prop st l "flippedX" = Some (Ref fx)
      ∧ prop st l "flippedY" = Some (Ref fy)
      ∧ prop st fx "flippedY" = Some (Ref fxy)
      ∧ prop st fx "id" = Some (Num id)
      ∧ prop st fy "id" = Some (Num id)
      ∧ prop st fxy "id" = Some (Num id)
      ∧ prop st fx "lastSpriteID" = Some (Num (id + 1))
      ∧ prop st fy "lastSpriteID" = Some (Num (id + 2))
      ∧ prop st fxy "lastSpriteID" = Some (Num (id + 3)).
Proof.
  intros (H0 & H1 & H2 & H3).
  destruct (literal_props json l u v hasAlpha id) as (Hid & Hlast & _).
  destruct (spriteLiteral_fresh json u v hasAlpha id) as (Hfx & Hfy & _).
  revert H0 H1 H2 H3 Hid Hlast Hfx Hfy. cbv zeta.
  generalize (spriteLiteral json u v hasAlpha id).
  intros o H0 H1 H2 H3 Hid Hlast Hfx Hfy.
  destruct (variant_links l id o Hfx Hfy) as (Lx & Ly & _ & Lxy & _).
  destruct (variant_counters l id o) as (Cx & Cy & Cxy).
  assert (Hk : "id" ∉ ["flippedX"; "flippedY"; "scale"; "lastSpriteID"]%string).
  { intros H. repeat (apply elem_of_cons in H as [H|H]; [discriminate H|]).
    by apply elem_of_nil in H. }
  destruct (variant_copies l id o "id" Hk) as (Ix & Iy & Ixy).
  rewrite !(prop_lookup _ _ _ _ H0).
  split; [done|]. split; [done|].
  exists (S l), (S (S l)), (S (S (S l))).
  rewrite !(prop_lookup _ _ _ _ H1), !(prop_lookup _ _ _ _ H2),
    !(prop_lookup _ _ _ _ H3).
  rewrite Ix, Iy, Ixy.
  split; [done|]. split; [done|]. split; [done|].
  split; [done|]. split; [done|]. split; [done|].
  split; [done|]. split; done.
Qed.

Lemma sprite_cell_id (json : SpriteJson)
    (data : Image.Uint32Array)
    (st st' : Store) (grid : list (list loc)) (x y : nat) (column : list loc)
    (s : loc) :
  newGrid json data st = Ok (grid, st') →
  grid !! x = Some column →
  column !! y = Some s →
  prop st' s "id"
  = Some (Num (lastSpriteID st + 1 + 4 * Z.of_nat (x * length column + y))).
Proof.
  intros Hload Hx Hy.
  destruct (loaded_cell _ _ _ _ _ _ _ _ _ Hload Hx Hy) as [_ (H0 & _)].
  rewrite (prop_lookup _ _ _ _ H0). reflexivity.
Qed.

(** With strides that are not zero the two loop bounds are numbers, and
    the loops of lines 514-569 come to their end. *)
Lemma newGrid_returns (json : SpriteJson) (data : Image.Uint32Array)
    (st : Store) :
  strideX json ≠ 0 → strideY json ≠ 0 →
  ∃ grid st', newGrid json data st = Ok (grid, st').
Proof.
  intros Hx Hy. unfold newGrid.
  rewrite (cellCount_stride json _ _ Hx), (cellCount_stride json _ _ Hy).
  destruct (transpose json); (destruct (_ <=? 0); [by eexists _, _|]).
  - destruct (newColumns_exact json data
                (seqZ 0 ((Z.of_nat (Image.height data) + _gutter json)
                         / (spriteSize_y json + _gutter json)))
                (seqZ 0 ((Z.of_nat (Image.width data) + _gutter json)
                         / (spriteSize_x json + _gutter json))) st)
      as (st' & -> & _). by eexists _, _.
  - destruct (newColumns_exact json data
                (seqZ 0 ((Z.of_nat (Image.width data) + _gutter json)
                         / (spriteSize_x json + _gutter json)))
                (seqZ 0 ((Z.of_nat (Image.height data) + _gutter json)
                         / (spriteSize_y json + _gutter json))) st)
      as (st' & -> & _). by eexists _, _.
Qed.


(** X10. For a sheet whose strides are not zero the grid is built, and
    the sprite at [spritesheet[x][y]] carries the [id] that follows the
    counter at the start of the load by [1 + 4 (x rows + y)], [rows]
    being the length of a column: the cells are numbered column after
    column, four apart. The three flipped versions carry the same [id],
    and in [lastSpriteID] the three numbers after it; the sprite itself
    has no [lastSpriteID]. *)
Theorem sprite_ids (json : SpriteJson)
    (data : Image.Uint32Array) (st : Store) :
  strideX json ≠ 0 → strideY json ≠ 0 →
  ∃ grid st',
    newGrid json data st = Ok (grid, st')
    ∧ ∀ (x y : nat) (column : list loc) (s : loc),
        grid !! x = Some column →
        column !! y = Some s →
        let id := lastSpriteID st + 1 + 4 * Z.of_nat (x * length column + y) in
        prop st' s "id" = Some (Num id)
        ∧ prop st' s "lastSpriteID" = None
        ∧ ∃ fx fy fxy,
            prop st' s "flippedX" = Some (Ref fx)
            ∧ prop st' s "flippedY" = Some (Ref fy)
            ∧ prop st' fx "flippedY" = Some (Ref fxy)
            ∧ prop st' fx "id" = Some (Num id)
            ∧ prop st' fy "id" = Some (Num id)
            ∧ prop st' fxy "id" = Some (Num id)
            ∧ prop st' fx "lastSpriteID" = Some (Num (id + 1))
            ∧ prop st' fy "lastSpriteID" = Some (Num (id + 2))
            ∧ prop st' fxy "lastSpriteID" = Some (Num (id + 3)).
Proof.
  intros Hsx Hsy.
  destruct (newGrid_returns json data st Hsx Hsy) as (grid & st' & Hload).
  exists grid, st'. split; [exact Hload|].
  intros x y column s Hx Hy id.
  destruct (loaded_cell _ _ _ _ _ _ _ _ _ Hload Hx Hy) as [_ Hbuilt].
  fold id in Hbuilt. by apply builtAt_counters in Hbuilt.
Qed.

(** X11. For a sheet whose strides are not zero the grid is built, and
    two cells of it whose sprites carry the same [id] are the same
    cell. *)
Theorem sprite_ids_distinct (json : SpriteJson)
    (data : Image.Uint32Array) (st : Store) :
  strideX json ≠ 0 → strideY json ≠ 0 →
  ∃ grid st',
    newGrid json data st = Ok (grid, st')
    ∧ ∀ (x y x' y' : nat) (column column' : list loc) (s s' : loc) (id : Z),
        grid !! x = Some column → column !! y = Some s →
        grid !! x' = Some column' → column' !! y' = Some s' →
        prop st' s "id" = Some (Num id) → prop st' s' "id" = Some (Num id) →
        x = x' ∧ y = y' ∧ s = s'.
Proof.
  intros Hsx Hsy.
  destruct (newGrid_returns json data st Hsx Hsy) as (grid & st' & Hload).
  exists grid, st'. split; [exact Hload|].
  intros x y x' y' column column' s s' id Hx Hy Hx' Hy' Hid Hid'.
  pose proof Hload as Hgrid.
  apply newGrid_exact in Hgrid
    as (cols & rows & Hgrid & _).
  rewrite Hgrid in Hx, Hx'.
  destruct (grid_cell _ _ _ _ _ _ _ Hx Hy) as (_ & Hj & Hlen & Hs).
  destruct (grid_cell _ _ _ _ _ _ _ Hx' Hy') as (_ & Hj' & Hlen' & Hs').
  rewrite <- Hgrid in Hx, Hx'.
  pose proof (sprite_cell_id json data st st' grid x y column s
                Hload Hx Hy) as Hi.
  pose proof (sprite_cell_id json data st st' grid x' y' column' s'
                Hload Hx' Hy') as Hi'.
  rewrite Hi in Hid. rewrite Hi' in Hid'.
  rewrite Hlen in Hid. rewrite Hlen' in Hid'.
  injection Hid as Hid. injection Hid' as Hid'.
  assert (x = x') by nia. subst x'.
  assert (y = y') by nia. subst y'.
  split; [done|]. split; [done|]. congruence.
Qed.


Lemma Ok_pair {E A B : Type} (a a' : A) (b b' : B) :
  @Ok E (A * B) (a, b) = Ok (a', b') → a = a' ∧ b = b'.
Proof. intros H. by injection H. Qed.

(** The transposed sheet of the examples: the image is three pixels wide
    and two high, so the grid has two columns of three sprites, at the
    locations 0, 4, ..., 20 of a store that was empty. *)
Lemma transposed_run :
  newGrid transposedSheet sixPixelsData emptyStore
  = Ok (transposedGrid, transposedStore).
Proof. vm_compute. reflexivity. Qed.


(** The last sprite of the second column of that sheet, the cell (1,2),
    is the sixth that was built: its [id] is 100 + 1 + 4 (1 * 3 + 2). *)
Lemma sprite_ids_witness :
  prop transposedStore 20%nat "id" = Some (Num 121)
  ∧ prop transposedStore 20%nat "lastSpriteID" = None
  ∧ ∃ fx fy fxy,
      prop transposedStore 20%nat "flippedX" = Some (Ref fx)
      ∧ prop transposedStore 20%nat "flippedY" = Some (Ref fy)
      ∧ prop transposedStore fx "flippedY" = Some (Ref fxy)
      ∧ prop transposedStore fx "id" = Some (Num 121)
      ∧ prop transposedStore fy "id" = Some (Num 121)
      ∧ prop transposedStore fxy "id" = Some (Num 121)
      ∧ prop transposedStore fx "lastSpriteID" = Some (Num 122)
      ∧ prop transposedStore fy "lastSpriteID" = Some (Num 123)
      ∧ prop transposedStore fxy "lastSpriteID" = Some (Num 124).
Proof.
  destruct (sprite_ids transposedSheet sixPixelsData emptyStore)
    as (grid & st' & Hrun & Hcells); [vm_compute; lia | vm_compute; lia |].
  rewrite transposed_run in Hrun.
  apply Ok_pair in Hrun as [<- <-].
  exact (Hcells 1%nat 2%nat [12; 16; 20]%nat 20%nat eq_refl eq_refl).
Defined.

(** The last sprite of the first column and the first sprite of the
    second, the cells (0,2) and (1,0), carry no common [id]. *)
Lemma sprite_ids_distinct_witness :
  ¬ ∃ id, prop transposedStore 8%nat "id" = Some (Num id)
          ∧ prop transposedStore 12%nat "id" = Some (Num id).
Proof.
  intros (id & Hid & Hid').
  destruct (sprite_ids_distinct transposedSheet sixPixelsData emptyStore)
    as (grid & st' & Hrun & Hcells); [vm_compute; lia | vm_compute; lia |].
  rewrite transposed_run in Hrun.
  apply Ok_pair in Hrun as [<- <-].
  destruct (Hcells 0%nat 2%nat 1%nat 0%nat [0; 4; 8]%nat [12; 16; 20]%nat
              8%nat 12%nat id eq_refl eq_refl eq_refl eq_refl Hid Hid')
    as [Hx _].
  discriminate Hx.
Defined.

Example sprite_ids_of_two_cells :
  prop transposedStore 8%nat "id" = Some (Num 109)
  ∧ prop transposedStore 12%nat "id" = Some (Num 113).
Proof. split; vm_compute; reflexivity. Qed.


(** In that sheet the pixel at (1,0) is half transparent and the pixel
    at (0,1) is opaque: the sprite of the tile (0,1) is flagged although
    no pixel of its own is transparent. *)
Example transposed_flag :
  prop transposedStore 12%nat "_hasAlpha" = Some (Bool true)
  ∧ prop transposedStore 12%nat "tileIndex" = Some (XY 0 1)
  ∧ blockHasAlpha transposedSheet sixPixelsData 1 0
  ∧ ¬ blockHasAlpha transposedSheet sixPixelsData 0 1.
Proof.
  split; [vm_compute; reflexivity|]. split; [vm_compute; reflexivity|].
  split.
  - exists 0, 0. vm_compute. repeat split; (discriminate || reflexivity).
  - intros (i & j & Hi & Hj & H).
    change (0 ≤ i < 1) in Hi. change (0 ≤ j < 1) in Hj.
    assert (i = 0) as -> by lia. assert (j = 0) as -> by lia.
    vm_compute in H. discriminate H.
Qed.

End SheetCellsFacts.

(** ** The cells of a layer *)

Module LayerFacts.

Import Sprites TileMap JSFacts TileMapFacts Layers.

(** A loop over [0 .. n-1] whose body may throw, by an invariant [I] of
    the turns that return and a description [F] of the turns that
    throw. *)
Lemma for_each_seq {E S : Type} (body : nat → S → result E S)
    (I : nat → S → Prop) (F : nat → Prop) (n : nat) (s0 : S) :
  I 0%nat s0 →
  (∀ k s, (k < n)%nat → I k s →
     (∃ s1, body k s = Ok s1 ∧ I (Datatypes.S k) s1)
     ∨ (∃ e, body k s = Throw e) ∧ F k) →
  (∃ s', for_each body (seq 0 n) s0 = Ok s' ∧ I n s')
  ∨ (∃ e, for_each body (seq 0 n) s0 = Throw e) ∧ ∃ k, (k < n)%nat ∧ F k.
Proof.
  intros H0 Hstep. induction n as [|n IH].
  - left. by exists s0.
  - rewrite seq_S, for_each_app. simpl.
    destruct IH as [(s & -> & Hs)|[[e ->] (k & Hk & HF)]].
    + intros k s Hk. apply Hstep. lia.
    + simpl. destruct (Hstep n s) as [(s1 & -> & H1)|[[e ->] HF]];
        [lia|done|..].
      * left. by exists s1.
      * right. split; [by exists e|]. exists n. split; [lia|done].
    + right. split; [by exists e|]. exists k. split; [lia|done].
Qed.

Section layers.

Variable heap : gmap loc Obj.
Variable spritesheet : list (list loc).
Variable columns : Z.
Variable flipY : bool.
Variable size_x size_y : nat.
Variable data : list Z.

Local Abbreviation tile :=
  (λ x y : nat,
     tileSprite heap spritesheet columns (Image.get data (y * size_x + x))).
Local Abbreviation row := (λ y : nat, if flipY then (size_y - 1 - y)%nat else y).

Local Abbreviation decoded :=
  (Layers.decoded heap spritesheet columns flipY size_x size_y data).
Local Abbreviation Layer := (list (list (option loc))).

Lemma cellStep_decoded (y k : nat) (s : nat * Layer) :
  (y < size_y)%nat → (k < size_x)%nat → decoded y k s →
  (∃ s1, cellStep heap spritesheet columns flipY size_y data y k s = Ok s1
         ∧ decoded y (S k) s1)
  ∨ (∃ e, cellStep heap spritesheet columns flipY size_y data y k s = Throw e)
    ∧ ∃ e, tile k y = Throw e.
Proof.
  intros Hy Hk. destruct s as [i layer]. intros (Hi & Hlen & Hcols & Hdone).
  simpl in Hi, Hlen, Hcols, Hdone. subst i. unfold cellStep.
  destruct (tile k y) as [sprite|e] eqn:Htile; simpl.
  2:{ right. split; by exists e. }
  left. eexists. split; [reflexivity|].
  split; [simpl; lia|]. split; [simpl; by rewrite length_alter|].
  split.
  { simpl. apply Forall_lookup_2. intros x column Hx.
    destruct (decide (k = x)) as [->|Hne].
    - rewrite list_lookup_alter_eq in Hx.
      destruct (layer !! x) as [c|] eqn:Hc; [|done].
      simpl in Hx. injection Hx as <-. rewrite length_insert.
      by apply (Forall_lookup_1 _ _ _ _ Hcols Hc).
    - rewrite list_lookup_alter_ne in Hx by done.
      by apply (Forall_lookup_1 _ _ _ _ Hcols Hx). }
  simpl. intros x' y' Hx' Hcell.
  destruct (decide (x' = k ∧ y' = y)) as [[-> ->]|Hother].
  - destruct (lookup_lt_is_Some_2 layer k) as [c Hc]; [lia|].
    exists (<[row y := sprite]> c), sprite.
    rewrite list_lookup_alter_eq, Hc. split; [done|]. split; [done|].
    apply list_lookup_insert_eq.
    rewrite (Forall_lookup_1 _ _ _ _ Hcols Hc). destruct flipY; lia.
  - destruct (Hdone x' y' Hx') as (c & sp & Hc & Ht & Hr); [lia|].
    destruct (decide (k = x')) as [->|Hne].
    + exists (<[row y := sprite]> c), sp.
      rewrite list_lookup_alter_eq, Hc. split; [done|]. split; [done|].
      rewrite list_lookup_insert_ne; [done|]. destruct flipY; lia.
    + exists c, sp. by rewrite list_lookup_alter_ne by done.
Qed.

Lemma row_decoded (y : nat) (s : nat * Layer) :
  (y < size_y)%nat → decoded y 0 s →
  (∃ s1, for_each (cellStep heap spritesheet columns flipY size_y data y)
           (seq 0 size_x) s = Ok s1
         ∧ decoded (S y) 0 s1)
  ∨ (∃ e, for_each (cellStep heap spritesheet columns flipY size_y data y)
            (seq 0 size_x) s = Throw e)
    ∧ ∃ x e, (x < size_x)%nat ∧ tile x y = Throw e.
Proof.
  intros Hy Hs.
  destruct (for_each_seq
              (cellStep heap spritesheet columns flipY size_y data y)
              (decoded y) (λ k, ∃ e, tile k y = Throw e) size_x s Hs)
    as [(s1 & Hrun & H1)|[Hthrow (k & Hk & e & He)]].
  - intros k s' Hk Hs'. by apply cellStep_decoded.
  - left. exists s1. split; [done|].
    destruct H1 as (Hi & Hlen & Hcols & Hdone).
    split; [lia|]. split; [done|]. split; [done|].
    intros x' y' Hx' Hcell. apply Hdone; [done|lia].
  - right. split; [done|]. by exists k, e.
Qed.

Lemma emptyLayer_decoded : decoded 0 0 (0%nat, emptyLayer size_x size_y).
Proof.
  unfold emptyLayer. split; [done|]. split; [simpl; by rewrite length_replicate|].
  split.
  - simpl. apply Forall_replicate. by rewrite length_replicate.
  - intros x' y' _ Hcell. lia.
Qed.

Lemma layer_decoded :
  (∃ layer, decodeLayer heap spritesheet columns flipY size_x size_y data
            = Ok layer
            ∧ ∃ i, decoded size_y 0 (i, layer))
  ∨ (∃ e, decodeLayer heap spritesheet columns flipY size_x size_y data
          = Throw e)
    ∧ ∃ x y e, (x < size_x)%nat ∧ (y < size_y)%nat ∧ tile x y = Throw e.
Proof.
  unfold decodeLayer.
  destruct (for_each_seq
              (λ y s, for_each
                        (cellStep heap spritesheet columns flipY size_y data y)
                        (seq 0 size_x) s)
              (λ y, decoded y 0)
              (λ y, ∃ x e, (x < size_x)%nat ∧ tile x y = Throw e)
              size_y (0%nat, emptyLayer size_x size_y) emptyLayer_decoded)
    as [([i layer] & -> & H1)|[[e ->] (y & Hy & x & e' & Hx & He)]].
  - intros y s Hy Hs. by apply row_decoded.
  - left. exists layer. split; [done|]. by exists i.
  - right. split; [by exists e|]. by exists x, y, e'.
Qed.

(** X13. A layer that [loadMap] decodes has [size_x] columns of
    [size_y] cells, and the cell in column [x] and row [y] holds what
    the grid id number [y size_x + x] of the layer's data decodes to:
    the data are read row by row. With [flipY] the rows are stored
    bottom up, row [y] of the data at index [size_y - 1 - y]. *)
Theorem layer_cells (layer : Layer) :
  decodeLayer heap spritesheet columns flipY size_x size_y data = Ok layer →
  length layer = size_x
  ∧ ∀ x y, (x < size_x)%nat → (y < size_y)%nat →
      ∃ column sprite,
        layer !! x = Some column
        ∧ length column = size_y
        ∧ tileSprite heap spritesheet columns
            (Image.get data (y * size_x + x)) = Ok sprite
        ∧ column !! (if flipY then (size_y - 1 - y)%nat else y)
          = Some sprite.
Proof.
  intros Hrun.
  destruct layer_decoded as [(l & Hl & i & _ & Hlen & Hcols & Hdone)|[[e He] _]];
    [|congruence].
  rewrite Hl in Hrun. injection Hrun as ->. simpl in *.
  split; [done|]. intros x y Hx Hy.
  destruct (Hdone x y Hx) as (c & sp & Hc & Ht & Hr); [lia|].
  exists c, sp. split; [done|]. split; [|done].
  by apply (Forall_lookup_1 _ _ _ _ Hcols Hc).
Qed.

(** X14. The loops over a layer come to their end exactly when every
    one of the [size_x size_y] grid ids they read decodes without an
    exception. *)
Theorem layer_decodes :
  (∃ layer, decodeLayer heap spritesheet columns flipY size_x size_y data
            = Ok layer)
  ↔ ∀ x y, (x < size_x)%nat → (y < size_y)%nat →
      ∃ sprite, tileSprite heap spritesheet columns
                  (Image.get data (y * size_x + x)) = Ok sprite.
Proof.
  split.
  - intros [layer Hrun] x y Hx Hy.
    destruct layer_decoded
      as [(l & Hl & i & _ & _ & _ & Hdone)|[[e He] _]]; [|congruence].
    destruct (Hdone x y Hx) as (c & sp & _ & Ht & _); [lia|]. by exists sp.
  - intros Hall.
    destruct layer_decoded as [(l & Hl & _)|[_ (x & y & e & Hx & Hy & He)]].
    + by exists l.
    + destruct (Hall x y Hx Hy) as [sp Hsp]. congruence.
Qed.

End layers.

Lemma lxor_pow2_range (gid k : Z) :
  0 ≤ gid < 2 ^ 32 → 0 ≤ k < 32 → 0 ≤ Z.lxor gid (2 ^ k) < 2 ^ 32.
Proof.
  intros Hgid Hk.
  assert (Hnonneg : 0 ≤ Z.lxor gid (2 ^ k)).
  { apply Z.lxor_nonneg. split; intros _; [apply Z.pow_nonneg|]; lia. }
  assert (Hmod : Z.lxor gid (2 ^ k) mod 2 ^ 32 = Z.lxor gid (2 ^ k)).
  { apply Z.bits_inj'. intros n Hn.
    destruct (Z.lt_ge_cases n 32) as [Hlow|Hhigh].
    - by rewrite Z.mod_pow2_bits_low by lia.
    - rewrite Z.mod_pow2_bits_high by lia.
      rewrite Z.lxor_spec, Z.pow2_bits_false by lia.
      rewrite (Z.bits_above_log2 gid n); [done|lia|].
      destruct (Z.eq_dec gid 0) as [->|]; [simpl; lia|].
      apply Z.lt_le_trans with 32; [|lia]. apply Z.log2_lt_pow2; lia. }
  rewrite <- Hmod. apply Z.mod_pos_bound. lia.
Qed.

Lemma lxor_pow2_low (gid k : Z) :
  28 ≤ k → Z.lxor gid (2 ^ k) mod 2 ^ 28 = gid mod 2 ^ 28.
Proof.
  intros Hk. apply Z.bits_inj'. intros n Hn.
  destruct (Z.lt_ge_cases n 28) as [Hlow|Hhigh].
  - rewrite !Z.mod_pow2_bits_low by lia.
    rewrite Z.lxor_spec, Z.pow2_bits_false by lia. apply xorb_false_r.
  - by rewrite !Z.mod_pow2_bits_high by lia.
Qed.

(** X29. The grid ids of a layer are decoded from bit 31, bit 30 and the
    low 28 bits alone: setting or clearing bit 29, the flag of the
    diagonal flip in the TMX format, or bit 28 changes nothing in what a
    grid id decodes to. *)
Theorem diagonal_flag_ignored (heap : gmap loc Obj)
    (spritesheet : list (list loc)) (columns gid k : Z) :
  0 ≤ gid < 2 ^ 32 → k = 28 ∨ k = 29 →
  tileSprite heap spritesheet columns (Z.lxor gid (2 ^ k))
  = tileSprite heap spritesheet columns gid.
Proof.
  intros Hgid Hk.
  assert (Hrange : 0 ≤ Z.lxor gid (2 ^ k) < 2 ^ 32)
    by (apply lxor_pow2_range; lia).
  assert (HX : tileFlipX (Z.lxor gid (2 ^ k)) = tileFlipX gid).
  { rewrite !tileFlipX_bit by done.
    rewrite Z.lxor_spec, Z.pow2_bits_false by lia. apply xorb_false_r. }
  assert (HY : tileFlipY (Z.lxor gid (2 ^ k)) = tileFlipY gid).
  { rewrite !tileFlipY_bit.
    rewrite Z.lxor_spec, Z.pow2_bits_false by lia. apply xorb_false_r. }
  assert (HI : tmxIndex (Z.lxor gid (2 ^ k)) = tmxIndex gid).
  { rewrite !tmxIndex_low_bits. by rewrite lxor_pow2_low by lia. }
  unfold tileSprite. by rewrite HX, HY, HI.
Qed.

Lemma diagonal_flag_ignored_witness :
  tileSprite (heap onePixelStore) [[0%nat]] 4 (Z.lxor 1 (2 ^ 29))
  = tileSprite (heap onePixelStore) [[0%nat]] 4 1.
Proof.
  apply (diagonal_flag_ignored (heap onePixelStore) [[0%nat]] 4 1 29).
  - lia.
  - by right.
Defined.

Lemma layer_cells_witness :
  length [[None; Some 0%nat]] = 1%nat
  ∧ ∀ x y, (x < 1)%nat → (y < 2)%nat →
      ∃ column sprite,
        [[None; Some 0%nat]] !! x = Some column
        ∧ length column = 2%nat
        ∧ tileSprite (heap onePixelStore) [[0%nat]] 4
            (Image.get [1; 0] (y * 1 + x)) = Ok sprite
        ∧ column !! (2 - 1 - y)%nat = Some sprite.
Proof.
  apply (layer_cells (heap onePixelStore) [[0%nat]] 4 true 1 2 [1; 0]
           [[None; Some 0%nat]]).
  vm_compute. reflexivity.
Defined.

End LayerFacts.

(** ** Termination, strings and arrays of the parser *)

Module ParserMore.

Import Parser ParserFacts ParserVocab.

Lemma span_le (p : Z → bool) (l : jsstring) : (span p l ≤ length l)%nat.
Proof. induction l as [|c l IH]; simpl; [lia|]. destruct (p c); simpl; lia. Qed.

Lemma skip_ge (set source : jsstring) (i : nat) : (i ≤ skip set source i)%nat.
Proof. unfold skip. lia. Qed.

Lemma skipTo_ge (closer : Z) (source : jsstring) (i : nat) :
  (i ≤ skipTo closer source i)%nat.
Proof. unfold skipTo. lia. Qed.

(** X1. [regexIndexOf(text, re, i)] for a start [i] inside the text
    returns an index between [i] and the length of the text; no code
    unit from [i] up to that index is in the class of [re]; and unless
    the index is the length of the text, the code unit there is in the
    class: it is the first match at or after [i], or the length of the
    text when there is none. *)
Theorem regexIndexOf_first (text : jsstring) (class : Z → bool) (i : nat) :
  (i ≤ length text)%nat →
  let r := regexIndexOf text class i in
  (i ≤ r ≤ length text)%nat
  ∧ (∀ j c, (i ≤ j < r)%nat → text !! j = Some c → class c = false)
  ∧ ((r < length text)%nat → ∃ c, text !! r = Some c ∧ class c = true).
Proof.
  intros Hi r. subst r. unfold regexIndexOf.
  destruct (list_find _ (drop i text)) as [[k c]|] eqn:Hfind.
  - apply list_find_Some in Hfind as (Hk & Hc & Hbefore).
    rewrite lookup_drop in Hk.
    pose proof (lookup_lt_Some _ _ _ Hk) as Hlt.
    split; [lia|]. split.
    + intros j c' Hj Hj'. specialize (Hbefore (j - i)%nat c').
      rewrite lookup_drop in Hbefore.
      replace (i + (j - i))%nat with j in Hbefore by lia.
      destruct (class c'); [|done]. exfalso. apply Hbefore; [done|lia|done].
    + intros _. exists c. split; [|done]. by rewrite Nat.add_comm.
  - apply list_find_None in Hfind.
    split; [lia|]. split; [|lia].
    intros j c Hj Hc. rewrite Forall_forall in Hfind.
    destruct (class c) eqn:E; [|done]. exfalso.
    apply (Hfind c); [|done]. apply list_elem_of_lookup. exists (j - i)%nat.
    rewrite lookup_drop. by replace (i + (j - i))%nat with j by lia.
Qed.

Lemma regexIndexOf_first_witness :
  let r := regexIndexOf (js "ab, c") (λ c, c =? 44) 1 in
  (1 ≤ r ≤ 5)%nat
  ∧ (∀ j c, (1 ≤ j < r)%nat → js "ab, c" !! j = Some c → (c =? 44) = false)
  ∧ ((r < 5)%nat → ∃ c, js "ab, c" !! r = Some c ∧ (c =? 44) = true).
Proof.
  apply (regexIndexOf_first (js "ab, c") (λ c, c =? 44) 1). simpl. lia.
Defined.

Lemma regexIndexOf_ge (text : jsstring) (class : Z → bool) (i : nat) :
  (i ≤ length text)%nat → (i ≤ regexIndexOf text class i)%nat.
Proof.
  intros Hi. unfold regexIndexOf.
  destruct (list_find _ (drop i text)) as [[k c]|]; lia.
Qed.

Lemma regexIndexOf_beyond (text : jsstring) (class : Z → bool) (i : nat) :
  (length text ≤ i)%nat → regexIndexOf text class i = length text.
Proof. intros Hi. unfold regexIndexOf. by rewrite drop_ge. Qed.

Section termination.

Variable parseFloat : jsstring → float.

Lemma fuel_suffices (source : jsstring) (fuel : nat) :
  (∀ i, (2 * (length source - i) + 1 ≤ fuel)%nat →
        settled source i (_parse parseFloat fuel source i))
  ∧ (∀ i a, (2 * (length source - i) + 2 ≤ fuel)%nat →
            settled source i (parseArray parseFloat fuel source i a))
  ∧ (∀ i t, (2 * (length source - i) + 2 ≤ fuel)%nat →
            settled source i (parseTable parseFloat fuel source i t)).
Proof.
  induction fuel as [|fuel (IHparse & IHarray & IHtable)].
  { repeat split; intros; lia. }
  split; [|split].
  - intros i Hfuel. simpl.
    pose proof (skip_ge blank source i) as Hskip.
    destruct (source !! skip blank source i) as [c|] eqn:Hc.
    2: { eexists. split; [reflexivity|done]. }
    apply lookup_lt_Some in Hc.
    destruct (c =? 34).
    { eexists. split; [reflexivity|]. simpl. lia. }
    destruct (c =? 91).
    { pose proof (skip_ge blank source (S (skip blank source i))) as Hskip'.
      destruct (IHarray (skip blank source (S (skip blank source i))) [])
        as (r & -> & Hr); [lia|].
      exists r. split; [done|]. destruct r as [[v next]|]; [lia|done]. }
    destruct (c =? 123).
    { pose proof (skip_ge blank source (S (skip blank source i))) as Hskip'.
      destruct (IHtable (skip blank source (S (skip blank source i))) ∅)
        as (r & -> & Hr); [lia|].
      exists r. split; [done|]. destruct r as [[v next]|]; [lia|done]. }
    eexists. split; [reflexivity|]. unfold parseAtom.
    pose proof (regexIndexOf_ge source atomSeparator (skip blank source i)).
    simpl. lia.
  - intros i a Hfuel. simpl.
    destruct (source !! i) as [c|] eqn:Hc.
    2: { eexists. split; [reflexivity|]. simpl. lia. }
    apply lookup_lt_Some in Hc.
    destruct (c =? 93).
    { eexists. split; [reflexivity|]. simpl. lia. }
    destruct (IHparse i) as (r & -> & Hr); [lia|].
    destruct r as [[child next]|e].
    2: { eexists. split; [reflexivity|done]. }
    destruct (isEllipsis child).
    { eexists. split; [reflexivity|]. simpl.
      pose proof (skipTo_ge 93 source i). lia. }
    pose proof (skip_ge commaBlank source next) as Hskip.
    destruct (IHarray (skip commaBlank source next) (a ++ [child]))
      as (r & -> & Hr'); [lia|].
    exists r. split; [done|]. destruct r as [[v next']|]; [lia|done].
  - intros i t Hfuel. simpl.
    destruct (source !! i) as [c|] eqn:Hc.
    2: { eexists. split; [reflexivity|]. simpl. lia. }
    apply lookup_lt_Some in Hc.
    destruct (c =? 125).
    { eexists. split; [reflexivity|]. simpl. lia. }
    assert (Hkey : ∃ rk,
      (if c =? 34
       then match _parse parseFloat fuel source i with
            | Some (Ok r) => Some (Ok r)
            | Some (Throw e) => Some (Throw e)
            | None => None
            end
       else Some (Ok (VString
                        (substring i (regexIndexOf source keySeparator i)
                           source),
                      regexIndexOf source keySeparator i))) = Some rk
      ∧ match rk with
        | Ok (_, i') => (i ≤ i')%nat
        | Throw e => e = HitTheEnd source
        end).
    { destruct (c =? 34).
      - destruct (IHparse i) as (r & -> & Hr); [lia|].
        exists r. split; [by destruct r as [[]|]|].
        destruct r as [[]|]; [lia|done].
      - eexists. split; [reflexivity|]. simpl.
        apply regexIndexOf_ge. lia. }
    destruct Hkey as (rk & -> & Hrk).
    destruct rk as [[key i']|e].
    2: { eexists. split; [reflexivity|done]. }
    destruct (isEllipsis key).
    { eexists. split; [reflexivity|]. simpl.
      pose proof (skipTo_ge 125 source i'). lia. }
    pose proof (skip_ge colonBlank source i') as Hskip.
    destruct (IHparse (skip colonBlank source i')) as (r & -> & Hr); [lia|].
    destruct r as [[value next]|e].
    2: { eexists. split; [reflexivity|done]. }
    pose proof (skip_ge commaBlank source next) as Hskip'.
    destruct (IHtable (skip commaBlank source next)
                (setMember match key with VString k => k | _ => [] end
                   value t))
      as (r & -> & Hr'); [lia|].
    exists r. split; [done|]. destruct r as [[v next']|]; [lia|done].
Qed.


Lemma stringLength_escaped (prev : Z) (s rest : jsstring) :
  quotesEscaped prev s →
  last (prev :: s) ≠ Some 92 →
  stringLength prev (s ++ 34 :: rest) = length s.
Proof.
  revert prev. induction s as [|c s IH]; intros prev Hesc Hlast.
  - simpl in *. destruct (Z.eqb_spec prev 92) as [->|_]; [done|done].
  - destruct Hesc as [Hc Hesc]. simpl.
    assert (negb (c =? 34) || (prev =? 92) = true) as ->.
    { destruct (Z.eqb_spec c 34) as [E|_]; [|done].
      rewrite (Hc E). done. }
    f_equal. apply IH; [done|]. by rewrite last_cons_cons in Hlast.
Qed.

(** X3. A source that opens with a double quote, in which every further
    quote up to the closing one follows a backslash and the closing one
    does not, parses to the text between the two quotes, unchanged (the
    backslashes stay), and the index returned is that after the closing
    quote. *)
Theorem quoted_string_returned (s rest : jsstring) :
  quotesEscaped 34 s →
  last s ≠ Some 92 →
  parse parseFloat (34 :: s ++ 34 :: rest) 0
  = Some (Ok (VString s, (length s + 2)%nat)).
Proof.
  intros Hesc Hlast. unfold parse.
  assert (Hfuel : ∀ source : jsstring,
            ∃ fuel, (2 * length source + 2)%nat = S fuel).
  { intros source. exists (2 * length source + 1)%nat. lia. }
  destruct (Hfuel (34 :: s ++ 34 :: rest)) as [fuel ->].
  simpl. unfold skip. simpl. rewrite drop_0.
  rewrite stringLength_escaped; [| done |].
  - unfold substring. simpl. rewrite Nat.sub_0_r, drop_0, take_app_length.
    do 4 f_equal. lia.
  - destruct s as [|c s]; [done|]. by rewrite last_cons_cons.
Qed.

End termination.

Lemma quoted_string_returned_witness :
  parse (λ _, nan) (34 :: js "a\" ++ 34 :: js "b" ++ 34 :: js ", 1") 0
  = Some (Ok (VString (js "a\" ++ 34 :: js "b"), 6%nat)).
Proof.
  apply (quoted_string_returned (λ _, nan) (js "a\" ++ 34 :: js "b") (js ", 1")).
  - simpl. repeat split; intros; (done || lia).
  - simpl. discriminate.
Defined.


Section atoms.

Variable parseFloat : jsstring → float.

Lemma atomSeparator_chars (c : Z) :
  atomSeparator c = false →
  (c ∉ blank) ∧ (c ∉ commaBlank) ∧ c ≠ 34 ∧ c ≠ 91 ∧ c ≠ 123 ∧ c ≠ 93.
Proof.
  unfold atomSeparator, blank, commaBlank. intros H.
  apply bool_decide_eq_false in H. set_solver.
Qed.

Lemma regexIndexOf_token (pre token rest : jsstring) (c : Z) :
  Forall (λ x, atomSeparator x = false) token → atomSeparator c = true →
  regexIndexOf (pre ++ token ++ c :: rest) atomSeparator (length pre)
  = (length pre + length token)%nat.
Proof.
  intros Htoken Hc. unfold regexIndexOf. rewrite drop_app_length.
  assert (Hfind : list_find (λ x, atomSeparator x = true) (token ++ c :: rest)
                  = Some (length token, c)).
  { apply list_find_Some. split; [by rewrite list_lookup_middle|].
    split; [done|]. intros j y Hy Hj.
    rewrite lookup_app_l in Hy by done.
    rewrite (Forall_lookup_1 _ _ _ _ Htoken Hy). done. }
  rewrite Hfind. lia.
Qed.

Lemma regexIndexOf_token_end (pre token : jsstring) :
  Forall (λ x, atomSeparator x = false) token →
  regexIndexOf (pre ++ token) atomSeparator (length pre)
  = (length pre + length token)%nat.
Proof.
  intros Htoken. unfold regexIndexOf. rewrite drop_app_length.
  assert (Hfind : list_find (λ x, atomSeparator x = true) token = None).
  { apply list_find_None. eapply Forall_impl; [exact Htoken|].
    intros x Hx. simpl in Hx. by rewrite Hx. }
  rewrite Hfind. by rewrite length_app.
Qed.

Lemma substring_token (pre token rest : jsstring) :
  substring (length pre) (length pre + length token) (pre ++ token ++ rest)
  = token.
Proof.
  unfold substring. rewrite drop_app_length.
  replace (length pre + length token - length pre)%nat with (length token)
    by lia.
  by rewrite take_app_length.
Qed.

Lemma parseAtom_token (pre token rest : jsstring) (c : Z) :
  Forall (λ x, atomSeparator x = false) token → atomSeparator c = true →
  parseAtom parseFloat (pre ++ token ++ c :: rest) (length pre)
  = (atomValue parseFloat token, S (length pre + length token)).
Proof.
  intros Htoken Hc. unfold atomValue, parseAtom.
  rewrite regexIndexOf_token by done.
  pose proof (regexIndexOf_token_end [] token Htoken) as Hend.
  cbn [app length Nat.add] in Hend. rewrite Hend.
  rewrite substring_token.
  pose proof (substring_token [] token []) as Hsub.
  rewrite app_nil_r in Hsub. cbn [app length Nat.add] in Hsub.
  by rewrite Hsub.
Qed.

Lemma parseAtom_token_end (pre token : jsstring) :
  Forall (λ x, atomSeparator x = false) token →
  parseAtom parseFloat (pre ++ token) (length pre)
  = (atomValue parseFloat token, S (length pre + length token)).
Proof.
  intros Htoken. unfold atomValue, parseAtom.
  rewrite regexIndexOf_token_end by done.
  pose proof (regexIndexOf_token_end [] token Htoken) as Hend.
  cbn [app length Nat.add] in Hend. rewrite Hend.
  pose proof (substring_token pre token []) as Hsub.
  rewrite app_nil_r in Hsub. rewrite Hsub.
  pose proof (substring_token [] token []) as Hsub0.
  rewrite app_nil_r in Hsub0. cbn [app length Nat.add] in Hsub0.
  by rewrite Hsub0.
Qed.

Lemma namedConstant_no_string (token s : jsstring) :
  namedConstant token ≠ Some (VString s).
Proof.
  unfold namedConstant.
  repeat (case_bool_decide; [discriminate|]).
  destruct token as [|c [|c' [|c'' token]]]; try discriminate;
    repeat case_match; try discriminate;
    intros Hf; apply fmap_Some in Hf as (q & _ & Hq); discriminate Hq.
Qed.

Lemma atomValue_no_ellipsis (token : jsstring) :
  isEllipsis (atomValue parseFloat token) = false.
Proof.
  unfold atomValue, parseAtom. cbn [fst].
  destruct (namedConstant _) as [v|] eqn:Hv.
  - destruct v; try done. by apply namedConstant_no_string in Hv.
  - by repeat case_match.
Qed.

Lemma skip_at (set source : jsstring) (i : nat) (c : Z) :
  source !! i = Some c → c ∉ set → skip set source i = i.
Proof.
  intros Hc Hset. unfold skip.
  rewrite (drop_S source c i Hc). simpl.
  rewrite bool_decide_false by done. lia.
Qed.

Lemma skip_end (set source : jsstring) (i : nat) :
  (length source ≤ i)%nat → skip set source i = i.
Proof. intros Hi. unfold skip. rewrite drop_ge by done. simpl. lia. Qed.

Lemma skip_one (set source : jsstring) (i : nat) (c d : Z) :
  source !! i = Some c → c ∈ set →
  source !! S i = Some d → d ∉ set →
  skip set source i = S i.
Proof.
  intros Hc Hset Hd Hdset. unfold skip.
  rewrite (drop_S source c i Hc). simpl. rewrite bool_decide_true by done.
  rewrite (drop_S source d (S i) Hd). simpl.
  rewrite bool_decide_false by done. lia.
Qed.

(** One call of [_parse] at the first code unit of an atom that a
    separator ends. *)
Lemma parse_atom (fuel : nat) (pre token rest : jsstring) (c : Z) :
  atomToken token → atomSeparator c = true →
  _parse parseFloat (S fuel) (pre ++ token ++ c :: rest) (length pre)
  = Some (Ok (atomValue parseFloat token, S (length pre + length token))).
Proof.
  intros [Hne Htoken] Hc. destruct token as [|c0 token]; [done|].
  pose proof (Forall_inv Htoken) as Hc0. cbn beta in Hc0.
  apply atomSeparator_chars in Hc0 as (Hb & _ & H34 & H91 & H123 & _).
  assert (Hat : (pre ++ (c0 :: token) ++ c :: rest) !! length pre = Some c0).
  { by rewrite lookup_app_r, Nat.sub_diag by lia. }
  cbn [_parse]. rewrite (skip_at _ _ _ c0 Hat Hb), Hat.
  destruct (Z.eqb_spec c0 34); [done|].
  destruct (Z.eqb_spec c0 91); [done|].
  destruct (Z.eqb_spec c0 123); [done|].
  by rewrite parseAtom_token.
Qed.

Lemma _parse_S (fuel : nat) (source : jsstring) (i : nat) :
  _parse parseFloat (S fuel) source i
  = let i := skip blank source i in
    match source !! i with
    | None => Some (Throw (HitTheEnd source))
    | Some c =>
        if c =? 34 then
          let begin := S i in
          let i := (begin + stringLength 34 (drop begin source))%nat in
          Some (Ok (VString (substring begin i source), S i))
        else if c =? 91 then
          parseArray parseFloat fuel source (skip blank source (S i)) []
        else if c =? 123 then
          parseTable parseFloat fuel source (skip blank source (S i)) ∅
        else Some (Ok (parseAtom parseFloat source i))
    end.
Proof. reflexivity. Qed.

Lemma parseArray_S (fuel : nat) (source : jsstring) (i : nat)
    (a : list Value) :
  parseArray parseFloat (S fuel) source i a
  = match source !! i with
    | Some c =>
        if c =? 93 then Some (Ok (VArray a, S i))
        else
          match _parse parseFloat fuel source i with
          | None => None
          | Some (Throw e) => Some (Throw e)
          | Some (Ok (child, next)) =>
              if isEllipsis child then
                Some (Ok (VArray [], S (skipTo 93 source i)))
              else
                parseArray parseFloat fuel source
                  (skip commaBlank source next) (a ++ [child])
          end
    | None => Some (Ok (VArray a, S i))
    end.
Proof. reflexivity. Qed.

(** X25. An atom takes the separator that ends it along, also when that
    separator is a closing bracket. So the array written [[a],b], for
    any two atoms [a] and [b] of plain code units, parses to an array of
    one element, the array of [a] and [b]: the inner array is not closed
    after [a], and the end of the source closes both. *)
Theorem atom_swallows_bracket (a b : jsstring) :
  plainToken a → plainToken b →
  parse parseFloat (js "[[" ++ a ++ js "]," ++ b ++ js "]") 0
  = Some (Ok (VArray [VArray [atomValue parseFloat a;
                              atomValue parseFloat b]],
              (length a + length b + 7)%nat)).
Proof.
  intros [Ha _] [Hb _].
  pose proof Ha as [Hane Hatoken]. pose proof Hb as [Hbne Hbtoken].
  destruct a as [|a0 a']; [done|]. destruct b as [|b0 b']; [done|].
  set (a := a0 :: a') in *. set (b := b0 :: b') in *.
  pose proof (Forall_inv Hatoken) as Ha0. cbn beta in Ha0.
  pose proof (Forall_inv Hbtoken) as Hb0. cbn beta in Hb0.
  apply atomSeparator_chars in Ha0 as (Hab & Hac & _ & _ & _ & Ha93).
  apply atomSeparator_chars in Hb0 as (Hbb & Hbc & _ & _ & _ & Hb93).
  set (source := js "[[" ++ a ++ js "]," ++ b ++ js "]").
  assert (Hlen : length source = (length a + length b + 5)%nat).
  { unfold source. rewrite !length_app. simpl. lia. }
  assert (H0 : source !! 0%nat = Some 91) by reflexivity.
  assert (H1 : source !! 1%nat = Some 91) by reflexivity.
  assert (H2 : source !! 2%nat = Some a0) by reflexivity.
  assert (Hsa : source = [91; 91] ++ a ++ 93 :: 44 :: b ++ [93])
    by reflexivity.
  assert (Hsb : source = ([91; 91] ++ a ++ [93; 44]) ++ b ++ 93 :: []).
  { unfold source. by rewrite <- !app_assoc. }
  assert (Hpre : length ([91; 91] ++ a ++ [93; 44]) = (length a + 4)%nat).
  { rewrite !length_app. simpl. lia. }
  assert (H3 : source !! (length a + 3)%nat = Some 44).
  { assert (Hs : source = ([91; 91] ++ a ++ [93]) ++ 44 :: b ++ [93]).
    { unfold source. by rewrite <- !app_assoc. }
    rewrite Hs. apply list_lookup_middle. rewrite !length_app. simpl. lia. }
  assert (H4 : source !! (length a + 4)%nat = Some b0).
  { rewrite Hsb, <- Hpre. by rewrite lookup_app_r, Nat.sub_diag by lia. }
  assert (Hatom_a : ∀ fuel,
            _parse parseFloat (S fuel) source 2
            = Some (Ok (atomValue parseFloat a, (length a + 3)%nat))).
  { intros fuel.
    pose proof (parse_atom fuel [91; 91] a (44 :: b ++ [93]) 93 Ha eq_refl)
      as Hatom.
    rewrite <- Hsa in Hatom. change (length [91; 91]) with 2%nat in Hatom.
    rewrite Hatom. do 3 f_equal. lia. }
  assert (Hatom_b : ∀ fuel,
            _parse parseFloat (S fuel) source (length a + 4)
            = Some (Ok (atomValue parseFloat b,
                        (length a + length b + 5)%nat))).
  { intros fuel.
    pose proof (parse_atom fuel ([91; 91] ++ a ++ [93; 44]) b [] 93 Hb
                  eq_refl) as Hatom.
    rewrite <- Hsb, Hpre in Hatom. rewrite Hatom. do 3 f_equal. lia. }
  assert (H4' : source !! S (length a + 3) = Some b0).
  { by replace (S (length a + 3)) with (length a + 4)%nat by lia. }
  assert (Hcomma : 44 ∈ commaBlank) by (apply elem_of_cons; by left).
  assert (Hblank : 91 ∉ blank).
  { intros H. unfold blank in H.
    repeat (apply elem_of_cons in H as [H|H]; [discriminate H|]).
    by apply elem_of_nil in H. }
  unfold parse.
  assert (Hfuel : ∃ fuel, (2 * length source + 2)%nat
                        = S (S (S (S (S (S fuel)))))).
  { exists (2 * length source - 4)%nat. lia. }
  destruct Hfuel as [fuel ->].
  clearbody source. clear Hsa Hsb.
  (* the outer array *)
  rewrite _parse_S. cbv zeta.
  rewrite (skip_at _ _ _ 91 H0 Hblank), H0. cbn [Z.eqb Pos.eqb].
  rewrite (skip_at _ _ _ 91 H1 Hblank).
  rewrite parseArray_S, H1. cbn [Z.eqb Pos.eqb].
  (* the inner array *)
  rewrite _parse_S. cbv zeta.
  rewrite (skip_at _ _ _ 91 H1 Hblank), H1. cbn [Z.eqb Pos.eqb].
  rewrite (skip_at _ _ _ a0 H2 Hab).
  rewrite parseArray_S, H2.
  destruct (Z.eqb_spec a0 93) as [|_]; [done|].
  (* the atom a, which takes the bracket of the inner array *)
  rewrite Hatom_a, atomValue_no_ellipsis.
  rewrite (skip_one commaBlank source (length a + 3) 44 b0 H3 Hcomma H4' Hbc).
  replace (S (length a + 3)) with (length a + 4)%nat by lia.
  rewrite parseArray_S, H4.
  destruct (Z.eqb_spec b0 93) as [|_]; [done|].
  (* the atom b, which takes the bracket of the outer array *)
  rewrite Hatom_b, atomValue_no_ellipsis.
  (* the end of the source closes both arrays *)
  rewrite skip_end by lia.
  rewrite parseArray_S.
  rewrite (lookup_ge_None_2 source) by lia.
  cbn [isEllipsis].
  rewrite skip_end by lia.
  rewrite parseArray_S.
  rewrite (lookup_ge_None_2 source) by lia.
  cbn [app]. do 3 f_equal. lia.
Qed.

Lemma commaJoin_head (c : Z) (token : jsstring) (tokens : list jsstring) :
  ∃ rest, commaJoin ((c :: token) :: tokens) = c :: rest.
Proof. destruct tokens; by eexists. Qed.

Lemma commaJoin_length (tokens : list jsstring) :
  Forall atomToken tokens → (length tokens ≤ length (commaJoin tokens))%nat.
Proof.
  induction 1 as [|token tokens [Hne _] _ IH]; [done|].
  destruct token as [|c token]; [done|].
  destruct tokens as [|token' tokens]; [simpl; lia|].
  cbn [commaJoin length] in *. rewrite length_app. cbn [length]. lia.
Qed.

Lemma parseArray_element (fuel : nat) (source : jsstring) (i next : nat)
    (acc : list Value) (c : Z) (child : Value) :
  source !! i = Some c → c ≠ 93 →
  _parse parseFloat fuel source i = Some (Ok (child, next)) →
  isEllipsis child = false →
  parseArray parseFloat (S fuel) source i acc
  = parseArray parseFloat fuel source (skip commaBlank source next)
      (acc ++ [child]).
Proof.
  intros Hc H93 Hchild Hell. rewrite parseArray_S, Hc.
  destruct (Z.eqb_spec c 93) as [|_]; [done|].
  by rewrite Hchild, Hell.
Qed.

Lemma parseArray_end (fuel : nat) (source : jsstring) (i : nat)
    (acc : list Value) :
  (length source ≤ i)%nat →
  parseArray parseFloat (S fuel) source i acc = Some (Ok (VArray acc, S i)).
Proof.
  intros Hi. by rewrite parseArray_S, (lookup_ge_None_2 source).
Qed.

(** The loop of an array over atoms that commas separate, up to the
    bracket that the last atom takes. *)
Lemma array_loop (tokens : list jsstring) (pre : jsstring)
    (acc : list Value) (fuel : nat) :
  Forall atomToken tokens → tokens ≠ [] →
  (length tokens + 1 ≤ fuel)%nat →
  parseArray parseFloat fuel (pre ++ commaJoin tokens ++ [93]) (length pre)
    acc
  = Some (Ok (VArray (acc ++ (atomValue parseFloat <$> tokens)),
              S (length (pre ++ commaJoin tokens ++ [93])))).
Proof.
  intros Htokens. revert pre acc fuel.
  induction Htokens as [|token tokens Htoken Htokens IH];
    intros pre acc fuel Hne Hfuel; [done|].
  destruct fuel as [|[|fuel]]; cbn [length] in Hfuel; try lia.
  pose proof Htoken as [Hnil Hchars].
  destruct token as [|c0 token']; [done|].
  pose proof (Forall_inv Hchars) as Hc0. cbn beta in Hc0.
  apply atomSeparator_chars in Hc0 as (_ & _ & _ & _ & _ & H93).
  set (token := c0 :: token') in *.
  destruct tokens as [|token2 tokens].
  - (* the last atom *)
    cbn [commaJoin fmap list_fmap].
    set (source := pre ++ token ++ [93]).
    assert (Hat : source !! length pre = Some c0).
    { unfold source. by rewrite lookup_app_r, Nat.sub_diag by lia. }
    assert (Hlen : length source = S (length pre + length token)).
    { unfold source. rewrite !length_app. simpl. lia. }
    assert (Hatom : _parse parseFloat (S fuel) source (length pre)
                    = Some (Ok (atomValue parseFloat token,
                                S (length pre + length token)))).
    { unfold source. by apply parse_atom. }
    clearbody source.
    pose proof (parseArray_element (S fuel) source (length pre) _ acc c0 _
                  Hat H93 Hatom (atomValue_no_ellipsis token)) as Hstep.
    rewrite Hstep.
    rewrite skip_end by lia.
    rewrite parseArray_end by lia.
    by rewrite Hlen.
  - (* an atom that a comma ends *)
    pose proof (Forall_inv Htokens) as [Hnil2 Hchars2].
    destruct token2 as [|c2 token2']; [done|].
    pose proof (Forall_inv Hchars2) as Hc2. cbn beta in Hc2.
    apply atomSeparator_chars in Hc2 as (_ & Hcomma2 & _).
    destruct (commaJoin_head c2 token2' tokens) as [r Hr].
    change (commaJoin (token :: (c2 :: token2') :: tokens))
      with (token ++ 44 :: commaJoin ((c2 :: token2') :: tokens)).
    cbn [fmap list_fmap].
    revert IH Hr. generalize (commaJoin ((c2 :: token2') :: tokens)).
    intros rest IH Hr.
    set (source := pre ++ (token ++ 44 :: rest) ++ [93]).
    assert (Hsource : source = (pre ++ token ++ [44]) ++ rest ++ [93]).
    { unfold source. by rewrite <- !app_assoc. }
    assert (Hpre : length (pre ++ token ++ [44])
                   = S (length pre + length token)).
    { rewrite !length_app. simpl. lia. }
    assert (Hat : source !! length pre = Some c0).
    { unfold source. by rewrite lookup_app_r, Nat.sub_diag by lia. }
    assert (Hatom : _parse parseFloat (S fuel) source (length pre)
                    = Some (Ok (atomValue parseFloat token,
                                S (length pre + length token)))).
    { unfold source. rewrite <- (app_assoc token). cbn [app].
      by apply parse_atom. }
    assert (Hnext : source !! S (length pre + length token) = Some c2).
    { rewrite Hsource, <- Hpre.
      by rewrite lookup_app_r, Nat.sub_diag, Hr by lia. }
    specialize (IH (pre ++ token ++ [44]) (acc ++ [atomValue parseFloat token])
                  (S fuel)).
    rewrite <- Hsource, Hpre in IH.
    clearbody source.
    pose proof (parseArray_element (S fuel) source (length pre) _ acc c0 _
                  Hat H93 Hatom (atomValue_no_ellipsis token)) as Hstep.
    rewrite Hstep.
    rewrite (skip_at _ _ _ c2 Hnext Hcomma2).
    rewrite IH; [|done|cbn [length] in *; lia].
    by rewrite <- app_assoc.
Qed.

(** X27. A source that is one array of atoms of plain code units with a
    comma between each two parses to the array of the values of the
    atoms, in their order. The last atom takes the closing bracket, so
    the index returned is one beyond the end of the source. *)
Theorem array_of_atoms (tokens : list jsstring) :
  Forall plainToken tokens → tokens ≠ [] →
  parse parseFloat (js "[" ++ commaJoin tokens ++ js "]") 0
  = Some (Ok (VArray (atomValue parseFloat <$> tokens),
              S (length (js "[" ++ commaJoin tokens ++ js "]")))).
Proof.
  intros Hplain Hne.
  assert (Htokens : Forall atomToken tokens).
  { eapply Forall_impl; [exact Hplain|]. by intros token [Htoken _]. }
  clear Hplain. unfold parse.
  set (source := js "[" ++ commaJoin tokens ++ js "]").
  assert (Hlen : (length tokens + 2 ≤ length source)%nat).
  { unfold source. rewrite !length_app. simpl.
    pose proof (commaJoin_length tokens Htokens). lia. }
  assert (H0 : source !! 0%nat = Some 91) by reflexivity.
  assert (Hblank : 91 ∉ blank).
  { intros H. unfold blank in H.
    repeat (apply elem_of_cons in H as [H|H]; [discriminate H|]).
    by apply elem_of_nil in H. }
  assert (H1 : ∃ c, source !! 1%nat = Some c ∧ c ∉ blank).
  { destruct tokens as [|[|c token] tokens]; [done| |].
    - by destruct (Forall_inv Htokens).
    - exists c. split.
      + unfold source.
        by destruct (commaJoin_head c token tokens) as [r ->].
      + destruct (Forall_inv Htokens) as [_ Hchars].
        pose proof (Forall_inv Hchars) as Hc. cbn beta in Hc.
        by apply atomSeparator_chars in Hc as (Hb & _). }
  destruct H1 as (c & H1 & Hc).
  pose proof (array_loop tokens [91] [] (2 * length source + 1) Htokens Hne)
    as Hloop.
  change ([91] ++ commaJoin tokens ++ [93]) with source in Hloop.
  change (length [91]) with 1%nat in Hloop.
  clearbody source.
  replace (2 * length source + 2)%nat with (S (2 * length source + 1)) by lia.
  rewrite _parse_S. cbv zeta.
  rewrite (skip_at _ _ _ 91 H0 Hblank), H0. cbn [Z.eqb Pos.eqb].
  rewrite (skip_at _ _ _ c H1 Hc).
  rewrite Hloop by lia. done.
Qed.

(** One call of [_parse] at the first code unit of an atom that goes
    up to the end of the source. *)
Lemma parse_atom_end (fuel : nat) (pre token : jsstring) :
  atomToken token →
  _parse parseFloat (S fuel) (pre ++ token) (length pre)
  = Some (Ok (atomValue parseFloat token, S (length pre + length token))).
Proof.
  intros [Hne Htoken]. destruct token as [|c0 token]; [done|].
  pose proof (Forall_inv Htoken) as Hc0. cbn beta in Hc0.
  apply atomSeparator_chars in Hc0 as (Hb & _ & H34 & H91 & H123 & _).
  assert (Hat : (pre ++ c0 :: token) !! length pre = Some c0).
  { by rewrite lookup_app_r, Nat.sub_diag by lia. }
  cbn [_parse]. rewrite (skip_at _ _ _ c0 Hat Hb), Hat.
  destruct (Z.eqb_spec c0 34); [done|].
  destruct (Z.eqb_spec c0 91); [done|].
  destruct (Z.eqb_spec c0 123); [done|].
  by rewrite parseAtom_token_end.
Qed.

End atoms.

(** The array of X25 with the atoms [TRUE] and [½] (code unit 189), and
    beside it an inner array that a string ends: the quote of the string
    is the last code unit the string takes, so the bracket after it
    closes the inner array. *)
Example nested_array_of_atoms :
  parse (λ _, nan) (js "[[TRUE]," ++ [189] ++ js "]") 0
  = Some (Ok (VArray [VArray [VBool true; VNumber 0.5]], 12%nat)).
Proof. vm_compute. reflexivity. Qed.

Example nested_array_of_a_string :
  parse (λ _, nan) (js "[[" ++ 34 :: js "x" ++ 34 :: js "],nil]") 0
  = Some (Ok (VArray [VArray [VString (js "x")]; VUndefined], 12%nat)).
Proof. vm_compute. reflexivity. Qed.

(** The array of X27 with the atoms [True], [Π] (code unit 928), [-½]
    and [NaN]: a token is read in lower case, so the capital [Π] is the
    [π] whose value is [undefined]. *)
Lemma array_of_atoms_witness :
  parse (λ _, nan)
    (js "[" ++ commaJoin [js "True"; [928]; [45; 189]; js "NaN"] ++ js "]") 0
  = Some (Ok (VArray (atomValue (λ _, nan)
                        <$> [js "True"; [928]; [45; 189]; js "NaN"]),
              S (length (js "[" ++ commaJoin [js "True"; [928]; [45; 189];
                                              js "NaN"]
                           ++ js "]")))).
Proof.
  apply (array_of_atoms (λ _, nan) [js "True"; [928]; [45; 189]; js "NaN"]).
  - repeat constructor; (discriminate || reflexivity).
  - discriminate.
Defined.

Example array_of_atoms_values :
  atomValue (λ _, nan) <$> [js "True"; [928]; [45; 189]; js "NaN"]
  = [VBool true; VUndefined; VNumber (-0.5); VNumber nan].
Proof. vm_compute. reflexivity. Qed.

Lemma atom_swallows_bracket_witness :
  parse (λ _, nan) (js "[[" ++ js "TRUE" ++ js "]," ++ [189] ++ js "]") 0
  = Some (Ok (VArray [VArray [atomValue (λ _, nan) (js "TRUE");
                              atomValue (λ _, nan) [189]]],
              (length (js "TRUE") + length [189] + 7)%nat)).
Proof.
  apply (atom_swallows_bracket (λ _, nan) (js "TRUE") [189]);
    (split; [split; [discriminate|repeat constructor]|repeat constructor]).
Defined.

End ParserMore.

(** ** Constants *)

Module ConstantsFacts.

Import Manifest Constants ParserVocab ParserMore.

Lemma sum_list_elem (n : nat) (l : list nat) : n ∈ l → (n ≤ sum_list l)%nat.
Proof.
  induction l as [|m l IH]; intros Hn; [by apply elem_of_nil in Hn|].
  apply elem_of_cons in Hn as [->|Hn]; simpl; [lia|].
  specialize (IH Hn). lia.
Qed.

Lemma size_array (l : list Value) (x : Value) :
  x ∈ l → (size x < size (Array l))%nat.
Proof.
  intros Hx. simpl. apply Nat.lt_succ_r, sum_list_elem.
  by apply list_elem_of_fmap_2.
Qed.

Lemma size_object (o : gmap jsstring Value) (k : jsstring) (x : Value) :
  o !! k = Some x → (size x < size (Object o))%nat.
Proof.
  intros Hx. simpl. apply Nat.lt_succ_r, sum_list_elem.
  apply list_elem_of_fmap. exists (k, size x). split; [done|].
  apply elem_of_map_to_list. by rewrite lookup_fmap, Hx.
Qed.

(** Induction over a value and the values inside it. *)
Lemma Value_induction (P : Value → Prop) :
  (∀ x, (∀ l, x = Array l → Forall P l) →
        (∀ o, x = Object o → map_Forall (λ _, P) o) → P x) →
  ∀ x, P x.
Proof.
  intros Hstep.
  assert (Hsize : ∀ n x, (size x < n)%nat → P x).
  { induction n as [|n IH]; intros x Hx; [lia|]. apply Hstep.
    - intros l ->. apply Forall_forall. intros y Hy. apply IH.
      pose proof (size_array l y Hy). lia.
    - intros o ->. intros k y Hy. apply IH.
      pose proof (size_object o k y Hy). lia. }
  intros x. apply (Hsize (S (size x))). lia.
Qed.

Lemma nullToUndefined_result (y : Value) :
  containsNull y → ∀ x, y ≠ nullToUndefined x.
Proof.
  induction 1 as [|l y Hy _ IH|o k y Hy _ IH]; intros x Hx.
  - by destruct x.
  - destruct x as [| | | | |l0|o0|]; try discriminate Hx.
    simpl in Hx. injection Hx as ->.
    apply list_elem_of_fmap in Hy as (x0 & -> & _). by apply (IH x0).
  - destruct x as [| | | | |l0|o0|]; try discriminate Hx.
    simpl in Hx. injection Hx as ->.
    rewrite lookup_fmap in Hy.
    destruct (o0 !! k) as [x0|]; [|discriminate Hy].
    injection Hy as <-. by apply (IH x0).
Qed.

(** X4. [nullToUndefined] leaves no [null] in what it returns, however
    deep it sat in the arrays and objects of the argument. *)
Theorem nullToUndefined_no_null (x : Value) :
  ¬ containsNull (nullToUndefined x).
Proof. intros H. by apply (nullToUndefined_result _ H x). Qed.

Lemma nullToUndefined_without_null (x : Value) :
  ¬ containsNull x → nullToUndefined x = x.
Proof.
  induction x as [x Harray Hobject] using Value_induction. intros Hx.
  destruct x as [| | | | |l|o|]; try done.
  - destruct Hx. constructor.
  - simpl. f_equal. specialize (Harray l eq_refl).
    rewrite <- (list_fmap_id l) at 2. apply list_fmap_ext.
    intros i y Hy. simpl.
    apply (Forall_lookup_1 _ _ _ _ Harray Hy). intros Hnull. apply Hx.
    apply (null_in_array l y); [|done]. by eapply list_elem_of_lookup_2.
  - simpl. f_equal. specialize (Hobject o eq_refl).
    apply map_eq. intros k. rewrite lookup_fmap.
    destruct (o !! k) as [y|] eqn:Hy; [|done]. simpl. f_equal.
    apply (Hobject k y Hy). intros Hnull. apply Hx.
    by apply (null_in_object o k y).
Qed.

(** X5. [nullToUndefined] changes nothing but the [null]s: a value
    without [null] comes back as it is, so applying the function a
    second time changes nothing. *)
Theorem nullToUndefined_idempotent :
  (∀ x, ¬ containsNull x → nullToUndefined x = x)
  ∧ (∀ x, nullToUndefined (nullToUndefined x) = nullToUndefined x).
Proof.
  split; [apply nullToUndefined_without_null|].
  intros x. apply nullToUndefined_without_null.
  intros H. by apply (nullToUndefined_result _ H x).
Qed.

Section eval.

Variable parseFloat : jsstring → float.

Local Abbreviation eval := (evalJSONGameConstant parseFloat).

(** What the recursive calls of [evalJSONGameConstant] compute. *)
Lemma component_member (o members : gmap jsstring Json) (k : jsstring) :
  o !! js "value" = Some (JObj members) →
  match
    ((λ v, match v with
           | JObj members => eval <$> members
           | _ => ∅
           end) <$> o) !! js "value"
  with
  | Some members => default (Throw TypeError) (members !! k)
  | None => Throw TypeError
  end = evalMember parseFloat (members !! k).
Proof.
  intros Hvalue. rewrite lookup_fmap, Hvalue. simpl. rewrite lookup_fmap.
  by destruct (members !! k).
Qed.

Lemma component_no_object (o : gmap jsstring Json) (k : jsstring) :
  (∀ members, o !! js "value" ≠ Some (JObj members)) →
  match
    ((λ v, match v with
           | JObj members => eval <$> members
           | _ => ∅
           end) <$> o) !! js "value"
  with
  | Some members => default (Throw TypeError) (members !! k)
  | None => Throw TypeError
  end = Throw TypeError.
Proof.
  intros Hvalue. rewrite lookup_fmap.
  destruct (o !! js "value") as [[]|]; simpl; try done.
  by destruct (Hvalue o0).
Qed.

(** X6. The constant types that the [switch] names without
    implementing them ([grid], [object], [array]) end in the exception
    of an unrecognized data type, like every other type name outside the
    nine implemented ones, a [type] that is no string, and a missing
    [type]. *)
Theorem unimplemented_types (o : gmap jsstring Json) :
  (∀ t, o !! js "type" = Some (JStr t) → t ∉ implementedTypes →
        eval (JObj o) = Throw (UnrecognizedDataType (Some (JStr t))))
  ∧ ((∀ t, o !! js "type" ≠ Some (JStr t)) →
     eval (JObj o) = Throw (UnrecognizedDataType (o !! js "type")))
  ∧ (js "grid" ∉ implementedTypes)
  ∧ (js "object" ∉ implementedTypes)
  ∧ (js "array" ∉ implementedTypes).
Proof.
  split; [|split].
  - intros t Ht Hnot. simpl. rewrite Ht.
    unfold implementedTypes in Hnot.
    repeat (apply not_elem_of_cons in Hnot as [? Hnot]).
    by rewrite !bool_decide_false by done.
  - intros Hno. simpl.
    destruct (o !! js "type") as [[]|]; try done. by destruct (Hno s).
  - repeat split; intros H; unfold implementedTypes in H;
      repeat (apply elem_of_cons in H as [H|H]; [discriminate H|]);
      by apply elem_of_nil in H.
Qed.

(** X7. A [raw] constant with a [url] member, whatever its value, is
    refused below the top level; without one its value is returned with
    every [null] replaced by [undefined], so the result holds no
    [null]. *)
Theorem raw_constant (o : gmap jsstring Json) :
  o !! js "type" = Some (JStr (js "raw")) →
  (o !! js "url" ≠ None → eval (JObj o) = Throw RawWithUrl)
  ∧ (o !! js "url" = None →
     ∃ v, eval (JObj o) = Ok v
          ∧ ¬ containsNull v
          ∧ v = nullToUndefined
                  (default Undefined (ofJson <$> o !! js "value"))).
Proof.
  intros Ht. split.
  - intros Hurl. simpl. rewrite Ht. simpl.
    by destruct (o !! js "url").
  - intros Hurl. simpl. rewrite Ht, Hurl. simpl.
    eexists. split; [reflexivity|]. split; [|reflexivity].
    intros H. by apply (nullToUndefined_result _ H
                          (default Undefined (ofJson <$> o !! js "value"))).
Qed.

Lemma skipWhiteSpace_blanks (ws l : jsstring) :
  Forall (λ c, Hex.isStrWhiteSpace c = true) ws →
  Hex.skipWhiteSpace (ws ++ l) = Hex.skipWhiteSpace l.
Proof. induction 1 as [|c ws Hc _ IH]; simpl; [done|]. by rewrite Hc. Qed.

Lemma skipWhiteSpace_stops (c : Z) (l : jsstring) :
  Hex.isStrWhiteSpace c = false → Hex.skipWhiteSpace (c :: l) = c :: l.
Proof. intros Hc. simpl. by rewrite Hc. Qed.

(** [trim] takes the white space off both ends of a text and leaves what
    lies between two code units that are no white space. *)
Lemma trim_token (before token after : jsstring) :
  Forall (λ c, Hex.isStrWhiteSpace c = true) before →
  Forall (λ c, Hex.isStrWhiteSpace c = true) after →
  Forall (λ c, Hex.isStrWhiteSpace c = false) token →
  token ≠ [] →
  trim (before ++ token ++ after) = token.
Proof.
  intros Hbefore Hafter Htoken Hne. unfold trim.
  rewrite skipWhiteSpace_blanks by done.
  destruct token as [|c token]; [done|]. simpl.
  rewrite (Forall_inv Htoken).
  change (c :: token ++ after) with ((c :: token) ++ after).
  rewrite reverse_app, skipWhiteSpace_blanks by by apply Forall_reverse.
  apply Forall_reverse in Htoken.
  destruct (reverse (c :: token)) as [|d r] eqn:Hr.
  { apply (f_equal length) in Hr. rewrite length_reverse in Hr.
    discriminate Hr. }
  rewrite skipWhiteSpace_stops by apply (Forall_inv Htoken).
  by rewrite <- Hr, reverse_involutive.
Qed.

(** [_parse(source).result] is a value, or the exception of [_parse]. *)
Lemma parsed_settled (source : jsstring) :
  (∃ v next,
     Parser.parse parseFloat source 0 = Some (Ok (v, next))
     ∧ parsed parseFloat source = Ok (ofParsed v))
  ∨ (Parser.parse parseFloat source 0
       = Some (Throw (Parser.HitTheEnd source))
     ∧ parsed parseFloat source
       = Throw (ParseError (Parser.HitTheEnd source))).
Proof.
  destruct (fuel_suffices parseFloat source (2 * length source + 2))
    as (H & _ & _).
  destruct (H 0%nat) as (r & Hr & Hshape); [lia|].
  unfold parsed, Parser.parse. rewrite Hr. destruct r as [[v next]|e].
  - left. by exists v, next.
  - right. by subst e.
Qed.


(** X8. The members [x] and [y] of the value of an [xy] constant are
    constants themselves, evaluated by the same function, [x] first; the
    first exception leaves the call. So a member that is a bare number
    and not an object with a [type] fails as an unrecognized data type,
    and a value that is no object fails on the read of its member. *)
Theorem xy_constant (o : gmap jsstring Json) :
  o !! js "type" = Some (JStr (js "xy")) →
  (∀ members,
     o !! js "value" = Some (JObj members) →
     eval (JObj o)
     = (evalMember parseFloat (members !! js "x") ≫= λ x,
        evalMember parseFloat (members !! js "y") ≫= λ y,
        mret (Object (<[js "y" := y]> (<[js "x" := x]> ∅))))
     ∧ (∀ n, members !! js "x" = Some (JNum n) →
             eval (JObj o) = Throw (UnrecognizedDataType None)))
  ∧ ((∀ members, o !! js "value" ≠ Some (JObj members)) →
     eval (JObj o) = Throw TypeError).
Proof.
  intros Ht. split.
  - intros members Hvalue.
    assert (Heq : eval (JObj o)
                  = (evalMember parseFloat (members !! js "x") ≫= λ x,
                     evalMember parseFloat (members !! js "y") ≫= λ y,
                     mret (Object (<[js "y" := y]> (<[js "x" := x]> ∅))))).
    { simpl. rewrite Ht. simpl.
      rewrite !(component_member o members) by done.
      destruct (evalMember parseFloat (members !! js "x")); [|done].
      by destruct (evalMember parseFloat (members !! js "y")). }
    split; [exact Heq|]. intros n Hx. by rewrite Heq, Hx.
  - intros Hvalue. simpl. rewrite Ht. simpl.
    by rewrite !(component_no_object o) by done.
Qed.

End eval.

Lemma raw_constant_witness :
  ∃ v, evalJSONGameConstant (λ _, nan) (JObj exampleRaw) = Ok v
       ∧ ¬ containsNull v
       ∧ v = nullToUndefined
               (default Undefined (ofJson <$> exampleRaw !! js "value")).
Proof.
  apply (raw_constant (λ _, nan) exampleRaw); reflexivity.
Defined.


Example number_constant_percent :
  evalJSONGameConstant (λ _, 50%float) (JObj examplePercent)
  = Ok (Number 0.5).
Proof. vm_compute. reflexivity. Qed.

(** The constant of the example is the boolean [true]. *)
Example number_constant_true :
  evalJSONGameConstant (λ _, nan) (JObj exampleNumber) = Ok (Boolean true).
Proof. vm_compute. reflexivity. Qed.

Lemma xy_constant_witness :
  evalJSONGameConstant (λ _, nan) (JObj exampleXY)
  = Ok (Object (<[js "y" := Boolean true]> (<[js "x" := Number 1]> ∅))).
Proof.
  destruct (xy_constant (λ _, nan) exampleXY) as [Hxy _]; [reflexivity|].
  destruct (Hxy exampleXYMembers) as [Heq _]; [reflexivity|].
  rewrite Heq. reflexivity.
Defined.

End ConstantsFacts.
